(** * bqskit: gate algebra, state vectors and the singleton base class

    A shallow embedding of the Python sources

      - [bqskit/ir/gates/composed/frozenparam.py]
      - [bqskit/ir/gates/composed/varloc.py]
      - [bqskit/ir/gates/parameterized/u2.py]
      - [bqskit/ir/gates/constant/cz.py]
      - [bqskit/qis/state/state.py]
      - [bqskit/utils/singleton.py]

    Python integers are [Z] where the code tests their sign and [nat] where
    they are lengths or positions produced by [range]; Python floats are
    idealised as the real numbers [R] and [complex128] as pairs of reals;
    a numpy 2-d array is a list of rows, a 3-d array a list of 2-d arrays.
    A raised exception is the [Raise] case of [result]. The [name]
    attributes and [get_name] methods, which only render strings, are
    left out. *)

From Stdlib Require Import Reals Lra Lia ZArith List.
From Stdlib Require Import Ascii.
From Stdlib Require String.
From stdpp Require Import gmap list sorting strings.

(* ================================================================== *)
(** * Part I: definitions                                              *)
(* ================================================================== *)

(** ** Exceptions and the error monad *)

Inductive exn : Set :=
  | TypeError
  | ValueError
  | KeyError
  | IndexError
  | NotImplementedError
  | ParameterMismatch.

Inductive result (A : Type) : Type :=
  | Ok (a : A)
  | Raise (e : exn).
Arguments Ok {A} a.
Arguments Raise {A} e.

Definition rbind {A B} (k : A → result B) (r : result A) : result B :=
  match r with
  | Ok a => k a
  | Raise e => Raise e
  end.

(** [result] with stdpp's monad notations: [x ← r; k] and [r ;; k]. *)
#[global] Instance result_bind : MBind result := @rbind.
#[global] Instance result_ret : MRet result := @Ok.

Definition is_ok {A} (r : result A) : bool :=
  match r with Ok _ => true | Raise _ => false end.

(** [for x in xs: body] over a fallible body. *)
Fixpoint for_each {A S} (body : S → A → result S) (xs : list A) (s : S)
  : result S :=
  match xs with
  | [] => Ok s
  | x :: xs' => s' ← body s x; for_each body xs' s'
  end.

(** A list comprehension whose element expression may raise. *)
Fixpoint mapM {A B} (f : A → result B) (xs : list A) : result (list B) :=
  match xs with
  | [] => Ok []
  | x :: xs' => y ← f x; ys ← mapM f xs'; Ok (y :: ys)
  end.

(** ** Python built-ins *)

Module Py.

(** [list.insert(i, x)]: a negative index counts from the end, and an
    index outside the list is clamped to its nearest end. *)
Definition list_insert {A} (i : Z) (x : A) (l : list A) : list A :=
  let n := Z.of_nat (length l) in
  let j := if (i <? 0)%Z then Z.max 0 (i + n) else Z.min i n in
  take (Z.to_nat j) l ++ x :: drop (Z.to_nat j) l.

(** [sorted(d)] for a dict with integer keys: its keys in ascending
    order. *)
Definition sorted_keys {V} (d : gmap Z V) : list Z :=
  merge_sort Z.le ((map_to_list d).*1).

(** [d[k]], raising [KeyError] for an absent key. *)
Definition getitem {V} (d : gmap Z V) (k : Z) : result V :=
  match d !! k with
  | Some v => Ok v
  | None => Raise KeyError
  end.

(** [max(xs)], raising [ValueError] on an empty sequence. *)
Definition max (xs : list nat) : result nat :=
  match xs with
  | [] => Raise ValueError
  | x :: xs' => Ok (foldl Nat.max x xs')
  end.

(** A [dict] whose order of insertion matters: an association list
    with one entry per key. [d[k]] raises [KeyError] for an absent key;
    [d[k] = v] rebinds a present key in place and appends a new one. *)
Fixpoint dict_get {V} (d : list (nat * V)) (k : nat) : result V :=
  match d with
  | [] => Raise KeyError
  | (k', v) :: d' => if decide (k = k') then Ok v else dict_get d' k
  end.

Fixpoint dict_set {V} (d : list (nat * V)) (k : nat) (v : V)
  : list (nat * V) :=
  match d with
  | [] => [(k, v)]
  | (k', v') :: d' =>
      if decide (k = k') then (k, v) :: d' else (k', v') :: dict_set d' k v
  end.

Definition dict_values {V} (d : list (nat * V)) : list V := d.*2.

(** [xs[i]] for a non-negative position. *)
Definition index {A} (xs : list A) (i : nat) : result A :=
  match xs !! i with
  | Some x => Ok x
  | None => Raise IndexError
  end.

End Py.

(** ** Complex numbers and numpy arrays *)

Definition C : Type := (R * R)%type.

Module Cx.
Local Open Scope R_scope.

Definition of_R (x : R) : C := (x, 0).
Definition zero : C := (0, 0).
Definition one : C := (1, 0).
(** The literal [1j]. *)
Definition j : C := (0, 1).
Definition re (z : C) : R := fst z.
Definition im (z : C) : R := snd z.
Definition add (a b : C) : C := (re a + re b, im a + im b).
Definition sub (a b : C) : C := (re a - re b, im a - im b).
Definition neg (a : C) : C := (- re a, - im a).
Definition mul (a b : C) : C :=
  (re a * re b - im a * im b, re a * im b + im a * re b).
Definition conj (a : C) : C := (re a, - im a).
(** [np.exp] on a complex argument. *)
Definition exp (a : C) : C :=
  (Rtrigo_def.exp (re a) * cos (im a), Rtrigo_def.exp (re a) * sin (im a)).
(** [np.abs] on a complex argument. *)
Definition abs (a : C) : R := sqrt (re a * re a + im a * im a).
(** [a / b]; a real or integer divisor is promoted to a complex one. *)
Definition div (a b : C) : C :=
  ((re a * re b + im a * im b) / (re b * re b + im b * im b),
   (im a * re b - re a * im b) / (re b * re b + im b * im b)).

End Cx.

Definition matrix : Type := list (list C).

Module Np.

Definition nrows (m : matrix) : nat := length m.
Definition ncols (m : matrix) : nat := length (hd [] m).
Definition shape (m : matrix) : nat * nat := (nrows m, ncols m).

(** [np.identity(n)]. *)
Definition identity (n : nat) : matrix :=
  map (λ r, map (λ c, if decide (r = c) then Cx.one else Cx.zero) (seq 0 n))
      (seq 0 n).


(** [M.T]. *)
Definition transpose (m : matrix) : matrix :=
  map (λ c, map (λ row, nth c row Cx.zero) m) (seq 0 (ncols m)).

(** [x * M] for a scalar [x]. *)
Definition scal (x : C) (m : matrix) : matrix := map (map (Cx.mul x)) m.

(** Elementwise [A + B] and [A - B] on arrays of one shape. *)
Definition add (a b : matrix) : matrix := zip_with (zip_with Cx.add) a b.
Definition sub (a b : matrix) : matrix := zip_with (zip_with Cx.sub) a b.

Definition dot (u v : list C) : C :=
  foldr Cx.add Cx.zero (zip_with Cx.mul u v).

(** The entries of [A @ B]. *)
Definition mm (a b : matrix) : matrix :=
  map (λ row, map (dot row) (transpose b)) a.

(** [A @ B]: numpy raises [ValueError] unless the inner dimensions
    agree. *)
Definition matmul (a b : matrix) : result matrix :=
  if decide (ncols a = nrows b) then Ok (mm a b) else Raise ValueError.

(** [np.kron(A, B)]. *)
Definition kron (a b : matrix) : matrix :=
  concat (map (λ ra, map (λ rb, concat (map (λ x, map (Cx.mul x) rb) ra)) b) a).

(** [np.sum(Ms, 0)] for a non-empty list of arrays of one shape. A
    ragged list does not convert to an array, and the sum of an empty
    list is the scalar 0.0, which the matrix product that follows
    rejects with [ValueError]; both cases raise here. *)
Definition sum0 (ms : list matrix) : result matrix :=
  match ms with
  | [] => Raise ValueError
  | m :: ms' =>
      if forallb (λ m', bool_decide (shape m' = shape m)) ms'
      then Ok (foldl add m ms')
      else Raise ValueError
  end.

(** [np.argmax(xs)]: the first position holding the maximum;
    [ValueError] on an empty sequence. *)
Fixpoint argmax_from (best : R) (besti i : nat) (xs : list R) : nat :=
  match xs with
  | [] => besti
  | x :: xs' =>
      if Rlt_dec best x then argmax_from x i (S i) xs'
      else argmax_from best besti (S i) xs'
  end.

Definition argmax (xs : list R) : result nat :=
  match xs with
  | [] => Raise ValueError
  | x :: xs' => Ok (argmax_from x 0 1 xs')
  end.

(** [A[idxs, :, :]]: the sub-arrays at the listed positions, in the
    order listed. *)
Definition take_rows (a : list matrix) (idxs : list nat)
  : result (list matrix) :=
  mapM (Py.index a) idxs.

End Np.

(** ** [UnitaryMatrix] *)

#[global] Instance Rle_decision (x y : R) : Decision (x <= y)%R := Rle_dec x y.
#[global] Instance Rlt_decision (x y : R) : Decision (x < y)%R := Rlt_dec x y.

Module UnitaryMatrix.
Local Open Scope R_scope.

(** A unitary tagged with its radix tuple. *)
Record t : Type := {
  numpy : matrix;
  radixes : list nat;
}.

Definition tol : R := 1 / 10 ^ 8.

(** [np.allclose(A, B, rtol=0, atol=tol)] on arrays of one shape. *)
Definition allclose (a b : matrix) (atol : R) : bool :=
  bool_decide (Np.shape a = Np.shape b)
  && forallb
       (λ rows : list C * list C,
          forallb
            (λ xy : C * C, bool_decide (Cx.abs (Cx.sub xy.1 xy.2) <= atol))
            (zip rows.1 rows.2))
       (zip a b).

Definition dagger (u : matrix) : matrix :=
  Np.transpose (map (map Cx.conj) u).

(** Modelled from the spec: the validity test of the unitary value type,
    whose class is not among the sources. A unitary is a square matrix
    with [U·U† ≈ I] within tolerance. *)
Definition is_unitary (u : matrix) : bool :=
  bool_decide (Np.nrows u = Np.ncols u)
  && allclose (Np.mm u (dagger u)) (Np.identity (Np.nrows u)) tol.

(** Modelled from the spec: the constructor of the unitary value type.
    Values are validated eagerly; a non-unitary matrix, or a dimension
    that is not the product of the radixes, is a ValueError-kind
    failure. *)
Definition init (u : matrix) (rs : list nat) : result t :=
  if negb (is_unitary u) then Raise ValueError
  else if negb (bool_decide (foldr Nat.mul 1%nat rs = Np.nrows u))
  then Raise ValueError
  else Ok {| numpy := u; radixes := rs |}.

Definition get_numpy (self : t) : matrix := numpy self.
Definition get_dim (self : t) : nat := Np.nrows (numpy self).

End UnitaryMatrix.

(** ** The gate capability contract *)

(** A gate as the composed gates see it: its declared attributes and its
    evaluation methods. *)
Record Gate : Type := {
  gate_num_params : nat;
  gate_size : nat;
  gate_radixes : list nat;
  gate_get_unitary : list R → result UnitaryMatrix.t;
  gate_get_grad : list R → result (list matrix);
  gate_optimize : matrix → result (list R);
}.

(** Modelled from the spec: [Gate.check_parameters] of the gate base class,
    which is not among the sources. [len(params) == num_params] is required,
    else the call fails with a ParameterMismatch. *)
Definition check_parameters (num_params : nat) (params : list R)
  : result unit :=
  if decide (length params = num_params) then Ok tt
  else Raise ParameterMismatch.

(** ** [FrozenParameterGate] *)

Module FrozenParameterGate.

Record t : Type := {
  gate : Gate;
  num_params : nat;
  size : nat;
  radixes : list nat;
  fixed_params : gmap Z R;
  unfixed_param_idxs : list nat;
}.

(** [__init__]. The [isinstance] tests are discharged by the types of the
    arguments; the remaining tests are the two [ValueError] ones. *)
Definition init (g : Gate) (fixed : gmap Z R) : result t :=
  if negb (bool_decide (base.size fixed ≤ gate_num_params g))
  then Raise ValueError
  else
    let keys := (map_to_list fixed).*1 in
    if negb (forallb
               (λ p, bool_decide (0 ≤ p)%Z
                     && bool_decide (p < Z.of_nat (gate_num_params g))%Z)
               keys)
    then Raise ValueError
    else Ok {|
      gate := g;
      num_params := gate_num_params g - base.size fixed;
      size := gate_size g;
      radixes := gate_radixes g;
      fixed_params := fixed;
      unfixed_param_idxs :=
        filter (λ i, fixed !! Z.of_nat i = None)
               (seq 0 (gate_num_params g));
    |}.

(** The body of the loop of [get_full_params]. *)
Definition insert_fixed (fixed : gmap Z R) (args : list R) (idx : Z)
  : result (list R) :=
  v ← Py.getitem fixed idx; Ok (Py.list_insert idx v args).

Definition get_full_params (self : t) (params : list R)
  : result (list R) :=
  check_parameters (num_params self) params ;;
  for_each (insert_fixed (fixed_params self))
    (Py.sorted_keys (fixed_params self))
    params.

Definition get_unitary (self : t) (params : list R)
  : result UnitaryMatrix.t :=
  full ← get_full_params self params;
  gate_get_unitary (gate self) full.

Definition get_grad (self : t) (params : list R) : result (list matrix) :=
  full ← get_full_params self params;
  grads ← gate_get_grad (gate self) full;
  Np.take_rows grads (unfixed_param_idxs self).

Definition optimize (self : t) (env_matrix : matrix) : result (list R) :=
  params ← gate_optimize (gate self) env_matrix;
  Ok (omap (λ ip : nat * R,
              if bool_decide (ip.1 ∈ unfixed_param_idxs self)
              then Some ip.2 else None)
           (imap (λ i p, (i, p)) params)).

(** The wrapper seen through the gate contract again, as
    [with_frozen_params] hands it out. *)
Definition as_gate (self : t) : Gate := {|
  gate_num_params := num_params self;
  gate_size := size self;
  gate_radixes := radixes self;
  gate_get_unitary := get_unitary self;
  gate_get_grad := get_grad self;
  gate_optimize := optimize self;
|}.

Definition with_frozen_params (g : Gate) (frozen : gmap Z R) : result t :=
  init g frozen.

(** [{i: x for i, x in enumerate(params)}]: the entries are bound in
    order, a later one replacing an earlier one with the same key. *)
Definition enumerate_dict (params : list R) : gmap Z R :=
  foldl (λ d (ix : Z * R), <[ix.1 := ix.2]> d) ∅
        (imap (λ i x, (Z.of_nat i, x)) params).

Definition with_all_frozen_params (g : Gate) (params : list R) : result t :=
  init g (enumerate_dict params).

End FrozenParameterGate.

(** ** [U2Gate] *)

Module U2Gate.
Local Open Scope R_scope.

Definition size : nat := 1.
Definition num_params : nat := 2.
(** A [QubitGate]: every radix is 2. *)
Definition radixes : list nat := [2%nat].

(** The array handed to [UnitaryMatrix] by [get_unitary]. *)
Definition unitary_array (p0 p1 : R) : matrix :=
  let sq2 := Cx.of_R (sqrt 2 / 2) in
  let eip := Cx.exp (Cx.mul Cx.j (Cx.of_R p0)) in
  let eil := Cx.exp (Cx.mul Cx.j (Cx.of_R p1)) in
  [ [sq2; Cx.mul (Cx.neg eil) sq2];
    [Cx.mul eip sq2; Cx.mul (Cx.mul eip eil) sq2] ].

Definition get_unitary (params : list R) : result UnitaryMatrix.t :=
  check_parameters num_params params;;
  p0 ← Py.index params 0;
  p1 ← Py.index params 1;
  UnitaryMatrix.init (unitary_array p0 p1) radixes.

(** The array returned by [get_grad]. *)
Definition grad_array (p0 p1 : R) : list matrix :=
  let sq2 := Cx.of_R (sqrt 2 / 2) in
  let eip := Cx.exp (Cx.mul Cx.j (Cx.of_R p0)) in
  let eil := Cx.exp (Cx.mul Cx.j (Cx.of_R p1)) in
  let deip := Cx.mul Cx.j (Cx.exp (Cx.mul Cx.j (Cx.of_R p0))) in
  let deil := Cx.mul Cx.j (Cx.exp (Cx.mul Cx.j (Cx.of_R p1))) in
  [ (* wrt params[0] *)
    [ [Cx.zero; Cx.zero];
      [Cx.mul deip sq2; Cx.mul (Cx.mul deip eil) sq2] ];
    (* wrt params[1] *)
    [ [Cx.zero; Cx.mul (Cx.neg deil) sq2];
      [Cx.zero; Cx.mul (Cx.mul eip deil) sq2] ] ].

Definition get_grad (params : list R) : result (list matrix) :=
  check_parameters num_params params;;
  p0 ← Py.index params 0;
  p1 ← Py.index params 1;
  Ok (grad_array p0 p1).

(** [optimize] is not overridden by [U2Gate]; the base class leaves it
    unimplemented. *)
Definition as_gate : Gate := {|
  gate_num_params := num_params;
  gate_size := size;
  gate_radixes := radixes;
  gate_get_unitary := get_unitary;
  gate_get_grad := get_grad;
  gate_optimize := λ _, Raise NotImplementedError;
|}.

End U2Gate.

(** ** Example gates *)

(** A three-parameter gate for the literal scenario: the diagonal
    single-qubit gate with phases [p0] and [p1 + p2]. *)
Definition three_phase_gate : Gate := {|
  gate_num_params := 3;
  gate_size := 1;
  gate_radixes := [2];
  gate_get_unitary := λ params,
    check_parameters 3 params;;
    p0 ← Py.index params 0;
    p1 ← Py.index params 1;
    p2 ← Py.index params 2;
    UnitaryMatrix.init
      [ [Cx.exp (Cx.mul Cx.j (Cx.of_R p0)); Cx.zero];
        [Cx.zero; Cx.exp (Cx.mul Cx.j (Cx.of_R (p1 + p2)))] ] [2];
  gate_get_grad := λ _, Raise NotImplementedError;
  gate_optimize := λ _, Raise NotImplementedError;
|}.

(** A constant two-qudit gate on a qubit and a qutrit, for the radix
    checks. *)
Definition qubit_qutrit_gate : Gate := {|
  gate_num_params := 0;
  gate_size := 2;
  gate_radixes := [2; 3];
  gate_get_unitary := λ params,
    check_parameters 0 params;; UnitaryMatrix.init (Np.identity 6) [2; 3];
  gate_get_grad := λ _, Raise NotImplementedError;
  gate_optimize := λ _, Raise NotImplementedError;
|}.

(** The constant one-qutrit identity gate. *)
Definition qutrit_identity_gate : Gate := {|
  gate_num_params := 0;
  gate_size := 1;
  gate_radixes := [3];
  gate_get_unitary := λ params,
    check_parameters 0 params;; UnitaryMatrix.init (Np.identity 3) [3];
  gate_get_grad := λ params, check_parameters 0 params;; Ok [];
  gate_optimize := λ _, Ok [];
|}.

(** A two-parameter diagonal gate whose local optimiser reads its phases
    off the diagonal of the environment matrix, for the examples. *)
Definition two_phase_gate : Gate := {|
  gate_num_params := 2;
  gate_size := 1;
  gate_radixes := [2];
  gate_get_unitary := λ params,
    check_parameters 2 params;;
    p0 ← Py.index params 0;
    p1 ← Py.index params 1;
    UnitaryMatrix.init
      [ [Cx.exp (Cx.mul Cx.j (Cx.of_R p0)); Cx.zero];
        [Cx.zero; Cx.exp (Cx.mul Cx.j (Cx.of_R p1))] ] [2];
  gate_get_grad := λ _, Raise NotImplementedError;
  gate_optimize := λ env,
    Ok [Cx.im (nth 0 (nth 0 env []) Cx.zero);
        Cx.im (nth 1 (nth 1 env []) Cx.zero)];
|}.

(** ** [PermutationMatrix] and [softmax] *)

Module PermutationMatrix.

(** The position that basis state [c] of an [n]-qubit register is sent
    to when qubit [perm[k]] moves to place [k] (qubit 0 is the most
    significant bit). *)
Definition permute_index (n : nat) (perm : list nat) (c : nat) : nat :=
  foldr Nat.add 0
    (imap (λ k q, if Nat.testbit c (n - 1 - q) then 2 ^ (n - 1 - k) else 0)
          perm).

(** Modelled from the spec: [PermutationMatrix.from_qubit_location],
    whose class is not among the sources. The permutation matrix
    embedding a candidate's qubits into the full register ordering: a
    [2^n × 2^n] 0/1 matrix that moves the qubits of the location, in
    order, to the leading places and keeps the others in ascending
    order after them. *)
Definition from_qubit_location (n : nat) (location : list nat) : matrix :=
  let perm :=
    location ++ filter (λ q, q ∉ location) (seq 0 n) in
  map (λ r,
         map (λ c, if decide (r = permute_index n perm c)
                   then Cx.one else Cx.zero)
             (seq 0 (2 ^ n)))
      (seq 0 (2 ^ n)).

End PermutationMatrix.

(** Modelled from the spec: [bqskit.utils.math.softmax], which is not
    among the sources. The temperature-scaled softmax: weight [i] is
    [exp(beta * x_i) / Σ_j exp(beta * x_j)]. *)
Definition softmax (x : list R) (beta : R) : list R :=
  let exps := map (λ xi, exp (beta * xi)%R) x in
  map (λ e, (e / foldr Rplus 0%R exps)%R) exps.

(** ** [VariableLocationGate] *)

Module VariableLocationGate.

Record t : Type := {
  gate : Gate;
  size : nat;
  locations : list (list nat);
  radixes : list nat;
  num_params : nat;
  extension_size : Z;
  I : matrix;
  perms : list matrix;
}.

(** One step of the radix loop: qudit [qudit_index] of a location is to
    carry [radix]. *)
Definition assign_radix (radix_map : list (nat * option nat))
    (rq : nat * nat) : result (list (nat * option nat)) :=
  let '(radix, qudit_index) := rq in
  cur ← Py.dict_get radix_map qudit_index;
  match cur with
  | None => Ok (Py.dict_set radix_map qudit_index (Some radix))
  | Some r =>
      if negb (Nat.eqb r radix) then Raise ValueError else Ok radix_map
  end.

(** The defaulting loop: every qudit still at [None] gets radix 2. *)
Definition default_radixes (radix_map : list (nat * option nat))
  : list (nat * option nat) :=
  if existsb (λ radix : option nat, bool_decide (radix = None))
             (Py.dict_values radix_map)
  then foldl (λ rm (item : nat * option nat),
                match item.2 with
                | None => Py.dict_set rm item.1 (Some 2)
                | Some _ => rm
                end)
             radix_map radix_map
  else radix_map.

Section with_typing.
(** [is_valid_location] of [bqskit.utils.typing] is not among the
    sources; the constructor is modelled for any such test. *)
Variable is_valid_location : list nat → bool.

Definition init (g : Gate) (locs : list (list nat)) : result t :=
  if negb (forallb is_valid_location locs) then Raise TypeError
  else if negb (forallb (λ l, Nat.eqb (length l) (gate_size g)) locs)
  then Raise ValueError
  else if Nat.ltb (length locs) 1 then Raise ValueError
  else
    maxes ← mapM Py.max locs;
    top ← Py.max maxes;
    let size := top + 1 in
    (* Calculate radixes and
       ensure that the gate can be applied to all locations *)
    let radix_map0 : list (nat * option nat) :=
      map (λ i, (i, None)) (seq 0 size) in
    radix_map ← for_each
                  (λ rm l, for_each assign_radix (zip (gate_radixes g) l) rm)
                  locs radix_map0;
    let radix_map := default_radixes radix_map in
    rs ← mapM (λ radix : option nat,
                 match radix with
                 | Some r => Ok r
                 | None => Raise TypeError
                 end)
              (Py.dict_values radix_map);
    let extension_size := (Z.of_nat size - Z.of_nat (gate_size g))%Z in
    (* 2 ** extension_size is a float for a negative exponent, which
       np.identity rejects *)
    if (extension_size <? 0)%Z then Raise TypeError
    else Ok {|
      gate := g;
      size := size;
      locations := locs;
      radixes := rs;
      num_params := gate_num_params g + length locs;
      extension_size := extension_size;
      I := Np.identity (2 ^ Z.to_nat extension_size);
      perms := map (PermutationMatrix.from_qubit_location size) locs;
    |}.

End with_typing.

Definition split_params (self : t) (params : list R)
  : list R * list R :=
  (take (gate_num_params (gate self)) params,
   drop (gate_num_params (gate self)) params).

Definition get_location (self : t) (params : list R)
  : result (list nat) :=
  idx ← Np.argmax (split_params self params).2;
  Py.index (locations self) idx.

(** [np.sum([a * s.get_numpy() for a, s in zip(l, self.perms)], 0)]. *)
Definition weighted_perms (self : t) (l : list R) : result matrix :=
  Np.sum0 (zip_with (λ a s, Np.scal (Cx.of_R a) s) l (perms self)).

Section with_closest_to.
(** [UnitaryMatrix.closest_to] belongs to the unitary value type,
    which is not among the sources; [get_unitary] is modelled for
    any such projection. *)
Variable closest_to : matrix → list nat → result UnitaryMatrix.t.

Definition get_unitary (self : t) (params : list R)
  : result UnitaryMatrix.t :=
  check_parameters (num_params self) params;;
  let '(a, l) := split_params self params in
  let l := softmax l 10 in
  P ← weighted_perms self l;
  G ← gate_get_unitary (gate self) a;
  PG ← Np.matmul P (Np.kron (UnitaryMatrix.get_numpy G) (I self));
  PGPT ← Np.matmul PG (Np.transpose P);
  closest_to PGPT (radixes self).

End with_closest_to.

(** The gradient arrays are 3-d: a list of matrices, one per
    parameter. *)
Definition get_unitary_and_grad (self : t) (params : list R)
  : result (matrix * list matrix) :=
  check_parameters (num_params self) params;;
  let '(a, l) := split_params self params in
  let l := softmax l 10 in
  P ← weighted_perms self l;
  U ← gate_get_unitary (gate self) a;
  let G := Np.kron (UnitaryMatrix.get_numpy U) (I self) in
  PG ← Np.matmul P G;
  GPT ← Np.matmul G (Np.transpose P);
  PGPT ← Np.matmul P GPT;
  dG ← gate_get_grad (gate self) a;
  let dG := map (λ d, Np.kron d (I self)) dG in
  dG ← mapM (λ d, Pd ← Np.matmul P d; Np.matmul Pd (Np.transpose P)) dG;
  let perm_array := perms self in
  left ← mapM (λ perm, Np.matmul perm GPT) perm_array;
  right ← mapM (λ perm, Np.matmul PG (Np.transpose perm)) perm_array;
  let dP :=
    zip_with (λ x y, Np.sub (Np.add x y) (Np.scal (Cx.of_R 2) PGPT))
             left right in
  let dP := zip_with (λ x y, Np.scal (Cx.of_R (10 * x)) y) l dP in
  Ok (PGPT, dG ++ dP).

Definition get_grad (self : t) (params : list R) : result (list matrix) :=
  r ← get_unitary_and_grad self params; Ok r.2.

End VariableLocationGate.

(** ** [StateVector] *)

Module StateVector.
Local Open Scope R_scope.

Record t : Type := {
  vec : list C;
  dim : nat;
  radixes : list nat;
  size : nat;
}.

(** What the constructor accepts: an existing state, or data that
    [np.array(vec, dtype=np.complex128)] turns into an array. *)
Inductive StateLike : Type :=
  | OfState (s : t)
  | OfArray (v : list C).

Definition get_numpy (self : t) : list C := vec self.
Definition get_size (self : t) : nat := size self.
Definition get_dim (self : t) : nat := dim self.
Definition get_radixes (self : t) : list nat := radixes self.

(** [np.sum(np.square(np.abs(V)))]. *)
Definition sum_square_abs (v : list C) : R :=
  foldr Rplus 0 (map (λ z, Cx.abs z * Cx.abs z) v).

(** [np.allclose(a, b, rtol, atol)] on scalars. *)
Definition allclose (a b rtol atol : R) : bool :=
  bool_decide (Rabs (a - b) <= atol + rtol * Rabs b).

Definition default_tol : R := 1 / 10 ^ 8.

Section with_typing.
(** [is_vector] and [is_valid_radixes] of [bqskit.utils.typing] are
    not among the sources; the constructor is modelled for any
    pair of such tests. *)
Variable is_vector : list C → bool.
Variable is_valid_radixes : list nat → bool.

Definition is_pure_state (V : StateLike) (tol : R) : bool :=
  match V with
  | OfState _ => true
  | OfArray v =>
      if negb (is_vector v) then false
      else if negb (allclose (sum_square_abs v) 1 0 tol) then false
      else true
  end.

(** The exponent [k] with [3 ** k == dim], where the code rounds
    [log(dim) / log(3)]; likewise [Nat.log2] stands for the rounded
    [np.log2] of a power of two. A dimension of 0 never gets this far: an
    empty vector is not a pure state. *)
Definition log3 (d : nat) : option nat :=
  List.find (λ k, Nat.eqb (3 ^ k) d) (seq 0 (S d)).

Definition init (v : StateLike) (rs : list nat) : result t :=
  match v with
  | OfState s =>
      (* Copy Constructor *)
      Ok {| vec := get_numpy s; dim := get_dim s;
            radixes := get_radixes s; size := get_size s |}
  | OfArray np_vec =>
      if negb (is_pure_state (OfArray np_vec) default_tol)
      then Raise TypeError
      else
        let d := length np_vec in
        rs' ← (if negb (bool_decide (rs = [])) then Ok rs
               (* Check if unitary dimension is a power of two *)
               else if Nat.eqb (Nat.land d (d - 1)) 0
               then Ok (replicate (Nat.log2 d) 2%nat)
               (* Check if unitary dimension is a power of three *)
               else match log3 d with
                    | Some k => Ok (replicate k 3%nat)
                    | None => Raise TypeError
                    end);
        if negb (is_valid_radixes rs') then Raise TypeError
        else if negb (bool_decide (foldr Nat.mul 1%nat rs' = d))
        then Raise ValueError
        else Ok {| vec := np_vec; dim := d; radixes := rs';
                   size := length rs' |}
  end.

Definition get_probs (self : t) : list R :=
  map (λ z, Cx.abs z ^ 2) (vec self).

End with_typing.

End StateVector.

(** ** [Singleton] *)

Module Singleton.

(** [fmt % args] for a string [fmt] and string arguments (a single
    non-tuple argument is a one-element list). [%%] is a literal percent
    sign; [%s], [%r] and [%a] consume an argument; a numeric conversion
    of a string argument, a missing argument and an argument left over
    ("not all arguments converted during string formatting") are
    [TypeError]s; an unknown or missing conversion character is a
    [ValueError]. Flags, widths and mapping keys are not modelled. *)
Definition quoted (a : string) : string :=
  String "'"%char (a +:+ String "'"%char EmptyString).

Fixpoint format (fmt : list Ascii.ascii) (args : list string)
  : result string :=
  match fmt with
  | [] =>
      match args with
      | [] => Ok EmptyString
      | _ :: _ => Raise TypeError
      end
  | c :: rest =>
      if Ascii.eqb c "%"%char then
        match rest with
        | [] => Raise ValueError
        | k :: rest' =>
            if Ascii.eqb k "%"%char then
              out ← format rest' args; Ok (String "%"%char out)
            else if Ascii.eqb k "s"%char then
              match args with
              | [] => Raise TypeError
              | a :: args' => out ← format rest' args'; Ok (a +:+ out)
              end
            else if Ascii.eqb k "r"%char || Ascii.eqb k "a"%char then
              match args with
              | [] => Raise TypeError
              | a :: args' =>
                  out ← format rest' args'; Ok (quoted a +:+ out)
              end
            else if existsb (Ascii.eqb k)
                      (String.list_ascii_of_string "diouxXeEfFgGc")
            then Raise TypeError
            else Raise ValueError
        end
      else out ← format rest args; Ok (String c out)
  end.

Definition str_mod (fmt arg : string) : result string :=
  format (String.list_ascii_of_string fmt) [arg].

(** A class under [Singleton]: the base class itself, or a subclass
    with its [__name__] and its parent. *)
Inductive class : Type :=
  | Base
  | Sub (name : string) (parent : class).

Fixpoint qualname (cls : class) : list string :=
  match cls with
  | Base => ["Singleton"%string]
  | Sub n p => n :: qualname p
  end.

Definition __name__ (cls : class) : string :=
  match cls with
  | Base => "Singleton"%string
  | Sub n _ => n
  end.

(** Objects are named by allocation order. *)
Definition object : Type := nat.

(** The class attributes [_instance] that exist: for each class that
    has one in its own namespace, its value ([None] or an object). *)
Record store : Type := {
  own_instance : gmap (list string) (option object);
  next_object : object;
}.

(** At import time only the base class binds [_instance], to [None]. *)
Definition initial : store := {|
  own_instance := {[ qualname Base := None ]};
  next_object := 0;
|}.

(** [cls._instance]: the first binding along the inheritance chain. *)
Fixpoint get_instance (st : store) (cls : class) : option object :=
  match own_instance st !! qualname cls with
  | Some v => v
  | None =>
      match cls with
      | Base => None
      | Sub _ p => get_instance st p
      end
  end.

(** [cls._instance = o] binds in the namespace of [cls] itself. *)
Definition set_instance (st : store) (cls : class) (o : object) : store :=
  {| own_instance := <[ qualname cls := Some o ]> (own_instance st);
     next_object := next_object st |}.

(** [object.__new__(cls)]. *)
Definition object_new (st : store) : object * store :=
  (next_object st,
   {| own_instance := own_instance st;
      next_object := S (next_object st) |}).

(** [Singleton.__new__(cls)]: the outcome of the call and the store it
    leaves. The argument of [_logger.debug] is evaluated before the
    call. *)
Definition __new__ (cls : class) (st : store) : result object * store :=
  match get_instance st cls with
  | None =>
      match str_mod "Creating singleton instance for class: "
                    (__name__ cls) with
      | Raise e => (Raise e, st)
      | Ok _msg =>
          let '(o, st1) := object_new st in
          let st2 := set_instance st1 cls o in
          (Ok o, st2)
      end
  | Some o => (Ok o, st)
  end.

(** A sequence of instantiations, each on the store the previous one
    left. *)
Fixpoint instantiate_all (clss : list class) (st : store)
  : list (result object) * store :=
  match clss with
  | [] => ([], st)
  | cls :: rest =>
      let '(r, st1) := __new__ cls st in
      let '(rs, st2) := instantiate_all rest st1 in
      (r :: rs, st2)
  end.

End Singleton.

(** ** Specification-side notions *)

(** Entry [(i, j)] of a 2-d array. *)
Definition entry (m : matrix) (i j : nat) : C := nth j (nth i m []) Cx.zero.

(** [d] is the derivative at [x] of the complex-valued [f]: real and
    imaginary parts are differentiated separately. *)
Definition is_derivative (f : R → C) (x : R) (d : C) : Prop :=
  derivable_pt_lim (λ t, Cx.re (f t)) x (Cx.re d)
  ∧ derivable_pt_lim (λ t, Cx.im (f t)) x (Cx.im d).

(** [D] is the entry-wise derivative at [x] of the matrix-valued [F]. *)
Definition is_matrix_derivative (F : R → matrix) (x : R) (D : matrix)
  : Prop :=
  Np.shape D = Np.shape (F x)
  ∧ ∀ i j, i < Np.nrows D → j < Np.ncols D →
           is_derivative (λ t, entry (F t) i j) x (entry D i j).

(** The U2 matrix as the specification writes it:
    [[√2/2, −e^{iλ}√2/2], [e^{iφ}√2/2, e^{iφ}e^{iλ}√2/2]], with
    [e^{ix} = cos x + i sin x]. *)
Definition U2_matrix (phi lam : R) : matrix :=
  let s := (sqrt 2 / 2)%R in
  [ [ (s, 0%R); ((- cos lam * s)%R, (- sin lam * s)%R) ];
    [ ((cos phi * s)%R, (sin phi * s)%R);
      ((cos (phi + lam) * s)%R, (sin (phi + lam) * s)%R) ] ].

(** The candidate at the argmax of the temperature-scaled softmax of the
    location-weight suffix. *)
Definition location_of_largest_weight (self : VariableLocationGate.t)
    (params : list R) : result (list nat) :=
  let w := drop (gate_num_params (VariableLocationGate.gate self)) params in
  idx ← Np.argmax (softmax w 10);
  Py.index (VariableLocationGate.locations self) idx.

(** An [r × c] array: [r] rows of [c] entries each. *)
Definition has_shape (r c : nat) (m : matrix) : Prop :=
  length m = r ∧ Forall (λ row, length row = c) m.

(** [Σ_i weight_i · Perm_i] as a [dim × dim] matrix, entry by entry. *)
Definition weighted_perm_sum (dim : nat) (weights : list R)
    (perms : list matrix) : matrix :=
  map (λ r,
         map (λ c,
                foldr Cx.add Cx.zero
                  (map (λ i, Cx.mul (Cx.of_R (nth i weights 0%R))
                                    (entry (nth i perms []) r c))
                       (seq 0 (length perms))))
             (seq 0 dim))
      (seq 0 dim).

(** The radix assignments of the constructor, in the order the two nested
    loops make them. *)
Definition radix_assignments (g : Gate) (locs : list (list nat))
  : list (nat * nat) :=
  concat (map (zip (gate_radixes g)) locs).

(** ** A worked input: U2 on one of two qubits *)

(** [np.array] of a real matrix, as a complex array. *)
Definition of_real (rows : list (list R)) : matrix :=
  map (map Cx.of_R) rows.

(** [VariableLocationGate(U2Gate(), [(0,), (1,)])]. *)
Definition u2_on_either_qubit : VariableLocationGate.t := {|
  VariableLocationGate.gate := U2Gate.as_gate;
  VariableLocationGate.size := 2;
  VariableLocationGate.locations := [[0]; [1]];
  VariableLocationGate.radixes := [2; 2];
  VariableLocationGate.num_params := 4;
  VariableLocationGate.extension_size := 1;
  VariableLocationGate.I := Np.identity 2;
  VariableLocationGate.perms :=
    [PermutationMatrix.from_qubit_location 2 [0];
     PermutationMatrix.from_qubit_location 2 [1]];
|}.

Module Worked.
Local Open Scope R_scope.

(** The arrays [P], [G], [PG], [GPT] and [PGPT] of
    [get_unitary_and_grad] at the parameters [[0, 0, 0, 0]], where the
    two location weights are equal. *)
Definition P : matrix := of_real
  [ [1; 0; 0; 0]; [0; 1/2; 1/2; 0]; [0; 1/2; 1/2; 0]; [0; 0; 0; 1] ].

Definition G : matrix :=
  let s := sqrt 2 / 2 in
  of_real [ [s; 0; -s; 0]; [0; s; 0; -s]; [s; 0; s; 0]; [0; s; 0; s] ].

Definition PG : matrix :=
  let s := sqrt 2 / 2 in
  of_real [ [s; 0; -s; 0]; [s/2; s/2; s/2; -s/2];
            [s/2; s/2; s/2; -s/2]; [0; s; 0; s] ].

Definition GPT : matrix :=
  let s := sqrt 2 / 2 in
  of_real [ [s; -s/2; -s/2; 0]; [0; s/2; s/2; -s];
            [s; s/2; s/2; 0]; [0; s/2; s/2; s] ].

Definition PGPT : matrix :=
  let s := sqrt 2 / 2 in
  of_real [ [s; -s/2; -s/2; 0]; [s/2; s/2; s/2; -s/2];
            [s/2; s/2; s/2; -s/2]; [0; s/2; s/2; s] ].

End Worked.

(** ** [CZGate] and [SqrtTGate] *)

Module CZGate.
Local Open Scope R_scope.

Definition size : nat := 2.

(** The array handed to [UnitaryMatrix] in the class body. *)
Definition utry_array : matrix := of_real
  [ [1; 0; 0;  0];
    [0; 1; 0;  0];
    [0; 0; 1;  0];
    [0; 0; 0; -1] ].

(** The class attribute [utry]; a [QubitGate] has radix 2 throughout. *)
Definition utry : result UnitaryMatrix.t :=
  UnitaryMatrix.init utry_array [2%nat; 2%nat].

End CZGate.

Module SqrtTGate.
Local Open Scope R_scope.

Definition _num_qudits : nat := 1.

(** [cmath.exp(1j * cmath.pi / 8)]. *)
Definition phase : C :=
  Cx.exp (Cx.div (Cx.mul Cx.j (Cx.of_R PI)) (Cx.of_R 8)).

Definition utry_array : matrix :=
  [ [Cx.of_R 1; Cx.of_R 0];
    [Cx.of_R 0; phase] ].

Definition _utry : result UnitaryMatrix.t :=
  UnitaryMatrix.init utry_array [2%nat].

End SqrtTGate.

(** ** Further specification-side notions *)

(** The part of the gate contract that the wrappers rely on: on every
    parameter vector of the declared length, [get_grad] returns one
    derivative matrix per parameter. *)
Definition returns_one_grad_per_param (g : Gate) : Prop :=
  ∀ p, length p = gate_num_params g →
       ∃ grads, gate_get_grad g p = Ok grads
                ∧ length grads = gate_num_params g.

(** [Σ_{k < n} f k] over the complex numbers. *)
Definition csum (n : nat) (f : nat → C) : C :=
  foldr Cx.add Cx.zero (map f (seq 0 n)).

(** The product of a list of radixes. *)
Definition product (rs : list nat) : nat := foldr Nat.mul 1 rs.

(** ** The unitary of a [VariableLocationGate], entry by entry *)




(* ================================================================== *)
(** * Part II: theorems                                                *)
(* ================================================================== *)

(** ** The error monad *)

Lemma bind_Ok {A B} (a : A) (k : A → result B) : (Ok a ≫= k) = k a.
Proof. reflexivity. Qed.


Lemma bind_Ok_inv {A B} (r : result A) (k : A → result B) (b : B) :
  (r ≫= k) = Ok b → ∃ a, r = Ok a ∧ k a = Ok b.
Proof. destruct r as [a|e]; [eauto | discriminate]. Qed.

Lemma for_each_app {A S} (body : S → A → result S) xs ys (s : S) :
  for_each body (xs ++ ys) s = (for_each body xs s ≫= for_each body ys).
Proof.
  revert s; induction xs as [|x xs IH]; intros s; [reflexivity|].
  simpl. destruct (body s x) as [s'|e]; [apply IH | reflexivity].
Qed.

Lemma mapM_Ok_Forall2 {A B} (f : A → result B) xs ys :
  mapM f xs = Ok ys ↔ Forall2 (λ x y, f x = Ok y) xs ys.
Proof.
  revert ys; induction xs as [|x xs IH]; intros ys; simpl.
  - split; [intros [= <-]; constructor | inversion 1; reflexivity].
  - split.
    + intros H. apply bind_Ok_inv in H as (y & Hy & H).
      apply bind_Ok_inv in H as (ys' & Hys & [= <-]).
      constructor; [exact Hy | by apply IH].
    + inversion 1 as [|? y ? ys' Hy Hys]; subst.
      rewrite Hy. apply IH in Hys. by rewrite Hys.
Qed.

(** ** [list.insert] *)

Lemma list_insert_in_range {A} (i : nat) (x : A) (l : list A) :
  i ≤ length l →
  Py.list_insert (Z.of_nat i) x l = take i l ++ x :: drop i l.
Proof.
  intros Hi. unfold Py.list_insert.
  destruct (Z.ltb_spec (Z.of_nat i) 0) as [?|_]; [lia|].
  by replace (Z.to_nat (Z.min (Z.of_nat i) (Z.of_nat (length l)))) with i by lia.
Qed.

Lemma lookup_insert_at {A} (i : nat) (x : A) (l : list A) :
  i ≤ length l → (take i l ++ x :: drop i l) !! i = Some x.
Proof.
  intros Hi. rewrite lookup_app_r; rewrite length_take; [|lia].
  by replace (i - i `min` length l) with 0 by lia.
Qed.

Lemma lookup_insert_below {A} (i j : nat) (x : A) (l : list A) :
  j < i → i ≤ length l → (take i l ++ x :: drop i l) !! j = l !! j.
Proof.
  intros Hj Hi.
  rewrite lookup_app_l; [by apply lookup_take_lt | rewrite length_take; lia].
Qed.

Lemma lookup_insert_above {A} (i j : nat) (x : A) (l : list A) :
  i ≤ j → i ≤ length l → (take i l ++ x :: drop i l) !! S j = l !! j.
Proof.
  intros Hj Hi. rewrite lookup_app_r; rewrite length_take; [|lia].
  replace (S j - i `min` length l) with (S (j - i)) by lia.
  simpl. rewrite lookup_drop. f_equal. lia.
Qed.

(** ** The insertion loop of [get_full_params] *)

Lemma filter_seq_split (P : nat → Prop) `{∀ i, Decision (P i)} (k m : nat) :
  k ≤ m →
  filter P (seq 0 m) = filter P (seq 0 k) ++ filter P (seq k (m - k)).
Proof.
  intros Hk. replace m with (k + (m - k)) at 1 by lia.
  by rewrite seq_app, filter_app.
Qed.

Lemma filter_seq_all (P : nat → Prop) `{∀ i, Decision (P i)} (a n : nat) :
  (∀ i, a ≤ i < a + n → P i) → filter P (seq a n) = seq a n.
Proof.
  intros HP. induction n as [|n IH] in a, HP |- *; [reflexivity|].
  simpl. rewrite filter_cons_True by (apply HP; lia).
  f_equal. apply IH. intros i Hi. apply HP. lia.
Qed.

Lemma filter_iff_in {A} (P1 P2 : A → Prop)
    `{!∀ x, Decision (P1 x), !∀ x, Decision (P2 x)} (l : list A) :
  (∀ x, x ∈ l → P1 x ↔ P2 x) → filter P1 l = filter P2 l.
Proof.
  induction l as [|a l IH]; intros HP; [reflexivity|].
  assert (Ha : P1 a ↔ P2 a) by (apply HP; left).
  assert (Hl : filter P1 l = filter P2 l).
  { apply IH. intros x Hx. apply HP. by right. }
  destruct (decide (P1 a)).
  - rewrite !filter_cons_True by tauto. by rewrite Hl.
  - rewrite !filter_cons_False by tauto. exact Hl.
Qed.

Lemma Forall2_impl_elem {A B} (P Q : A → B → Prop) (l : list A) (k : list B) :
  Forall2 P l k → (∀ x y, x ∈ l → P x y → Q x y) → Forall2 Q l k.
Proof.
  induction 1 as [|x y l k Hxy _ IH]; intros HPQ; constructor.
  - apply HPQ; [left | exact Hxy].
  - apply IH. intros x' y' Hx'. apply HPQ. by right.
Qed.

Lemma Forall2_lookup_seq {A} (l : list A) :
  Forall2 (λ i x, l !! i = Some x) (seq 0 (length l)) l.
Proof.
  apply Forall2_lookup. intros i.
  destruct (decide (i < length l)) as [Hi|Hi].
  - destruct (lookup_lt_is_Some_2 l i Hi) as [x Hx]. rewrite Hx.
    rewrite lookup_seq_lt by done. constructor. exact Hx.
  - rewrite lookup_ge_None_2 by (rewrite length_seq; lia).
    rewrite (lookup_ge_None_2 l) by lia. constructor.
Qed.

Lemma insert_loop_spec (fixed : gmap Z R) (ks : list Z) (args : list R) :
  StronglySorted Z.lt ks →
  Forall (λ k, (0 ≤ k)%Z ∧ is_Some (fixed !! k)) ks →
  (∀ t k, ks !! t = Some k → (k ≤ Z.of_nat (length args + t))%Z) →
  ∃ full,
    for_each (FrozenParameterGate.insert_fixed fixed) ks args = Ok full
    ∧ length full = length args + length ks
    ∧ (∀ k v, k ∈ ks → fixed !! k = Some v → full !! Z.to_nat k = Some v)
    ∧ Forall2 (λ i x, full !! i = Some x)
        (filter (λ i, Z.of_nat i ∉ ks) (seq 0 (length full))) args.
Proof.
  induction ks as [|k ks IH] using rev_ind; intros Hsort Hks Hbound.
  - exists args. split; [reflexivity|]. split; [simpl; lia|].
    split; [intros k v Hk; by apply elem_of_nil in Hk|].
    rewrite filter_seq_all by (intros i _; apply not_elem_of_nil).
    apply Forall2_lookup_seq.
  - apply Forall_app in Hks as [Hks Hk].
    apply Forall_singleton in Hk as [Hk0 [v Hv]].
    assert (Hlt : ∀ k0, k0 ∈ ks → (0 ≤ k0 < k)%Z).
    { intros k0 Hk0'. split.
      - rewrite Forall_forall in Hks. by destruct (Hks _ Hk0').
      - eapply StronglySorted_app_1_elem_of; [exact Hsort|done|].
        apply list_elem_of_singleton. reflexivity. }
    destruct IH as (full' & Hrun & Hlen & Hfix & Hfree).
    { by apply StronglySorted_app_1_l in Hsort. }
    { exact Hks. }
    { intros t k0 Ht. apply Hbound. by apply lookup_app_l_Some. }
    assert (Hk : Z.to_nat k ≤ length full').
    { specialize (Hbound (length ks) k).
      rewrite lookup_app_r, Nat.sub_diag in Hbound by lia.
      specialize (Hbound eq_refl). lia. }
    set (i := Z.to_nat k) in *.
    assert (Hki : k = Z.of_nat i) by lia.
    exists (take i full' ++ v :: drop i full').
    assert (Hlen' : length (take i full' ++ v :: drop i full')
                    = S (length full')).
    { rewrite length_app, length_take. simpl. rewrite length_drop. lia. }
    split; [|split; [|split]].
    + rewrite for_each_app, Hrun. simpl. unfold FrozenParameterGate.insert_fixed at 1.
      unfold Py.getitem. rewrite Hv. simpl.
      rewrite Hki. by rewrite list_insert_in_range.
    + rewrite Hlen', Hlen, length_app. simpl. lia.
    + intros k0 v0 Hk0' Hv0. apply elem_of_app in Hk0' as [Hin|Hin].
      * rewrite lookup_insert_below; [by apply Hfix| |done].
        specialize (Hlt _ Hin). lia.
      * apply list_elem_of_singleton in Hin as ->.
        rewrite Hv in Hv0. injection Hv0 as <-.
        by apply lookup_insert_at.
    + rewrite Hlen'.
      rewrite (filter_seq_split _ i (S (length full'))) by lia.
      rewrite (filter_seq_split _ i (length full')) in Hfree by lia.
      apply Forall2_app_inv_l in Hfree as (a1 & a2 & H1 & H2 & ->).
      apply Forall2_app.
      * rewrite (filter_iff_in _ (λ j, Z.of_nat j ∉ ks)).
        2:{ intros j Hj. apply elem_of_seq in Hj.
            rewrite elem_of_app, list_elem_of_singleton.
            split; [tauto|]. intros Hn [Hin|Heq]; [done|lia]. }
        eapply Forall2_impl_elem; [exact H1|].
        intros j x Hj Hx. simpl in Hx |- *.
        apply list_elem_of_filter in Hj as [_ Hj]. apply elem_of_seq in Hj.
        rewrite lookup_insert_below; [exact Hx|lia|done].
      * replace (S (length full') - i) with (S (length full' - i)) by lia.
        rewrite <- cons_seq. rewrite filter_cons_False.
        2:{ intros Hn. apply Hn. apply elem_of_app. right.
            apply list_elem_of_singleton. lia. }
        rewrite filter_seq_all in H2.
        2:{ intros j Hj Hin. specialize (Hlt _ Hin). lia. }
        rewrite filter_seq_all.
        2:{ intros j Hj Hin. apply elem_of_app in Hin as [Hin|Hin].
            - specialize (Hlt _ Hin). lia.
            - apply list_elem_of_singleton in Hin. lia. }
        rewrite <- fmap_S_seq. apply Forall2_fmap_l.
        eapply Forall2_impl_elem; [exact H2|].
        intros j x Hj Hx. simpl in Hx |- *. apply elem_of_seq in Hj.
        rewrite lookup_insert_above; [exact Hx|lia|done].
Qed.

(** ** Sorted keys of the fixed-parameter map *)

Lemma sorted_keys_elem {V} (d : gmap Z V) (k : Z) :
  k ∈ Py.sorted_keys d ↔ is_Some (d !! k).
Proof.
  unfold Py.sorted_keys. rewrite merge_sort_Permutation.
  rewrite list_elem_of_fmap. split.
  - intros [[k' v] [-> Hin]]. apply elem_of_map_to_list in Hin. by exists v.
  - intros [v Hv]. exists (k, v). split; [done|].
    by apply elem_of_map_to_list.
Qed.

Lemma sorted_keys_length {V} (d : gmap Z V) :
  length (Py.sorted_keys d) = base.size d.
Proof.
  unfold Py.sorted_keys. rewrite merge_sort_Permutation.
  by rewrite length_fmap, length_map_to_list.
Qed.

Lemma StronglySorted_le_lt (l : list Z) :
  StronglySorted Z.le l → NoDup l → StronglySorted Z.lt l.
Proof.
  induction 1 as [|x l Hl IH Hx]; intros Hnd; [constructor|].
  apply NoDup_cons in Hnd as [Hnin Hnd].
  constructor; [by apply IH|].
  rewrite Forall_forall in Hx |- *. intros y Hy.
  specialize (Hx y Hy). assert (x ≠ y) by (intros ->; done). lia.
Qed.

Lemma sorted_keys_NoDup {V} (d : gmap Z V) : NoDup (Py.sorted_keys d).
Proof.
  unfold Py.sorted_keys. rewrite merge_sort_Permutation.
  apply NoDup_fst_map_to_list.
Qed.

Lemma sorted_keys_sorted {V} (d : gmap Z V) :
  StronglySorted Z.lt (Py.sorted_keys d).
Proof.
  apply StronglySorted_le_lt; [|apply sorted_keys_NoDup].
  unfold Py.sorted_keys. apply (StronglySorted_merge_sort Z.le).
Qed.

(** In a strictly ascending list of integers below [n], the key at
    position [t] leaves room for the keys after it. *)
Lemma sorted_head_room (n k : Z) (l : list Z) :
  StronglySorted Z.lt (k :: l) → Forall (λ x, (x < n)%Z) (k :: l) →
  (k + Z.of_nat (length (k :: l)) ≤ n)%Z.
Proof.
  revert k. induction l as [|h l IH]; intros k Hs Hn.
  - apply Forall_cons in Hn as [Hk _]. simpl. lia.
  - apply StronglySorted_cons in Hs as [Hk Hs].
    apply Forall_cons in Hn as [_ Hn]. apply Forall_cons in Hk as [Hkh _].
    specialize (IH h Hs Hn). simpl length in *. lia.
Qed.

Lemma sorted_room (n : Z) (l : list Z) (t : nat) (k : Z) :
  StronglySorted Z.lt l → Forall (λ x, (x < n)%Z) l →
  l !! t = Some k → (k + Z.of_nat (length l - t) ≤ n)%Z.
Proof.
  revert t. induction l as [|h l IH]; intros t Hs Hn Ht; [done|].
  destruct t as [|t].
  - injection Ht as ->. rewrite Nat.sub_0_r. by apply sorted_head_room.
  - apply StronglySorted_cons in Hs as [_ Hs].
    apply Forall_cons in Hn as [_ Hn]. simpl in Ht |- *. by apply IH.
Qed.

(** ** [FrozenParameterGate]: construction *)

Lemma frozen_init_Ok (sub : Gate) (fixed : gmap Z R)
    (self : FrozenParameterGate.t) :
  FrozenParameterGate.init sub fixed = Ok self →
  base.size fixed ≤ gate_num_params sub
  ∧ (∀ k, is_Some (fixed !! k) → (0 ≤ k < Z.of_nat (gate_num_params sub))%Z)
  ∧ FrozenParameterGate.gate self = sub
  ∧ FrozenParameterGate.fixed_params self = fixed
  ∧ FrozenParameterGate.num_params self
    = gate_num_params sub - base.size fixed
  ∧ FrozenParameterGate.unfixed_param_idxs self
    = filter (λ i, fixed !! Z.of_nat i = None) (seq 0 (gate_num_params sub)).
Proof.
  unfold FrozenParameterGate.init.
  case_bool_decide as Hsz; simpl; [|discriminate].
  destruct (forallb _ _) eqn:Hkeys; simpl; [|discriminate].
  intros [= <-]. simpl. split; [exact Hsz|]. split; [|done].
  intros k [v Hv]. rewrite forallb_forall in Hkeys.
  specialize (Hkeys k). rewrite andb_true_iff, !bool_decide_eq_true in Hkeys.
  apply Hkeys. apply list_elem_of_In, list_elem_of_fmap. exists (k, v).
  split; [done|]. by apply elem_of_map_to_list.
Qed.

Lemma frozen_init_succeeds (sub : Gate) (fixed : gmap Z R) :
  base.size fixed ≤ gate_num_params sub →
  (∀ k, is_Some (fixed !! k) → (0 ≤ k < Z.of_nat (gate_num_params sub))%Z) →
  ∃ self, FrozenParameterGate.init sub fixed = Ok self.
Proof.
  intros Hsz Hkeys. unfold FrozenParameterGate.init.
  rewrite bool_decide_eq_true_2 by done. simpl.
  destruct (forallb _ _) eqn:Hall; simpl; [eauto|].
  exfalso. apply not_true_iff_false in Hall. apply Hall.
  apply forallb_forall. intros k Hk.
  apply list_elem_of_In, list_elem_of_fmap in Hk as [[k' v] [-> Hin]].
  apply elem_of_map_to_list in Hin.
  destruct (Hkeys k' (ex_intro _ v Hin)).
  rewrite andb_true_iff, !bool_decide_eq_true. done.
Qed.

(** The unfixed indices are exactly the indices of the subgate that the
    fixed map does not bind, in ascending order, and there are [n - f] of
    them. *)
Lemma unfixed_idxs_elem (fixed : gmap Z R) (n i : nat) :
  i ∈ filter (λ i, fixed !! Z.of_nat i = None) (seq 0 n)
  ↔ i < n ∧ fixed !! Z.of_nat i = None.
Proof. rewrite list_elem_of_filter, elem_of_seq. split; intros []; split; done || lia. Qed.

Lemma filter_seq_sorted (P : nat → Prop) `{∀ i, Decision (P i)} (a n : nat) :
  StronglySorted lt (filter P (seq a n)).
Proof.
  revert a. induction n as [|n IH]; intros a; simpl; [constructor|].
  destruct (decide (P a)).
  - rewrite filter_cons_True by done. constructor; [apply IH|].
    apply Forall_forall. intros j Hj.
    apply list_elem_of_filter in Hj as [_ Hj]. apply elem_of_seq in Hj. lia.
  - rewrite filter_cons_False by done. apply IH.
Qed.

Lemma length_filter_split {A} (P : A → Prop) `{∀ x, Decision (P x)}
    (l : list A) :
  length (filter P l) + length (filter (λ x, ¬ P x) l) = length l.
Proof.
  induction l as [|x l IH]; [reflexivity|].
  destruct (decide (P x)).
  - rewrite filter_cons_True, (filter_cons_False (λ x, ¬ P x)) by tauto.
    simpl. lia.
  - rewrite filter_cons_False, (filter_cons_True (λ x, ¬ P x)) by tauto.
    simpl. lia.
Qed.

Lemma fixed_idxs_length (fixed : gmap Z R) (n : nat)
    `{∀ i : nat, Decision (¬ fixed !! Z.of_nat i = None)} :
  (∀ k, is_Some (fixed !! k) → (0 ≤ k < Z.of_nat n)%Z) →
  length (filter (λ i, ¬ fixed !! Z.of_nat i = None) (seq 0 n))
  = base.size fixed.
Proof.
  intros Hkeys. rewrite <- sorted_keys_length.
  rewrite <- (length_fmap Z.to_nat (Py.sorted_keys fixed)).
  apply Permutation_length, NoDup_Permutation.
  - apply NoDup_filter, NoDup_seq.
  - apply NoDup_fmap_2_strong.
    + intros x y Hx Hy Hxy. apply sorted_keys_elem, Hkeys in Hx, Hy. lia.
    + apply sorted_keys_NoDup.
  - intros i. rewrite list_elem_of_filter, elem_of_seq, list_elem_of_fmap.
    split.
    + intros [Hi _]. exists (Z.of_nat i). split; [lia|].
      apply sorted_keys_elem. by apply not_eq_None_Some.
    + intros (k & -> & Hk). apply sorted_keys_elem in Hk.
      pose proof (Hkeys k Hk). replace (Z.of_nat (Z.to_nat k)) with k by lia.
      split; [by apply not_eq_None_Some | lia].
Qed.

Lemma unfixed_idxs_length (fixed : gmap Z R) (n : nat) :
  (∀ k, is_Some (fixed !! k) → (0 ≤ k < Z.of_nat n)%Z) →
  length (filter (λ i, fixed !! Z.of_nat i = None) (seq 0 n))
  = n - base.size fixed.
Proof.
  intros Hkeys.
  pose proof (length_filter_split
                (λ i, fixed !! Z.of_nat i = None) (seq 0 n)) as Hc.
  rewrite length_seq in Hc.
  pose proof (fixed_idxs_length fixed n Hkeys) as Hf. lia.
Qed.

Lemma unfixed_idxs_sorted (fixed : gmap Z R) (n : nat) :
  StronglySorted lt (filter (λ i, fixed !! Z.of_nat i = None) (seq 0 n)).
Proof. apply filter_seq_sorted. Qed.

(** ** [FrozenParameterGate.get_full_params] *)

Lemma get_full_params_general (sub : Gate) (fixed : gmap Z R)
    (self : FrozenParameterGate.t) (free : list R) :
  FrozenParameterGate.init sub fixed = Ok self →
  length free = gate_num_params sub - base.size fixed →
  ∃ full,
    FrozenParameterGate.get_full_params self free = Ok full
    ∧ length full = gate_num_params sub
    ∧ (∀ i v, fixed !! i = Some v → full !! Z.to_nat i = Some v)
    ∧ Forall2 (λ i x, full !! i = Some x)
        (FrozenParameterGate.unfixed_param_idxs self) free.
Proof.
  intros Hinit Hfree.
  destruct (frozen_init_Ok _ _ _ Hinit)
    as (Hsz & Hkeys & _ & Hfixed & Hnum & Hunfixed).
  destruct (insert_loop_spec fixed (Py.sorted_keys fixed) free)
    as (full & Hrun & Hlen & Hfix & Hfill).
  { apply sorted_keys_sorted. }
  { apply Forall_forall. intros k Hk. apply sorted_keys_elem in Hk.
    split; [by apply Hkeys | done]. }
  { intros t k Ht.
    pose proof (lookup_lt_Some _ _ _ Ht) as Hlt.
    pose proof (sorted_room (Z.of_nat (gate_num_params sub))
                  (Py.sorted_keys fixed) t k (sorted_keys_sorted fixed)) as Hr.
    rewrite sorted_keys_length in Hr, Hlt.
    assert (Hall : Forall (λ x, (x < Z.of_nat (gate_num_params sub))%Z)
                     (Py.sorted_keys fixed)).
    { apply Forall_forall. intros x Hx. apply sorted_keys_elem in Hx.
      by apply Hkeys. }
    specialize (Hr Hall Ht). lia. }
  rewrite sorted_keys_length in Hlen.
  exists full. split; [|split; [lia|split]].
  - unfold FrozenParameterGate.get_full_params, check_parameters.
    rewrite Hnum, Hfixed. rewrite decide_True by done. exact Hrun.
  - intros i v Hv. apply Hfix; [|done]. apply sorted_keys_elem. by exists v.
  - rewrite Hunfixed.
    rewrite (list_filter_iff _ (λ i, Z.of_nat i ∉ Py.sorted_keys fixed)).
    + replace (gate_num_params sub) with (length full) by lia. exact Hfill.
    + intros i. rewrite sorted_keys_elem, eq_None_not_Some. done.
Qed.

(** C1. For a frozen-parameter gate over a subgate with [n] parameters and
    a fixed map of size [f], [get_full_params] maps every free vector of
    length [n - f] to a vector of length [n] that holds each fixed value at
    its own subgate index and the free values, in their given order, at the
    unfixed indices (the ascending indices below [n] that the map does not
    bind). In particular, fixing index 1 of a 3-parameter subgate to 0.5
    gives a gate with 2 parameters whose [get_full_params [a; b]] is
    [[a; 0.5; b]]. *)
Theorem get_full_params_interleaves :
  (∀ (sub : Gate) (fixed : gmap Z R) (self : FrozenParameterGate.t)
     (free : list R),
     FrozenParameterGate.init sub fixed = Ok self →
     length free = gate_num_params sub - base.size fixed →
     ∃ full,
       FrozenParameterGate.get_full_params self free = Ok full
       ∧ length full = gate_num_params sub
       ∧ (∀ i v, fixed !! i = Some v → full !! Z.to_nat i = Some v)
       ∧ StronglySorted lt (FrozenParameterGate.unfixed_param_idxs self)
       ∧ (∀ i, i ∈ FrozenParameterGate.unfixed_param_idxs self
               ↔ i < gate_num_params sub ∧ fixed !! Z.of_nat i = None)
       ∧ Forall2 (λ i x, full !! i = Some x)
           (FrozenParameterGate.unfixed_param_idxs self) free)
  ∧ (∀ (sub : Gate) (a b : R),
       gate_num_params sub = 3 →
       ∃ self,
         FrozenParameterGate.init sub {[ 1%Z := 0.5%R ]} = Ok self
         ∧ FrozenParameterGate.num_params self = 2
         ∧ FrozenParameterGate.get_full_params self [a; b]
           = Ok [a; 0.5%R; b]).
Proof.
  split.
  - intros sub fixed self free Hinit Hfree.
    destruct (get_full_params_general _ _ _ _ Hinit Hfree)
      as (full & Hrun & Hlen & Hfix & Hfill).
    destruct (frozen_init_Ok _ _ _ Hinit) as (_ & _ & _ & _ & _ & Hunfixed).
    exists full. split; [done|]. split; [done|]. split; [done|].
    split; [|split; [|done]]; rewrite Hunfixed.
    + apply unfixed_idxs_sorted.
    + apply unfixed_idxs_elem.
  - intros sub a b Hn.
    destruct (frozen_init_succeeds sub {[ 1%Z := 0.5%R ]}) as [self Hinit].
    { rewrite map_size_singleton. lia. }
    { intros k [v Hv]. apply lookup_singleton_Some in Hv as [<- _]. lia. }
    exists self. split; [exact Hinit|].
    destruct (frozen_init_Ok _ _ _ Hinit) as (_ & _ & _ & _ & Hnum & Hunfixed).
    rewrite map_size_singleton, Hn in Hnum. split; [exact Hnum|].
    destruct (get_full_params_general _ _ _ [a; b] Hinit)
      as (full & Hrun & Hlen & Hfix & Hfill).
    { rewrite map_size_singleton, Hn. reflexivity. }
    rewrite Hrun. f_equal.
    rewrite Hunfixed, Hn in Hfill.
    replace (filter _ (seq 0 3)) with [0; 2] in Hfill
      by (vm_compute; reflexivity).
    specialize (Hfix 1%Z 0.5%R (lookup_singleton_eq _ _)).
    apply Forall2_cons in Hfill as [H0 Hfill].
    apply Forall2_cons in Hfill as [H2 _].
    rewrite Hn in Hlen. change (Z.to_nat 1) with 1 in Hfix.
    destruct full as [|x0 [|x1 [|x2 [|]]]]; simpl in *; try discriminate.
    congruence.
Qed.

Lemma get_full_params_interleaves_witness :
  (∃ self full,
     FrozenParameterGate.init U2Gate.as_gate {[ 0%Z := 0.5%R ]} = Ok self
     ∧ FrozenParameterGate.get_full_params self [0.25%R] = Ok full
     ∧ length full = 2
     ∧ full !! 0 = Some 0.5%R)
  ∧ (∃ self,
       FrozenParameterGate.init three_phase_gate {[ 1%Z := 0.5%R ]} = Ok self
       ∧ FrozenParameterGate.get_full_params self [0.25%R; 0.75%R]
         = Ok [0.25%R; 0.5%R; 0.75%R]).
Proof.
  split.
  - destruct (frozen_init_succeeds U2Gate.as_gate {[ 0%Z := 0.5%R ]})
      as [self Hinit].
    { vm_compute. lia. }
    { intros k [v Hv]. apply lookup_singleton_Some in Hv as [<- _].
      vm_compute. split; discriminate || reflexivity. }
    destruct (proj1 get_full_params_interleaves
                U2Gate.as_gate {[ 0%Z := 0.5%R ]} self [0.25%R] Hinit)
      as (full & Hrun & Hlen & Hfix & _).
    { vm_compute. reflexivity. }
    exists self, full. split; [exact Hinit|]. split; [exact Hrun|].
    split; [exact Hlen|]. exact (Hfix 0%Z 0.5%R (lookup_singleton_eq _ _)).
  - destruct (proj2 get_full_params_interleaves
                three_phase_gate 0.25%R 0.75%R eq_refl)
      as (self & Hinit & _ & Hrun).
    exists self. split; [exact Hinit | exact Hrun].
Defined.

(** ** [FrozenParameterGate.get_grad] *)

Lemma rows_in_range {A} (a : list A) (idxs : list nat) :
  Forall (λ i, i < length a) idxs →
  ∃ out, Forall2 (λ i o, a !! i = Some o) idxs out.
Proof.
  induction 1 as [|i l Hi _ IH].
  - exists []. constructor.
  - destruct IH as [out IH].
    destruct (lookup_lt_is_Some_2 a i Hi) as [o Ho].
    exists (o :: out). by constructor.
Qed.

(** C4. A frozen-parameter gate over a subgate with [n] parameters and a
    fixed map of size [f] has [n - f] parameters; and when the subgate
    returns one derivative matrix per parameter, [get_grad] on a free
    vector of length [n - f] returns exactly [n - f] matrices: the
    subgate's derivative matrices at the unfixed indices, in ascending
    index order. *)
Theorem frozen_get_grad_selects_unfixed
    (sub : Gate) (fixed : gmap Z R) (self : FrozenParameterGate.t)
    (free : list R) :
  FrozenParameterGate.init sub fixed = Ok self →
  (∀ p, length p = gate_num_params sub →
        ∃ grads, gate_get_grad sub p = Ok grads
                 ∧ length grads = gate_num_params sub) →
  length free = gate_num_params sub - base.size fixed →
  FrozenParameterGate.num_params self
  = gate_num_params sub - base.size fixed
  ∧ ∃ full grads out,
      FrozenParameterGate.get_full_params self free = Ok full
      ∧ gate_get_grad sub full = Ok grads
      ∧ FrozenParameterGate.get_grad self free = Ok out
      ∧ length out = gate_num_params sub - base.size fixed
      ∧ StronglySorted lt (FrozenParameterGate.unfixed_param_idxs self)
      ∧ (∀ i, i ∈ FrozenParameterGate.unfixed_param_idxs self
              ↔ i < gate_num_params sub ∧ fixed !! Z.of_nat i = None)
      ∧ Forall2 (λ i o, grads !! i = Some o)
          (FrozenParameterGate.unfixed_param_idxs self) out.
Proof.
  intros Hinit Hsub Hfree.
  destruct (frozen_init_Ok _ _ _ Hinit)
    as (Hsz & Hkeys & Hgate & Hfixed & Hnum & Hunfixed).
  split; [exact Hnum|].
  destruct (get_full_params_general _ _ _ _ Hinit Hfree)
    as (full & Hrun & Hlen & _ & _).
  destruct (Hsub full Hlen) as (grads & Hgrads & Hglen).
  assert (Hsel : ∃ out, Forall2 (λ i o, grads !! i = Some o)
                          (FrozenParameterGate.unfixed_param_idxs self) out).
  { apply rows_in_range. rewrite Hunfixed.
    apply Forall_forall. intros i Hi.
    apply unfixed_idxs_elem in Hi as [Hi _]. lia. }
  destruct Hsel as [out Hout].
  exists full, grads, out.
  split; [exact Hrun|]. split; [exact Hgrads|]. split.
  { unfold FrozenParameterGate.get_grad. rewrite Hrun. simpl.
    rewrite Hgate, Hgrads. simpl. unfold Np.take_rows.
    apply mapM_Ok_Forall2. eapply Forall2_impl; [exact Hout|].
    intros i o Ho. unfold Py.index. by rewrite Ho. }
  split.
  { rewrite <- (Forall2_length _ _ _ Hout), Hunfixed.
    by apply unfixed_idxs_length. }
  split; [rewrite Hunfixed; apply unfixed_idxs_sorted|].
  split; [rewrite Hunfixed; apply unfixed_idxs_elem|].
  exact Hout.
Qed.

Lemma U2_get_grad_rows (p : list R) :
  length p = 2 →
  ∃ grads, U2Gate.get_grad p = Ok grads ∧ length grads = 2.
Proof.
  destruct p as [|p0 [|p1 [|]]]; try discriminate. intros _.
  exists (U2Gate.grad_array p0 p1). split; reflexivity.
Qed.

Lemma frozen_get_grad_selects_unfixed_witness :
  ∃ self out,
    FrozenParameterGate.init U2Gate.as_gate {[ 0%Z := 0.5%R ]} = Ok self
    ∧ FrozenParameterGate.num_params self = 1
    ∧ FrozenParameterGate.get_grad self [0.25%R] = Ok out
    ∧ length out = 1.
Proof.
  destruct (frozen_init_succeeds U2Gate.as_gate {[ 0%Z := 0.5%R ]})
    as [self Hinit].
  { vm_compute. lia. }
  { intros k [v Hv]. apply lookup_singleton_Some in Hv as [<- _].
    vm_compute. split; discriminate || reflexivity. }
  destruct (frozen_get_grad_selects_unfixed
              U2Gate.as_gate {[ 0%Z := 0.5%R ]} self [0.25%R]
              Hinit U2_get_grad_rows)
    as (Hnum & full & grads & out & _ & _ & Hout & Hlen & _).
  { vm_compute. reflexivity. }
  exists self, out. split; [exact Hinit|]. split; [exact Hnum|].
  split; [exact Hout | exact Hlen].
Defined.

(** ** Complex exponentials and the U2 gate *)

Section U2.
Local Open Scope R_scope.

Lemma Cexp_j (x : R) : Cx.exp (Cx.mul Cx.j (Cx.of_R x)) = (cos x, sin x).
Proof.
  unfold Cx.exp, Cx.mul, Cx.j, Cx.of_R, Cx.re, Cx.im. simpl.
  replace (0 * x - 1 * 0) with 0 by lra.
  replace (0 * 0 + 1 * x) with x by lra.
  rewrite exp_0. f_equal; lra.
Qed.

Lemma cos_sin_sq (x : R) : cos x * cos x + sin x * sin x = 1.
Proof. pose proof (sin2_cos2 x) as H. unfold Rsqr in H. lra. Qed.

Lemma half_sqrt2_sq : sqrt 2 / 2 * (sqrt 2 / 2) = 1 / 2.
Proof. pose proof (sqrt_sqrt 2). lra. Qed.

Lemma tol_pos : 0 < UnitaryMatrix.tol.
Proof.
  unfold UnitaryMatrix.tol. apply Rdiv_lt_0_compat; [lra|].
  apply pow_lt. lra.
Qed.

Lemma close_of_eq (a b : C) :
  Cx.re a = Cx.re b → Cx.im a = Cx.im b →
  Cx.abs (Cx.sub a b) <= UnitaryMatrix.tol.
Proof.
  intros Hre Him. unfold Cx.abs, Cx.sub. cbn [Cx.re Cx.im fst snd].
  fold (Cx.re a) (Cx.im a) (Cx.re b) (Cx.im b).
  rewrite Hre, Him.
  replace (_ + _) with 0 by ring. rewrite sqrt_0. pose proof tol_pos. lra.
Qed.

Lemma identity_2 : Np.identity 2 = [[Cx.one; Cx.zero]; [Cx.zero; Cx.one]].
Proof. reflexivity. Qed.

(** The array built by [U2Gate.get_unitary] is exactly unitary, so the
    [UnitaryMatrix] constructor accepts it. *)
Lemma U2_array_is_unitary (p0 p1 : R) :
  UnitaryMatrix.is_unitary (U2Gate.unitary_array p0 p1) = true.
Proof.
  unfold U2Gate.unitary_array. rewrite !Cexp_j.
  unfold UnitaryMatrix.is_unitary, UnitaryMatrix.allclose.
  pose proof (cos_sin_sq p0) as H0. pose proof (cos_sin_sq p1) as H1.
  pose proof half_sqrt2_sq as Hs.
  set (c0 := cos p0) in *. set (s0 := sin p0) in *.
  set (c1 := cos p1) in *. set (s1 := sin p1) in *.
  set (s := sqrt 2 / 2) in *.
  assert (H0' : c0 * c0 = 1 - s0 * s0) by lra.
  assert (H1' : c1 * c1 = 1 - s1 * s1) by lra.
  change (Np.nrows _) with 2%nat. rewrite identity_2.
  cbn. rewrite !andb_true_r.
  repeat (apply andb_true_intro; split);
    try (apply bool_decide_eq_true; try reflexivity).
  all: apply close_of_eq;
    unfold Cx.add, Cx.mul, Cx.conj, Cx.neg, Cx.of_R, Cx.zero, Cx.one,
      Cx.re, Cx.im; cbn [fst snd].
  all: try (ring_simplify [H0' H1' Hs]; lra).
  all: ring [H0' H1' Hs].
Qed.

Lemma U2_get_unitary_Ok (p0 p1 : R) :
  U2Gate.get_unitary [p0; p1]
  = Ok {| UnitaryMatrix.numpy := U2Gate.unitary_array p0 p1;
          UnitaryMatrix.radixes := [2%nat] |}.
Proof.
  unfold U2Gate.get_unitary, check_parameters. simpl.
  unfold UnitaryMatrix.init. rewrite U2_array_is_unitary. reflexivity.
Qed.

Lemma U2_array_spec (p0 p1 : R) :
  U2Gate.unitary_array p0 p1 = U2_matrix p0 p1.
Proof.
  unfold U2Gate.unitary_array, U2_matrix. rewrite !Cexp_j.
  unfold Cx.mul, Cx.neg, Cx.of_R, Cx.re, Cx.im. cbn [fst snd].
  rewrite cos_plus, sin_plus.
  repeat f_equal; ring.
Qed.

Lemma derive_val (f : R → R) (x l l' : R) :
  derivable_pt_lim f x l' → l' = l → derivable_pt_lim f x l.
Proof. by intros H <-. Qed.

End U2.

(** Differentiates an expression built from constants, the variable,
    [+], [-], [*], [cos], [sin] and [exp], leaving the derivative as the
    lemmas compose it. *)
Ltac derive_pt :=
  lazymatch goal with
  | |- derivable_pt_lim (fun t => t) _ _ => apply derivable_pt_lim_id
  | |- derivable_pt_lim (fun _ => ?c) _ _ => apply derivable_pt_lim_const
  | |- derivable_pt_lim (fun t => (@?u t + @?v t)%R) ?x _ =>
      eapply (derivable_pt_lim_plus u v x); derive_pt
  | |- derivable_pt_lim (fun t => (@?u t - @?v t)%R) ?x _ =>
      eapply (derivable_pt_lim_minus u v x); derive_pt
  | |- derivable_pt_lim (fun t => (@?u t * @?v t)%R) ?x _ =>
      eapply (derivable_pt_lim_mult u v x); derive_pt
  | |- derivable_pt_lim (fun t => (- @?u t)%R) ?x _ =>
      eapply (derivable_pt_lim_opp u x); derive_pt
  | |- derivable_pt_lim (fun t => cos (@?u t)) ?x _ =>
      eapply (derivable_pt_lim_comp u cos x);
      [derive_pt | apply derivable_pt_lim_cos]
  | |- derivable_pt_lim (fun t => sin (@?u t)) ?x _ =>
      eapply (derivable_pt_lim_comp u sin x);
      [derive_pt | apply derivable_pt_lim_sin]
  | |- derivable_pt_lim (fun t => exp (@?u t)) ?x _ =>
      eapply (derivable_pt_lim_comp u exp x);
      [derive_pt | apply derivable_pt_lim_exp]
  end.

(** C8. For every [φ] and [λ], [U2Gate.get_unitary [φ; λ]] returns the
    matrix [[√2/2, −e^{iλ}√2/2], [e^{iφ}√2/2, e^{iφ}e^{iλ}√2/2]], and
    [U2Gate.get_grad [φ; λ]] returns two matrices that are, entry by entry,
    the exact partial derivatives of that matrix with respect to [φ] and
    with respect to [λ]. *)
Theorem U2_get_grad_is_exact_derivative (phi lam : R) :
  ∃ D0 D1,
    U2Gate.get_grad [phi; lam] = Ok [D0; D1]
    ∧ (∀ p0 p1, ∃ U, U2Gate.get_unitary [p0; p1] = Ok U
                     ∧ UnitaryMatrix.get_numpy U = U2_matrix p0 p1)
    ∧ is_matrix_derivative (λ t, U2_matrix t lam) phi D0
    ∧ is_matrix_derivative (λ t, U2_matrix phi t) lam D1.
Proof.
  eexists _, _. split; [reflexivity|]. split.
  { intros p0 p1. eexists. split; [apply U2_get_unitary_Ok|].
    apply U2_array_spec. }
  split.
  - split; [reflexivity|]. intros i j Hi Hj. cbn in Hi, Hj.
    destruct i as [|[|i]]; [| |lia]; (destruct j as [|[|j]]; [| |lia]).
    all: split.
    all: cbn -[Cx.exp]; rewrite ?Cexp_j;
      unfold Cx.re, Cx.im, Cx.mul, Cx.neg, Cx.of_R, Cx.j, Cx.zero;
      cbn [fst snd].
    all: (eapply derive_val; [derive_pt|]); cbn beta.
    all: rewrite ?cos_plus, ?sin_plus; ring.
  - split; [reflexivity|]. intros i j Hi Hj. cbn in Hi, Hj.
    destruct i as [|[|i]]; [| |lia]; (destruct j as [|[|j]]; [| |lia]).
    all: split.
    all: cbn -[Cx.exp]; rewrite ?Cexp_j;
      unfold Cx.re, Cx.im, Cx.mul, Cx.neg, Cx.of_R, Cx.j, Cx.zero;
      cbn [fst snd].
    all: (eapply derive_val; [derive_pt|]); cbn beta.
    all: rewrite ?cos_plus, ?sin_plus; ring.
Qed.

(** ** [StateVector] construction *)

Section StateVector_init.
Local Open Scope R_scope.
Import StateVector.

Lemma not_close_to_one (s : R) :
  Rabs (s - 1) > default_tol → allclose s 1 0 default_tol = false.
Proof.
  intros Hs. unfold allclose. apply bool_decide_eq_false. lra.
Qed.

Lemma is_pure_state_non_unit (is_vector : list C → bool) (v : list C) :
  Rabs (sum_square_abs v - 1) > default_tol →
  is_pure_state is_vector (OfArray v) default_tol = false.
Proof.
  intros Hs. unfold is_pure_state.
  destruct (is_vector v); simpl; [|reflexivity].
  by rewrite not_close_to_one.
Qed.

Lemma sum_square_abs_two : sum_square_abs [(2, 0)] = 4.
Proof.
  unfold sum_square_abs, Cx.abs, Cx.re, Cx.im. simpl.
  rewrite Rplus_0_r, sqrt_sqrt; lra.
Qed.

Lemma default_tol_small : default_tol < 1.
Proof.
  unfold default_tol.
  apply (Rmult_lt_reg_r (10 ^ 8)); [apply pow_lt; lra|].
  unfold Rdiv. rewrite Rmult_assoc, Rinv_l by (apply pow_nonzero; lra).
  simpl. lra.
Qed.

Lemma two_not_unit : Rabs (sum_square_abs [(2, 0)] - 1) > default_tol.
Proof.
  rewrite sum_square_abs_two. replace (4 - 1) with 3 by lra.
  rewrite Rabs_pos_eq by lra. pose proof default_tol_small. lra.
Qed.

End StateVector_init.

(** C6, as stated, fails: the one-entry vector [[2]] has squared
    magnitude 4, and its construction does not raise a [ValueError]. *)
Lemma StateVector_non_unit_norm_not_ValueError :
  ¬ (∀ (is_vector : list C → bool) (is_valid_radixes : list nat → bool)
       (v : list C) (rs : list nat),
       (Rabs (StateVector.sum_square_abs v - 1)
        > StateVector.default_tol)%R →
       StateVector.init is_vector is_valid_radixes
         (StateVector.OfArray v) rs = Raise ValueError).
Proof.
  intros Hclaim.
  specialize (Hclaim (λ _, true) (λ _, true) [(2%R, 0%R)] [] two_not_unit).
  unfold StateVector.init in Hclaim.
  rewrite is_pure_state_non_unit in Hclaim by apply two_not_unit.
  discriminate Hclaim.
Qed.

(** C6, amended. Constructing a [StateVector] from a vector whose
    squared-magnitude sum differs from 1 by more than the tolerance fails
    with a [TypeError], the error the constructor also raises for an
    input that is not a vector. *)
Theorem StateVector_non_unit_norm_raises_TypeError
    (is_vector : list C → bool) (is_valid_radixes : list nat → bool)
    (v : list C) (rs : list nat) :
  (Rabs (StateVector.sum_square_abs v - 1) > StateVector.default_tol)%R →
  StateVector.init is_vector is_valid_radixes (StateVector.OfArray v) rs
  = Raise TypeError
  ∧ ∀ (w : list C) (rs' : list nat),
      is_vector w = false →
      StateVector.init is_vector is_valid_radixes (StateVector.OfArray w) rs'
      = Raise TypeError.
Proof.
  intros Hs. split.
  - unfold StateVector.init. by rewrite is_pure_state_non_unit.
  - intros w rs' Hw. unfold StateVector.init, StateVector.is_pure_state.
    by rewrite Hw.
Qed.

Lemma StateVector_non_unit_norm_raises_TypeError_witness :
  StateVector.init (λ _, true) (λ _, true)
    (StateVector.OfArray [(2%R, 0%R)]) [] = Raise TypeError.
Proof.
  exact (proj1 (StateVector_non_unit_norm_raises_TypeError
                  (λ _, true) (λ _, true) [(2%R, 0%R)] [] two_not_unit)).
Defined.

(** ** [Singleton] *)

Lemma singleton_log_message_raises (name : string) :
  Singleton.str_mod "Creating singleton instance for class: " name
  = Raise TypeError.
Proof. reflexivity. Qed.

Lemma singleton_initial_unbound (cls : Singleton.class) :
  Singleton.get_instance Singleton.initial cls = None.
Proof.
  induction cls as [|n p IH]; [reflexivity|].
  cbn [Singleton.get_instance].
  replace (Singleton.own_instance Singleton.initial
             !! Singleton.qualname (Singleton.Sub n p))
    with (@None (option Singleton.object)); [exact IH|].
  symmetry. apply lookup_singleton_ne. destruct p; discriminate.
Qed.

(** C9. Whenever [cls._instance] is [None], i.e. at every first
    instantiation of [Singleton] or of a subclass, [__new__] raises
    [TypeError] while formatting the log message and leaves the class
    attributes as they were; so, starting from the state after import, no
    sequence of instantiations ever yields an object or caches one. *)
Theorem singleton_first_instantiation_raises :
  (∀ (cls : Singleton.class) (st : Singleton.store),
     Singleton.get_instance st cls = None →
     Singleton.__new__ cls st = (Raise TypeError, st))
  ∧ (∀ clss : list Singleton.class,
       Singleton.instantiate_all clss Singleton.initial
       = (replicate (length clss) (Raise TypeError), Singleton.initial)).
Proof.
  assert (Hfirst : ∀ cls st,
            Singleton.get_instance st cls = None →
            Singleton.__new__ cls st = (Raise TypeError, st)).
  { intros cls st Hnone. unfold Singleton.__new__.
    by rewrite Hnone, singleton_log_message_raises. }
  split; [exact Hfirst|].
  induction clss as [|cls clss IH]; [reflexivity|].
  cbn [Singleton.instantiate_all].
  rewrite (Hfirst cls _ (singleton_initial_unbound cls)), IH. reflexivity.
Qed.

Lemma singleton_first_instantiation_raises_witness :
  Singleton.__new__ (Singleton.Sub "Logger" Singleton.Base) Singleton.initial
  = (Raise TypeError, Singleton.initial).
Proof.
  apply (proj1 singleton_first_instantiation_raises).
  vm_compute. reflexivity.
Defined.

(** ** Insertion-ordered dictionaries *)

Lemma dict_get_present {V} (d : list (nat * V)) (k : nat) :
  k ∈ d.*1 → ∃ v, Py.dict_get d k = Ok v.
Proof.
  induction d as [|[k' v'] d IH]; intros Hk; [by apply elem_of_nil in Hk|].
  simpl. destruct (decide (k = k')); [eauto|].
  apply IH. apply elem_of_cons in Hk as [?|?]; done.
Qed.

Lemma dict_set_keys {V} (d : list (nat * V)) (k : nat) (v : V) :
  k ∈ d.*1 → (Py.dict_set d k v).*1 = d.*1.
Proof.
  induction d as [|[k' v'] d IH]; intros Hk; [by apply elem_of_nil in Hk|].
  simpl. destruct (decide (k = k')) as [->|Hne]; [reflexivity|].
  simpl. f_equal. apply IH. apply elem_of_cons in Hk as [?|?]; done.
Qed.

Lemma dict_get_set_eq {V} (d : list (nat * V)) (k : nat) (v : V) :
  Py.dict_get (Py.dict_set d k v) k = Ok v.
Proof.
  induction d as [|[k' v'] d IH]; simpl.
  - by rewrite decide_True.
  - destruct (decide (k = k')) as [->|Hne]; simpl.
    + by rewrite decide_True.
    + by rewrite decide_False.
Qed.

Lemma dict_get_set_ne {V} (d : list (nat * V)) (k k' : nat) (v : V) :
  k ≠ k' → Py.dict_get (Py.dict_set d k v) k' = Py.dict_get d k'.
Proof.
  intros Hne. induction d as [|[k0 v0] d IH]; simpl.
  - by rewrite decide_False.
  - destruct (decide (k = k0)) as [->|Hne0]; simpl.
    + by rewrite !decide_False.
    + destruct (decide (k' = k0)); [reflexivity | exact IH].
Qed.

Lemma dict_get_position {V} (d : list (nat * V)) (n p : nat) :
  d.*1 = seq 0 n → p < n →
  ∃ v, d !! p = Some (p, v) ∧ Py.dict_get d p = Ok v.
Proof.
  assert (Hgen : ∀ a, d.*1 = seq a n → p < n →
            ∃ v, d !! p = Some (a + p, v) ∧ Py.dict_get d (a + p) = Ok v).
  { revert p d. induction n as [|n IH]; intros p d a Hkeys Hp; [lia|].
    destruct d as [|[k v] d]; [discriminate|].
    simpl in Hkeys. injection Hkeys as -> Hkeys.
    destruct p as [|p].
    - exists v. rewrite Nat.add_0_r. simpl. by rewrite decide_True.
    - destruct (IH p d (S a) Hkeys) as (v' & Hv' & Hget); [lia|].
      exists v'. replace (a + S p) with (S a + p) by lia.
      split; [exact Hv'|]. simpl. rewrite decide_False by lia. exact Hget. }
  intros Hkeys Hp. exact (Hgen 0 Hkeys Hp).
Qed.

(** ** The radix loop of [VariableLocationGate.__init__] *)

Lemma for_each_concat {A S} (body : S → A → result S) (xss : list (list A))
    (s : S) :
  for_each (λ s xs, for_each body xs s) xss s = for_each body (concat xss) s.
Proof.
  revert s. induction xss as [|xs xss IH]; intros s; [reflexivity|].
  simpl. rewrite for_each_app.
  destruct (for_each body xs s); [apply IH | reflexivity].
Qed.

Lemma assign_radix_loop (assigns : list (nat * nat))
    (rm : list (nat * option nat)) :
  (∀ r q, (r, q) ∈ assigns → q ∈ rm.*1) →
  match for_each VariableLocationGate.assign_radix assigns rm with
  | Ok rm' =>
      rm'.*1 = rm.*1
      ∧ (∀ r q, (r, q) ∈ assigns → Py.dict_get rm' q = Ok (Some r))
      ∧ (∀ q, (∀ r, (r, q) ∉ assigns) → Py.dict_get rm' q = Py.dict_get rm q)
      ∧ (∀ q r, Py.dict_get rm q = Ok (Some r) →
                Py.dict_get rm' q = Ok (Some r))
  | Raise e => e = ValueError
  end.
Proof.
  revert rm. induction assigns as [|[r q] assigns IH]; intros rm Hkeys.
  - simpl. split; [done|]. split; [|done].
    intros r q Hin. by apply elem_of_nil in Hin.
  - simpl. unfold VariableLocationGate.assign_radix at 1.
    destruct (dict_get_present rm q) as [cur Hcur]; [apply (Hkeys r); left|].
    rewrite Hcur. simpl.
    assert (Hstep : ∀ rm1,
      rm1.*1 = rm.*1 →
      Py.dict_get rm1 q = Ok (Some r) →
      (∀ q', q' ≠ q → Py.dict_get rm1 q' = Py.dict_get rm q') →
      (∀ q' r', Py.dict_get rm q' = Ok (Some r') →
                Py.dict_get rm1 q' = Ok (Some r')) →
      match for_each VariableLocationGate.assign_radix assigns rm1 with
      | Ok rm' =>
          rm'.*1 = rm.*1
          ∧ (∀ r0 q0, (r0, q0) ∈ (r, q) :: assigns →
                      Py.dict_get rm' q0 = Ok (Some r0))
          ∧ (∀ q0, (∀ r0, (r0, q0) ∉ (r, q) :: assigns) →
                   Py.dict_get rm' q0 = Py.dict_get rm q0)
          ∧ (∀ q0 r0, Py.dict_get rm q0 = Ok (Some r0) →
                      Py.dict_get rm' q0 = Ok (Some r0))
      | Raise e => e = ValueError
      end).
    { intros rm1 Hk1 Hq Hother Hkeep.
      specialize (IH rm1).
      destruct (for_each _ assigns rm1) as [rm'|e]; [|apply IH].
      2:{ intros r0 q0 Hin. rewrite Hk1. apply (Hkeys r0). by right. }
      destruct IH as (Hk' & Hset & Hrest & Hpres).
      { intros r0 q0 Hin. rewrite Hk1. apply (Hkeys r0). by right. }
      split; [congruence|]. split; [|split].
      - intros r0 q0 Hin. apply elem_of_cons in Hin as [[= -> ->]|Hin].
        + by apply Hpres.
        + by apply Hset.
      - intros q0 Hnone. rewrite Hrest.
        + apply Hother. intros ->. apply (Hnone r). left.
        + intros r0 Hin. apply (Hnone r0). by right.
      - intros q0 r0 Hget. by apply Hpres, Hkeep. }
    destruct cur as [r0|].
    + destruct (Nat.eqb_spec r0 r) as [->|Hne]; simpl; [|reflexivity].
      by apply Hstep.
    + apply Hstep.
      * apply dict_set_keys. apply (Hkeys r). left.
      * apply dict_get_set_eq.
      * intros q' Hne. by apply dict_get_set_ne.
      * intros q' r' Hget. destruct (decide (q' = q)) as [->|Hne].
        -- rewrite Hcur in Hget. discriminate.
        -- by rewrite dict_get_set_ne.
Qed.

Lemma default_fold_get (items rm : list (nat * option nat)) (k : nat) :
  Py.dict_get
    (foldl (λ rm (item : nat * option nat),
              match item.2 with
              | None => Py.dict_set rm item.1 (Some 2)
              | Some _ => rm
              end) rm items) k
  = if decide ((k, None) ∈ items) then Ok (Some 2) else Py.dict_get rm k.
Proof.
  revert rm.
  induction items as [|[k0 [r|]] items IH]; intros rm; cbn [foldl fst snd].
  - destruct (decide ((k, None) ∈ [])) as [Hin|_]; [|reflexivity].
    by apply elem_of_nil in Hin.
  - rewrite IH.
    destruct (decide ((k, None) ∈ items)) as [Hin|Hnin];
      destruct (decide ((k, None) ∈ (k0, Some r) :: items)) as [Hin'|Hnin'];
      try reflexivity.
    + exfalso. apply Hnin'. by right.
    + exfalso. apply elem_of_cons in Hin' as [[=]|?]; done.
  - rewrite IH.
    destruct (decide ((k, None) ∈ items)) as [Hin|Hnin];
      destruct (decide ((k, None) ∈ (k0, None) :: items)) as [Hin'|Hnin'];
      try reflexivity.
    + exfalso. apply Hnin'. by right.
    + apply elem_of_cons in Hin' as [[= ->]|?]; [|done].
      apply dict_get_set_eq.
    + apply dict_get_set_ne. intros ->. apply Hnin'. left.
Qed.

Lemma default_fold_keys (items rm : list (nat * option nat)) :
  (∀ item, item ∈ items → item.1 ∈ rm.*1) →
  (foldl (λ rm (item : nat * option nat),
            match item.2 with
            | None => Py.dict_set rm item.1 (Some 2)
            | Some _ => rm
            end) rm items).*1 = rm.*1.
Proof.
  revert rm. induction items as [|[k0 [r|]] items IH]; intros rm Hk; simpl.
  - reflexivity.
  - apply IH. intros item Hin. apply Hk. by right.
  - rewrite IH.
    + apply dict_set_keys. apply (Hk (k0, None)). left.
    + intros item Hin. rewrite dict_set_keys by (apply (Hk (k0, None)); left).
      apply Hk. by right.
Qed.

Lemma dict_get_elem {V} (d : list (nat * V)) (k : nat) (v : V) :
  NoDup d.*1 → (k, v) ∈ d → Py.dict_get d k = Ok v.
Proof.
  induction d as [|[k' v'] d IH]; intros Hnd Hin; [by apply elem_of_nil in Hin|].
  simpl in Hnd. apply NoDup_cons in Hnd as [Hk' Hnd].
  simpl. apply elem_of_cons in Hin as [[= -> ->]|Hin].
  - by rewrite decide_True.
  - rewrite decide_False; [by apply IH|].
    intros ->. apply Hk'. apply list_elem_of_fmap. by exists (k', v).
Qed.

Lemma dict_get_Ok_elem {V} (d : list (nat * V)) (k : nat) (v : V) :
  Py.dict_get d k = Ok v → (k, v) ∈ d.
Proof.
  induction d as [|[k' v'] d IH]; [discriminate|]. simpl.
  destruct (decide (k = k')) as [->|Hne].
  - intros [= ->]. left.
  - intros H. right. by apply IH.
Qed.

(** After the defaulting loop every qudit that was still unset carries
    radix 2 and every other qudit keeps its radix. *)
Lemma default_radixes_get (rm : list (nat * option nat)) (k : nat) :
  NoDup rm.*1 →
  Py.dict_get (VariableLocationGate.default_radixes rm) k
  = match Py.dict_get rm k with
    | Ok None => Ok (Some 2)
    | other => other
    end.
Proof.
  intros Hnd. unfold VariableLocationGate.default_radixes.
  destruct (existsb _ _) eqn:Hex.
  - rewrite default_fold_get.
    destruct (decide ((k, None) ∈ rm)) as [Hin|Hnin].
    + by rewrite (dict_get_elem rm k None Hnd Hin).
    + destruct (Py.dict_get rm k) as [[r|]|e] eqn:Hget; try reflexivity.
      exfalso. apply Hnin. by apply dict_get_Ok_elem.
  - destruct (Py.dict_get rm k) as [[r|]|e] eqn:Hget; try reflexivity.
    exfalso. apply not_true_iff_false in Hex. apply Hex.
    apply existsb_exists. exists None. split; [|by apply bool_decide_eq_true].
    apply list_elem_of_In. unfold Py.dict_values.
    apply list_elem_of_fmap. exists (k, None). split; [done|].
    by apply dict_get_Ok_elem.
Qed.

Lemma default_radixes_keys (rm : list (nat * option nat)) :
  (VariableLocationGate.default_radixes rm).*1 = rm.*1.
Proof.
  unfold VariableLocationGate.default_radixes.
  destruct (existsb _ _); [|reflexivity].
  apply default_fold_keys. intros item Hin.
  apply list_elem_of_fmap. by exists item.
Qed.

(** ** [max] *)

Lemma foldl_max_bound (x0 : nat) (xs : list nat) :
  x0 ≤ foldl Nat.max x0 xs ∧ ∀ x, x ∈ xs → x ≤ foldl Nat.max x0 xs.
Proof.
  revert x0. induction xs as [|y xs IH]; intros x0; simpl.
  - split; [lia|]. intros x Hx. by apply elem_of_nil in Hx.
  - destruct (IH (Nat.max x0 y)) as [H0 Hxs]. split; [lia|].
    intros x Hx. apply elem_of_cons in Hx as [->|Hx]; [lia | by apply Hxs].
Qed.

Lemma py_max_bound (xs : list nat) (m x : nat) :
  Py.max xs = Ok m → x ∈ xs → x ≤ m.
Proof.
  destruct xs as [|x0 xs]; [discriminate|]. intros [= <-] Hx.
  destruct (foldl_max_bound x0 xs) as [H0 Hxs].
  apply elem_of_cons in Hx as [->|Hx]; [exact H0 | by apply Hxs].
Qed.

Lemma py_max_Raise (xs : list nat) (e : exn) :
  Py.max xs = Raise e → e = ValueError.
Proof. destruct xs; [by intros [= <-] | discriminate]. Qed.

Lemma mapM_Raise {A B} (f : A → result B) (xs : list A) (e : exn) :
  mapM f xs = Raise e → ∃ x, x ∈ xs ∧ f x = Raise e.
Proof.
  induction xs as [|x xs IH]; [discriminate|]. simpl.
  destruct (f x) as [y|e'] eqn:Hfx; simpl.
  - destruct (mapM f xs) as [ys|e'']; simpl; [discriminate|].
    intros [= ->]. destruct (IH eq_refl) as (x' & Hin & Hx').
    exists x'. split; [by right | exact Hx'].
  - intros [= ->]. exists x. split; [left | exact Hfx].
Qed.

(** ** [VariableLocationGate]: construction *)

Lemma for_each_map {A B S} (body : S → B → result S) (f : A → B)
    (xs : list A) (s : S) :
  for_each (λ s x, body s (f x)) xs s = for_each body (map f xs) s.
Proof.
  revert s. induction xs as [|x xs IH]; intros s; [reflexivity|].
  simpl. destruct (body s (f x)); [apply IH | reflexivity].
Qed.

Lemma radix_loop_flat (g : Gate) (locs : list (list nat))
    (rm : list (nat * option nat)) :
  for_each
    (λ rm l, for_each VariableLocationGate.assign_radix
               (zip (gate_radixes g) l) rm) locs rm
  = for_each VariableLocationGate.assign_radix (radix_assignments g locs) rm.
Proof.
  unfold radix_assignments. rewrite <- for_each_concat.
  by rewrite <- (for_each_map
    (λ rm xs, for_each VariableLocationGate.assign_radix xs rm)).
Qed.

Lemma elem_of_concat {A} (x : A) (ls : list (list A)) :
  x ∈ concat ls ↔ ∃ l, x ∈ l ∧ l ∈ ls.
Proof.
  rewrite list_elem_of_In, in_concat. split.
  - intros (l & Hl & Hx). exists l. by rewrite !list_elem_of_In.
  - intros (l & Hx & Hl). exists l. by rewrite <- !list_elem_of_In.
Qed.

Lemma radix_assignments_elem (g : Gate) (locs : list (list nat)) (r q : nat) :
  (r, q) ∈ radix_assignments g locs
  ↔ ∃ l j, l ∈ locs ∧ gate_radixes g !! j = Some r ∧ l !! j = Some q.
Proof.
  unfold radix_assignments. rewrite elem_of_concat. split.
  - intros (zs & Hin & Hzs). apply list_elem_of_fmap in Hzs as (l & -> & Hl).
    apply list_elem_of_lookup in Hin as [j Hj].
    apply lookup_zip_with_Some in Hj as (r' & q' & [= <- <-] & Hr & Hq).
    by exists l, j.
  - intros (l & j & Hl & Hr & Hq). exists (zip (gate_radixes g) l). split.
    + apply list_elem_of_lookup. exists j.
      apply lookup_zip_with_Some. by exists r, q.
    + apply list_elem_of_fmap. by exists l.
Qed.

Lemma initial_radix_map_keys (n : nat) :
  (map (λ i, (i, @None nat)) (seq 0 n)).*1 = seq 0 n.
Proof.
  induction (seq 0 n) as [|x xs IH]; [reflexivity|]. simpl. by f_equal.
Qed.

Lemma initial_radix_map_get (n k : nat) :
  k < n → Py.dict_get (map (λ i, (i, @None nat)) (seq 0 n)) k = Ok None.
Proof.
  intros Hk. apply dict_get_elem.
  - rewrite initial_radix_map_keys. apply NoDup_seq.
  - apply list_elem_of_fmap. exists k. split; [done|].
    apply elem_of_seq. lia.
Qed.

(** Every qudit a candidate mentions is a key of the radix map. *)
Lemma locations_below_top (locs : list (list nat)) (maxes : list nat)
    (top : nat) (l : list nat) (q : nat) :
  mapM Py.max locs = Ok maxes → Py.max maxes = Ok top →
  l ∈ locs → q ∈ l → q < top + 1.
Proof.
  intros Hmaxes Htop Hl Hq. apply mapM_Ok_Forall2 in Hmaxes.
  apply list_elem_of_lookup in Hl as [i Hi].
  destruct (Forall2_lookup_l _ _ _ _ _ Hmaxes Hi) as (m & Hm & Hmax).
  pose proof (py_max_bound _ _ _ Hmax Hq).
  pose proof (py_max_bound _ _ _ Htop (list_elem_of_lookup_2 _ _ _ Hm)). lia.
Qed.

Lemma assignments_are_keys (g : Gate) (locs : list (list nat))
    (maxes : list nat) (top : nat) :
  mapM Py.max locs = Ok maxes → Py.max maxes = Ok top →
  ∀ r q, (r, q) ∈ radix_assignments g locs →
         q ∈ (map (λ i, (i, @None nat)) (seq 0 (top + 1))).*1.
Proof.
  intros Hmaxes Htop r q Hin.
  apply radix_assignments_elem in Hin as (l & j & Hl & _ & Hq).
  rewrite initial_radix_map_keys. apply elem_of_seq.
  pose proof (locations_below_top _ _ _ l q Hmaxes Htop Hl
                (list_elem_of_lookup_2 _ _ _ Hq)). lia.
Qed.

Section VLG_init.
Variable is_valid_location : list nat → bool.
Import VariableLocationGate.

Lemma vlg_init_Ok (g : Gate) (locs : list (list nat)) (self : t) :
  init is_valid_location g locs = Ok self →
  forallb is_valid_location locs = true
  ∧ Forall (λ l, length l = gate_size g) locs
  ∧ locs ≠ []
  ∧ ∃ maxes top rm,
      mapM Py.max locs = Ok maxes
      ∧ Py.max maxes = Ok top
      ∧ for_each assign_radix (radix_assignments g locs)
          (map (λ i, (i, None)) (seq 0 (top + 1))) = Ok rm
      ∧ Forall2 (λ v r, v = Some r)
          (Py.dict_values (default_radixes rm)) (radixes self)
      ∧ gate_size g ≤ top + 1
      ∧ gate self = g
      ∧ size self = top + 1
      ∧ locations self = locs
      ∧ num_params self = gate_num_params g + length locs
      ∧ I self = Np.identity (2 ^ (top + 1 - gate_size g))
      ∧ perms self
        = map (PermutationMatrix.from_qubit_location (top + 1)) locs.
Proof.
  unfold init.
  destruct (forallb is_valid_location locs) eqn:Hvalid; cbn [negb];
    [|discriminate].
  destruct (forallb (λ l, length l =? gate_size g) locs) eqn:Hlen;
    cbn [negb]; [|discriminate].
  destruct (Nat.ltb_spec (length locs) 1) as [|Hne]; [discriminate|].
  destruct (mapM Py.max locs) as [maxes|] eqn:Hmaxes; [|discriminate].
  rewrite bind_Ok.
  destruct (Py.max maxes) as [top|] eqn:Htop; [|discriminate].
  rewrite bind_Ok, radix_loop_flat.
  destruct (for_each assign_radix _ _) as [rm|] eqn:Hloop; [|discriminate].
  rewrite bind_Ok.
  destruct (mapM _ (Py.dict_values (default_radixes rm))) as [rs|] eqn:Hrs;
    [|discriminate].
  rewrite bind_Ok.
  destruct (Z.ltb_spec (Z.of_nat (top + 1) - Z.of_nat (gate_size g)) 0)
    as [|Hext]; [discriminate|].
  intros [= <-]. cbn [gate size locations radixes num_params I perms].
  split; [reflexivity|]. split.
  { apply Forall_forall. intros l Hl. rewrite forallb_forall in Hlen.
    apply Nat.eqb_eq, Hlen. by apply list_elem_of_In. }
  split; [destruct locs; [simpl in Hne; lia | discriminate]|].
  exists maxes, top, rm.
  split; [reflexivity|]. split; [exact Htop|]. split; [exact Hloop|].
  split.
  { apply mapM_Ok_Forall2 in Hrs. eapply Forall2_impl; [exact Hrs|].
    intros [r|] r'; [by intros [= ->] | discriminate]. }
  split; [lia|].
  split; [reflexivity|]. split; [reflexivity|]. split; [reflexivity|].
  split; [reflexivity|]. split; [|reflexivity].
  do 2 f_equal. lia.
Qed.

End VLG_init.

(** C5. Constructing a [VariableLocationGate] fails when the candidate
    list is empty and when some candidate's length differs from the
    subgate's size; for well-typed candidates it fails with [ValueError]
    when two candidates give one register position two different radixes;
    and when it succeeds, [num_params] is the subgate's parameter count
    plus the number of candidates, there is one radix per register
    position, and every position that no candidate mentions has
    radix 2. *)
Theorem vlg_init_contract
    (is_valid_location : list nat → bool) (g : Gate)
    (locs : list (list nat)) :
  (locs = [] →
   VariableLocationGate.init is_valid_location g locs = Raise ValueError)
  ∧ ((∃ l, l ∈ locs ∧ length l ≠ gate_size g) →
     ∃ e, VariableLocationGate.init is_valid_location g locs = Raise e
          ∧ (forallb is_valid_location locs = true → e = ValueError))
  ∧ (forallb is_valid_location locs = true →
     (∃ l1 l2 j1 j2 q r1 r2,
        l1 ∈ locs ∧ l2 ∈ locs
        ∧ gate_radixes g !! j1 = Some r1 ∧ l1 !! j1 = Some q
        ∧ gate_radixes g !! j2 = Some r2 ∧ l2 !! j2 = Some q
        ∧ r1 ≠ r2) →
     VariableLocationGate.init is_valid_location g locs = Raise ValueError)
  ∧ (∀ self,
       VariableLocationGate.init is_valid_location g locs = Ok self →
       VariableLocationGate.num_params self
       = gate_num_params g + length locs
       ∧ length (VariableLocationGate.radixes self)
         = VariableLocationGate.size self
       ∧ ∀ p, p < VariableLocationGate.size self →
              (∀ l, l ∈ locs → p ∉ l) →
              VariableLocationGate.radixes self !! p = Some 2).
Proof.
  split; [|split; [|split]].
  - intros ->. reflexivity.
  - intros (l & Hl & Hlen). unfold VariableLocationGate.init.
    destruct (forallb is_valid_location locs); cbn [negb].
    2:{ exists TypeError. split; [reflexivity | discriminate]. }
    destruct (forallb (λ l, length l =? gate_size g) locs) eqn:Hall;
      cbn [negb].
    + exfalso. rewrite forallb_forall in Hall.
      specialize (Hall l (proj1 (list_elem_of_In _ _) Hl)).
      by apply Nat.eqb_eq in Hall.
    + exists ValueError. split; reflexivity.
  - intros Hvalid (l1 & l2 & j1 & j2 & q & r1 & r2
                   & Hl1 & Hl2 & Hr1 & Hq1 & Hr2 & Hq2 & Hne).
    unfold VariableLocationGate.init. rewrite Hvalid. cbn [negb].
    destruct (forallb (λ l, length l =? gate_size g) locs); cbn [negb];
      [|reflexivity].
    destruct (length locs <? 1); [reflexivity|].
    destruct (mapM Py.max locs) as [maxes|e] eqn:Hmaxes.
    2:{ apply mapM_Raise in Hmaxes as (l & _ & Hmax).
        apply py_max_Raise in Hmax as ->. reflexivity. }
    rewrite bind_Ok.
    destruct (Py.max maxes) as [top|e] eqn:Htop.
    2:{ apply py_max_Raise in Htop as ->. reflexivity. }
    rewrite bind_Ok, radix_loop_flat.
    pose proof (assign_radix_loop (radix_assignments g locs) _
                  (assignments_are_keys g locs maxes top Hmaxes Htop))
      as Hloop.
    destruct (for_each VariableLocationGate.assign_radix _ _) as [rm|e].
    + exfalso. destruct Hloop as (_ & Hset & _).
      assert (H1 : (r1, q) ∈ radix_assignments g locs).
      { apply radix_assignments_elem. by exists l1, j1. }
      assert (H2 : (r2, q) ∈ radix_assignments g locs).
      { apply radix_assignments_elem. by exists l2, j2. }
      apply Hset in H1, H2. congruence.
    + by subst e.
  - intros self Hinit.
    destruct (vlg_init_Ok _ _ _ _ Hinit)
      as (_ & _ & _ & maxes & top & rm & Hmaxes & Htop & Hrun & Hrs
          & _ & _ & Hsize & _ & Hnum & _).
    split; [exact Hnum|].
    pose proof (assign_radix_loop (radix_assignments g locs) _
                  (assignments_are_keys g locs maxes top Hmaxes Htop))
      as Hloop.
    rewrite Hrun in Hloop. destruct Hloop as (Hkeys & _ & Hrest & _).
    rewrite initial_radix_map_keys in Hkeys.
    assert (Hdkeys : (VariableLocationGate.default_radixes rm).*1
                     = seq 0 (top + 1)).
    { rewrite default_radixes_keys. exact Hkeys. }
    split.
    { rewrite <- (Forall2_length _ _ _ Hrs). unfold Py.dict_values.
      rewrite length_fmap, <- (length_fmap fst), Hdkeys, length_seq.
      by rewrite Hsize. }
    intros p Hp Hfree. rewrite Hsize in Hp.
    assert (Hget : Py.dict_get rm p = Ok None).
    { rewrite Hrest; [by apply initial_radix_map_get|].
      intros r Hin. apply radix_assignments_elem in Hin
        as (l & j & Hl & _ & Hq).
      apply (Hfree l Hl). by eapply list_elem_of_lookup_2. }
    pose proof (default_radixes_get rm p) as Hdef.
    rewrite Hget in Hdef.
    destruct (dict_get_position _ _ p Hdkeys Hp) as (v & Hpos & Hv).
    rewrite Hdef in Hv by (rewrite Hkeys; apply NoDup_seq).
    injection Hv as <-.
    assert (Hval : Py.dict_values (VariableLocationGate.default_radixes rm)
                     !! p = Some (Some 2)).
    { unfold Py.dict_values. by rewrite list_lookup_fmap, Hpos. }
    destruct (Forall2_lookup_l _ _ _ _ _ Hrs Hval) as (r & Hr & Heq).
    by injection Heq as <-.
Qed.

Lemma vlg_init_contract_witness :
  VariableLocationGate.init (λ _, true) U2Gate.as_gate [] = Raise ValueError
  ∧ (∃ e, VariableLocationGate.init (λ _, true) U2Gate.as_gate [[0; 1]]
          = Raise e)
  ∧ VariableLocationGate.init (λ _, true) qubit_qutrit_gate [[0; 1]; [1; 0]]
    = Raise ValueError
  ∧ (∃ self,
       VariableLocationGate.init (λ _, true) U2Gate.as_gate [[1]] = Ok self
       ∧ VariableLocationGate.num_params self = 3
       ∧ VariableLocationGate.radixes self !! 0 = Some 2).
Proof.
  split; [|split; [|split]].
  - exact (proj1 (vlg_init_contract (λ _, true) U2Gate.as_gate []) eq_refl).
  - destruct (proj1 (proj2 (vlg_init_contract
                              (λ _, true) U2Gate.as_gate [[0; 1]])))
      as (e & He & _).
    + exists [0; 1]. split; [left | vm_compute; lia].
    + by exists e.
  - apply (proj1 (proj2 (proj2 (vlg_init_contract
                                  (λ _, true) qubit_qutrit_gate
                                  [[0; 1]; [1; 0]])))); [reflexivity|].
    exists [0; 1], [1; 0], 0, 1, 0, 2, 3.
    split; [left|]. split; [right; left|].
    split; [reflexivity|]. split; [reflexivity|].
    split; [reflexivity|]. split; [reflexivity|]. lia.
  - eexists. split; [reflexivity|].
    match goal with |- VariableLocationGate.num_params ?s = _ ∧ _ =>
      destruct (proj2 (proj2 (proj2 (vlg_init_contract
                                       (λ _, true) U2Gate.as_gate [[1]])))
                  s eq_refl) as (Hnum & _ & Hrad)
    end.
    split; [exact Hnum|]. apply Hrad.
    + vm_compute. lia.
    + intros l Hl Hin. apply list_elem_of_singleton in Hl as ->.
      apply list_elem_of_singleton in Hin. discriminate.
Defined.

(** ** [np.argmax] and [softmax] *)

Section argmax.
Local Open Scope R_scope.

(** [np.argmax] returns the first position that holds the maximum. *)
Lemma argmax_from_spec (xs : list R) (best : R) (besti i : nat) :
  let r := Np.argmax_from best besti i xs in
  (r = besti ∧ ∀ x, x ∈ xs → x <= best)
  ∨ (∃ k m, r = (i + k)%nat ∧ xs !! k = Some m ∧ best < m
            ∧ (∀ j x, xs !! j = Some x → x <= m)
            ∧ (∀ j x, (j < k)%nat → xs !! j = Some x → x < m)).
Proof.
  revert best besti i. induction xs as [|x xs IH]; intros best besti i.
  - left. split; [reflexivity|]. intros x Hx. by apply elem_of_nil in Hx.
  - cbn [Np.argmax_from]. destruct (Rlt_dec best x) as [Hlt|Hge].
    + right. destruct (IH x i (S i)) as [[Hr Hall]|(k & m & Hr & Hk & Hm & Hmax & Hfirst)].
      * exists 0%nat, x. rewrite Hr, Nat.add_0_r.
        split; [reflexivity|]. split; [reflexivity|]. split; [exact Hlt|].
        split.
        -- intros [|j] y Hy; simpl in Hy.
           ++ injection Hy as <-. lra.
           ++ apply Hall. by eapply list_elem_of_lookup_2.
        -- intros j y Hj. lia.
      * exists (S k), m. rewrite Hr.
        split; [lia|]. split; [exact Hk|]. split; [lra|]. split.
        -- intros [|j] y Hy; simpl in Hy.
           ++ injection Hy as <-. lra.
           ++ by eapply Hmax.
        -- intros [|j] y Hj Hy; simpl in Hy.
           ++ injection Hy as <-. exact Hm.
           ++ eapply Hfirst; [|exact Hy]. lia.
    + destruct (IH best besti (S i)) as [[Hr Hall]|(k & m & Hr & Hk & Hm & Hmax & Hfirst)].
      * left. split; [exact Hr|]. intros y Hy.
        apply elem_of_cons in Hy as [->|Hy]; [lra | by apply Hall].
      * right. exists (S k), m. rewrite Hr.
        split; [lia|]. split; [exact Hk|]. split; [exact Hm|]. split.
        -- intros [|j] y Hy; simpl in Hy.
           ++ injection Hy as <-. lra.
           ++ by eapply Hmax.
        -- intros [|j] y Hj Hy; simpl in Hy.
           ++ injection Hy as <-. lra.
           ++ eapply Hfirst; [|exact Hy]. lia.
Qed.

Lemma argmax_spec (xs : list R) (i : nat) :
  Np.argmax xs = Ok i →
  ∃ m, xs !! i = Some m
       ∧ (∀ j x, xs !! j = Some x → x <= m)
       ∧ (∀ j x, (j < i)%nat → xs !! j = Some x → x < m).
Proof.
  destruct xs as [|x0 xs]; [discriminate|]. intros [= <-].
  destruct (argmax_from_spec xs x0 0 1)
    as [[Hr Hall]|(k & m & Hr & Hk & Hm & Hmax & Hfirst)]; rewrite Hr.
  - exists x0. split; [reflexivity|]. split.
    + intros [|j] y Hy; simpl in Hy.
      * injection Hy as <-. lra.
      * apply Hall. by eapply list_elem_of_lookup_2.
    + intros j y Hj. lia.
  - exists m. split; [exact Hk|]. split.
    + intros [|j] y Hy; simpl in Hy.
      * injection Hy as <-. lra.
      * by eapply Hmax.
    + intros [|j] y Hj Hy; simpl in Hy.
      * injection Hy as <-. exact Hm.
      * eapply Hfirst; [|exact Hy]. lia.
Qed.

Lemma argmax_nonempty (xs : list R) :
  xs ≠ [] → ∃ i, Np.argmax xs = Ok i ∧ (i < length xs)%nat.
Proof.
  intros Hne. destruct xs as [|x0 xs]; [done|].
  eexists. split; [reflexivity|].
  destruct (argmax_spec (x0 :: xs) _ eq_refl) as (m & Hm & _).
  by eapply lookup_lt_Some.
Qed.

(** A strictly increasing map does not move the argmax. *)
Lemma argmax_from_map (f : R → R) (xs : list R) (best : R) (besti i : nat) :
  (∀ x y, x < y → f x < f y) →
  Np.argmax_from (f best) besti i (map f xs)
  = Np.argmax_from best besti i xs.
Proof.
  intros Hmono.
  assert (Hweak : ∀ x y, x <= y → f x <= f y).
  { intros x y [Hlt| ->]; [left; by apply Hmono | right; reflexivity]. }
  revert best besti i. induction xs as [|x xs IH]; intros best besti i;
    [reflexivity|].
  cbn [map Np.argmax_from].
  destruct (Rlt_dec best x) as [Hlt|Hge];
    destruct (Rlt_dec (f best) (f x)) as [Hlt'|Hge']; try apply IH.
  - exfalso. apply Hge'. by apply Hmono.
  - exfalso. assert (f x <= f best) by (apply Hweak; lra). lra.
Qed.

Lemma argmax_map (f : R → R) (xs : list R) :
  (∀ x y, x < y → f x < f y) →
  Np.argmax (map f xs) = Np.argmax xs.
Proof.
  intros Hmono. destruct xs as [|x xs]; [reflexivity|].
  cbn [map Np.argmax]. f_equal. by apply argmax_from_map.
Qed.

Lemma sum_exp_pos (es : list R) :
  es ≠ [] → Forall (λ e, 0 < e) es → 0 < foldr Rplus 0 es.
Proof.
  intros Hne Hpos. destruct Hpos as [|e es He Hes]; [done|].
  assert (0 <= foldr Rplus 0 es).
  { clear Hne. induction Hes as [|e' es He' _ IH]; simpl; lra. }
  simpl. lra.
Qed.

Lemma softmax_as_map (w : list R) (beta : R) :
  softmax w beta
  = map (λ x, exp (beta * x)
              / foldr Rplus 0 (map (λ xi, exp (beta * xi)) w)) w.
Proof. unfold softmax. by rewrite map_map. Qed.

Lemma softmax_length (w : list R) (beta : R) :
  length (softmax w beta) = length w.
Proof. unfold softmax. by rewrite !length_map. Qed.

(** The temperature-scaled softmax has the argmax of its input, for a
    positive temperature. *)
Lemma argmax_softmax (w : list R) (beta : R) :
  0 < beta → Np.argmax (softmax w beta) = Np.argmax w.
Proof.
  intros Hbeta. destruct (decide (w = [])) as [->|Hne]; [reflexivity|].
  rewrite softmax_as_map. apply argmax_map. intros x y Hxy.
  assert (HS : 0 < foldr Rplus 0 (map (λ xi, exp (beta * xi)) w)).
  { apply sum_exp_pos.
    - destruct w; [done | discriminate].
    - apply Forall_forall. intros e He.
      apply list_elem_of_fmap in He as (xi & -> & _). apply exp_pos. }
  apply Rmult_lt_compat_r; [by apply Rinv_0_lt_compat|].
  apply exp_increasing. by apply Rmult_lt_compat_l.
Qed.

End argmax.

(** ** [VariableLocationGate.get_location] *)

(** C7. For a constructed [VariableLocationGate] and a parameter vector of
    valid length, [get_location] returns the candidate at the argmax of the
    softmax (temperature 10) of the location-weight suffix: a candidate
    whose softmax weight no other weight exceeds. *)
Theorem get_location_largest_softmax_weight
    (is_valid_location : list nat → bool) (g : Gate)
    (locs : list (list nat)) (self : VariableLocationGate.t)
    (params : list R) :
  VariableLocationGate.init is_valid_location g locs = Ok self →
  length params = VariableLocationGate.num_params self →
  VariableLocationGate.get_location self params
  = location_of_largest_weight self params
  ∧ ∃ i loc wmax,
      VariableLocationGate.get_location self params = Ok loc
      ∧ VariableLocationGate.locations self !! i = Some loc
      ∧ softmax (VariableLocationGate.split_params self params).2 10 !! i
        = Some wmax
      ∧ ∀ j wj,
          softmax (VariableLocationGate.split_params self params).2 10 !! j
          = Some wj →
          (wj <= wmax)%R.
Proof.
  intros Hinit Hlen.
  destruct (vlg_init_Ok _ _ _ _ Hinit)
    as (_ & _ & Hne & maxes & top & rm & _ & _ & _ & _
        & _ & Hgate & _ & Hlocs & Hnum & _).
  assert (Hbeta : (0 < 10)%R) by lra.
  split.
  { unfold VariableLocationGate.get_location, location_of_largest_weight,
      VariableLocationGate.split_params. cbn [snd].
    by rewrite argmax_softmax. }
  set (w := (VariableLocationGate.split_params self params).2).
  assert (Hw : length w = length locs).
  { unfold w, VariableLocationGate.split_params. cbn [snd].
    rewrite length_drop, Hlen, Hnum, Hgate. lia. }
  assert (Hwne : softmax w 10 ≠ []).
  { intros Hnil. apply (f_equal length) in Hnil.
    rewrite softmax_length, Hw in Hnil. by destruct locs. }
  destruct (argmax_nonempty _ Hwne) as (i & Hi & Hilt).
  destruct (argmax_spec _ _ Hi) as (wmax & Hwmax & Hmax & _).
  rewrite softmax_length, Hw in Hilt.
  destruct (lookup_lt_is_Some_2 locs i Hilt) as [loc Hloc].
  exists i, loc, wmax. rewrite Hlocs.
  split; [|split; [exact Hloc|split; [exact Hwmax | exact Hmax]]].
  unfold VariableLocationGate.get_location. fold w.
  rewrite <- (argmax_softmax w 10 Hbeta), Hi, bind_Ok, Hlocs.
  unfold Py.index. by rewrite Hloc.
Qed.

Lemma get_location_largest_softmax_weight_witness :
  ∃ self,
    VariableLocationGate.init (λ _, true) U2Gate.as_gate [[0]; [1]] = Ok self
    ∧ VariableLocationGate.get_location self [0; 0; 1; 2]%R
      = location_of_largest_weight self [0; 0; 1; 2]%R.
Proof.
  eexists. split; [reflexivity|].
  match goal with |- VariableLocationGate.get_location ?s ?p = _ =>
    refine (proj1 (get_location_largest_softmax_weight
                     (λ _, true) U2Gate.as_gate [[0]; [1]] s p eq_refl _))
  end.
  reflexivity.
Defined.

(** ** Shapes and entries of numpy arrays *)

Lemma has_shape_nrows (r c : nat) (m : matrix) :
  has_shape r c m → Np.nrows m = r.
Proof. by intros [Hr _]. Qed.

Lemma has_shape_ncols (r c : nat) (m : matrix) :
  has_shape r c m → 0 < r → Np.ncols m = c.
Proof.
  intros [Hr Hc] Hpos. destruct m as [|row m]; [simpl in Hr; lia|].
  unfold Np.ncols. simpl. by apply Forall_cons in Hc as [? _].
Qed.

Lemma has_shape_row (r c : nat) (m : matrix) (i : nat) :
  has_shape r c m → i < r → length (nth i m []) = c.
Proof.
  intros [Hr Hc] Hi. rewrite Forall_forall in Hc. apply Hc.
  apply list_elem_of_In, nth_In. lia.
Qed.

Lemma matrix_ext (r c : nat) (a b : matrix) :
  has_shape r c a → has_shape r c b →
  (∀ i j, i < r → j < c → entry a i j = entry b i j) → a = b.
Proof.
  intros Ha Hb Heq.
  apply (nth_ext a b [] []); [destruct Ha, Hb; congruence|].
  intros i Hi. destruct Ha as [Hra Hca]. rewrite Hra in Hi.
  pose proof (has_shape_row r c a i (conj Hra Hca) Hi) as Hla.
  pose proof (has_shape_row r c b i Hb Hi) as Hlb.
  apply (nth_ext _ _ Cx.zero Cx.zero); [congruence|].
  intros j Hj. rewrite Hla in Hj. by apply Heq.
Qed.

Lemma has_shape_tabulate (r c : nat) (f : nat → nat → C) :
  has_shape r c (map (λ i, map (f i) (seq 0 c)) (seq 0 r)).
Proof.
  split; [by rewrite length_map, length_seq|].
  apply Forall_forall. intros row Hrow.
  apply list_elem_of_fmap in Hrow as (i & -> & _).
  by rewrite length_map, length_seq.
Qed.

Lemma entry_tabulate (r c : nat) (f : nat → nat → C) (i j : nat) :
  i < r → j < c →
  entry (map (λ i, map (f i) (seq 0 c)) (seq 0 r)) i j = f i j.
Proof.
  intros Hi Hj. unfold entry.
  rewrite (nth_indep _ [] (map (f 0) (seq 0 c)))
    by (rewrite length_map, length_seq; lia).
  rewrite (map_nth (λ i, map (f i) (seq 0 c)) (seq 0 r) 0 i).
  rewrite seq_nth by lia. simpl.
  rewrite (nth_indep _ Cx.zero (f i 0))
    by (rewrite length_map, length_seq; lia).
  rewrite (map_nth (f i) (seq 0 c) 0 j). by rewrite seq_nth by lia.
Qed.

Lemma has_shape_identity (n : nat) : has_shape n n (Np.identity n).
Proof. apply has_shape_tabulate. Qed.

Lemma has_shape_permutation (n : nat) (l : list nat) :
  has_shape (2 ^ n) (2 ^ n) (PermutationMatrix.from_qubit_location n l).
Proof. apply has_shape_tabulate. Qed.

Lemma has_shape_scal (r c : nat) (x : C) (m : matrix) :
  has_shape r c m → has_shape r c (Np.scal x m).
Proof.
  intros [Hr Hc]. split; [unfold Np.scal; by rewrite length_map|].
  apply Forall_forall. intros row Hrow.
  apply list_elem_of_fmap in Hrow as (row' & -> & Hin).
  rewrite length_map. rewrite Forall_forall in Hc. by apply Hc.
Qed.

Lemma has_shape_add (r c : nat) (a b : matrix) :
  has_shape r c a → has_shape r c b → has_shape r c (Np.add a b).
Proof.
  intros [Hra Hca] [Hrb Hcb]. split.
  - unfold Np.add. rewrite length_zip_with. lia.
  - apply Forall_forall. intros row Hrow.
    apply list_elem_of_lookup in Hrow as [i Hi].
    apply lookup_zip_with_Some in Hi as (ra & rb & -> & Ha & Hb).
    rewrite length_zip_with.
    rewrite Forall_forall in Hca, Hcb.
    rewrite (Hca ra), (Hcb rb) by (by eapply list_elem_of_lookup_2). lia.
Qed.

Lemma entry_scal (r c : nat) (x : C) (m : matrix) (i j : nat) :
  has_shape r c m → i < r → j < c →
  entry (Np.scal x m) i j = Cx.mul x (entry m i j).
Proof.
  intros Hm Hi Hj. unfold entry, Np.scal.
  pose proof (has_shape_row r c m i Hm Hi) as Hrow. destruct Hm as [Hr _].
  rewrite (nth_indep _ [] (map (Cx.mul x) [])) by (rewrite length_map; lia).
  rewrite (map_nth (map (Cx.mul x)) m [] i).
  rewrite (nth_indep _ Cx.zero (Cx.mul x Cx.zero))
    by (rewrite length_map; lia).
  by rewrite (map_nth (Cx.mul x)).
Qed.

Lemma nth_zip_with {A B D} (f : A → B → D) (la : list A) (lb : list B)
    (i : nat) (da : A) (db : B) (dd : D) :
  i < length la → i < length lb →
  nth i (zip_with f la lb) dd = f (nth i la da) (nth i lb db).
Proof.
  revert lb i. induction la as [|a la IH]; intros [|b lb] i Ha Hb;
    simpl in *; try lia.
  destruct i as [|i]; [reflexivity|]. apply IH; lia.
Qed.

Lemma entry_add (r c : nat) (a b : matrix) (i j : nat) :
  has_shape r c a → has_shape r c b → i < r → j < c →
  entry (Np.add a b) i j = Cx.add (entry a i j) (entry b i j).
Proof.
  intros Ha Hb Hi Hj. unfold entry, Np.add.
  pose proof (has_shape_row r c a i Ha Hi) as Hrow_a.
  pose proof (has_shape_row r c b i Hb Hi) as Hrow_b.
  destruct Ha as [Hra _], Hb as [Hrb _].
  rewrite (nth_zip_with _ a b i [] [] []) by lia.
  by rewrite (nth_zip_with _ _ _ j Cx.zero Cx.zero Cx.zero) by lia.
Qed.

Lemma Cadd_0_r (a : C) : Cx.add a Cx.zero = a.
Proof.
  destruct a as [x y]. unfold Cx.add, Cx.zero, Cx.re, Cx.im. simpl.
  f_equal; lra.
Qed.

Lemma Cadd_assoc (a b c : C) :
  Cx.add (Cx.add a b) c = Cx.add a (Cx.add b c).
Proof. unfold Cx.add, Cx.re, Cx.im. simpl. f_equal; lra. Qed.

Lemma foldl_Cadd (a : C) (xs : list C) :
  foldl Cx.add a xs = Cx.add a (foldr Cx.add Cx.zero xs).
Proof.
  revert a. induction xs as [|x xs IH]; intros a; simpl.
  - by rewrite Cadd_0_r.
  - by rewrite IH, Cadd_assoc.
Qed.

Lemma has_shape_shape (r c : nat) (m : matrix) :
  has_shape r c m → Np.shape m = (r, if decide (r = 0) then 0 else c).
Proof.
  intros Hm. unfold Np.shape. rewrite (has_shape_nrows r c m Hm).
  destruct (decide (r = 0)) as [->|Hr].
  - destruct Hm as [Hlen _]. by destruct m.
  - rewrite (has_shape_ncols r c m Hm) by lia. reflexivity.
Qed.

Lemma has_shape_foldl_add (r c : nat) (m : matrix) (ms : list matrix) :
  has_shape r c m → Forall (has_shape r c) ms →
  has_shape r c (foldl Np.add m ms).
Proof.
  intros Hm Hms. revert m Hm. induction Hms as [|m' ms Hm' _ IH];
    intros m Hm; [exact Hm|].
  simpl. apply IH. by apply has_shape_add.
Qed.

Lemma entry_foldl_add (r c : nat) (m : matrix) (ms : list matrix)
    (i j : nat) :
  has_shape r c m → Forall (has_shape r c) ms → i < r → j < c →
  entry (foldl Np.add m ms) i j
  = foldl Cx.add (entry m i j) (map (λ m', entry m' i j) ms).
Proof.
  intros Hm Hms Hi Hj. revert m Hm. induction Hms as [|m' ms Hm' _ IH];
    intros m Hm; [reflexivity|].
  simpl. rewrite IH by (by apply has_shape_add).
  by rewrite (entry_add r c).
Qed.

(** [np.sum(ms, 0)] of arrays of one shape is their entry-wise sum. *)
Lemma sum0_same_shape (r c : nat) (ms : list matrix) :
  ms ≠ [] → Forall (has_shape r c) ms →
  ∃ p, Np.sum0 ms = Ok p
       ∧ has_shape r c p
       ∧ ∀ i j, i < r → j < c →
           entry p i j
           = foldr Cx.add Cx.zero (map (λ m, entry m i j) ms).
Proof.
  intros Hne Hms. destruct ms as [|m ms]; [done|].
  apply Forall_cons in Hms as [Hm Hms].
  exists (foldl Np.add m ms). split; [|split].
  - unfold Np.sum0.
    replace (forallb _ ms) with true; [reflexivity|].
    symmetry. apply forallb_forall. intros m' Hm'.
    apply bool_decide_eq_true. rewrite Forall_forall in Hms.
    rewrite (has_shape_shape r c m Hm).
    apply has_shape_shape, Hms. by apply list_elem_of_In.
  - by apply has_shape_foldl_add.
  - intros i j Hi Hj.
    rewrite (entry_foldl_add r c) by done.
    by rewrite foldl_Cadd.
Qed.

Lemma zip_with_as_map {A B D} (f : A → B → D) (la : list A) (lb : list B)
    (da : A) (db : B) :
  length la = length lb →
  zip_with f la lb
  = map (λ i, f (nth i la da) (nth i lb db)) (seq 0 (length lb)).
Proof.
  revert lb. induction la as [|a la IH]; intros [|b lb] Hlen;
    simpl in *; try lia; [reflexivity|].
  f_equal. rewrite <- seq_shift, map_map. apply IH. lia.
Qed.

(** The array [P] of [get_unitary] is [Σ_i weight_i · Perm_i]. *)
Lemma weighted_perms_is_sum (d : nat) (self : VariableLocationGate.t)
    (l : list R) :
  VariableLocationGate.perms self ≠ [] →
  Forall (has_shape d d) (VariableLocationGate.perms self) →
  length l = length (VariableLocationGate.perms self) →
  VariableLocationGate.weighted_perms self l
  = Ok (weighted_perm_sum d l (VariableLocationGate.perms self)).
Proof.
  intros Hne Hperms Hlen. unfold VariableLocationGate.weighted_perms.
  set (ps := VariableLocationGate.perms self) in *.
  set (ms := zip_with (λ a s, Np.scal (Cx.of_R a) s) l ps).
  assert (Hms : ms = map (λ i, Np.scal (Cx.of_R (nth i l 0%R)) (nth i ps []))
                         (seq 0 (length ps))).
  { unfold ms.
    exact (zip_with_as_map (λ a s, Np.scal (Cx.of_R a) s) l ps 0%R [] Hlen). }
  assert (Hshape : Forall (has_shape d d) ms).
  { unfold ms. apply Forall_forall. intros m Hm.
    apply list_elem_of_lookup in Hm as [i Hi].
    apply lookup_zip_with_Some in Hi as (a & p & -> & _ & Hp).
    apply has_shape_scal. rewrite Forall_forall in Hperms.
    apply Hperms. by eapply list_elem_of_lookup_2. }
  destruct (sum0_same_shape d d ms) as (p & Hp & Hpshape & Hentry).
  { intros Hnil. apply (f_equal length) in Hnil. unfold ms in Hnil.
    rewrite length_zip_with in Hnil. destruct ps; [done|].
    simpl in Hnil, Hlen. lia. }
  { exact Hshape. }
  rewrite Hp. f_equal.
  apply (matrix_ext d d); [exact Hpshape | apply has_shape_tabulate|].
  intros i j Hi Hj. unfold weighted_perm_sum.
  rewrite (entry_tabulate d d
    (λ r c, foldr Cx.add Cx.zero
              (map (λ k, Cx.mul (Cx.of_R (nth k l 0%R))
                                (entry (nth k ps []) r c))
                   (seq 0 (length ps))))) by done.
  rewrite Hentry by done. f_equal. rewrite Hms, map_map.
  apply map_ext_in. intros k Hk. apply in_seq in Hk.
  apply (entry_scal d d); [|done|done].
  rewrite Forall_forall in Hperms. apply Hperms.
  apply list_elem_of_In, nth_In. lia.
Qed.

Lemma length_concat_scaled {A} (h : C → A → A) (ra : list C) (rb : list A) :
  length (concat (map (λ x, map (h x) rb) ra)) = length ra * length rb.
Proof.
  induction ra as [|x ra IH]; [reflexivity|].
  simpl. rewrite length_app, length_map, IH. lia.
Qed.

Lemma nrows_kron (a b : matrix) :
  Np.nrows (Np.kron a b) = Np.nrows a * Np.nrows b.
Proof.
  unfold Np.nrows, Np.kron. induction a as [|ra a IH]; [reflexivity|].
  simpl. rewrite length_app, length_map, IH. lia.
Qed.

Lemma ncols_kron (a b : matrix) :
  0 < Np.nrows a → 0 < Np.nrows b →
  Np.ncols (Np.kron a b) = Np.ncols a * Np.ncols b.
Proof.
  destruct a as [|ra a], b as [|rb b]; simpl; try lia. intros _ _.
  unfold Np.ncols, Np.kron. simpl. apply length_concat_scaled.
Qed.

Lemma nrows_transpose (m : matrix) :
  Np.nrows (Np.transpose m) = Np.ncols m.
Proof. unfold Np.nrows, Np.transpose. by rewrite length_map, length_seq. Qed.

Lemma nrows_mm (a b : matrix) : Np.nrows (Np.mm a b) = Np.nrows a.
Proof. unfold Np.nrows, Np.mm. by rewrite length_map. Qed.

Lemma ncols_mm (a b : matrix) :
  0 < Np.nrows a → Np.ncols (Np.mm a b) = Np.ncols b.
Proof.
  destruct a as [|ra a]; simpl; [lia|]. intros _.
  unfold Np.ncols at 1. simpl. rewrite length_map. apply nrows_transpose.
Qed.

Lemma matmul_Ok (a b : matrix) :
  Np.ncols a = Np.nrows b → Np.matmul a b = Ok (Np.mm a b).
Proof. intros H. unfold Np.matmul. by rewrite decide_True. Qed.

Lemma matmul_mismatch (a b : matrix) :
  Np.ncols a ≠ Np.nrows b → Np.matmul a b = Raise ValueError.
Proof. intros H. unfold Np.matmul. by rewrite decide_False. Qed.

Lemma pow2_pos (n : nat) : 0 < 2 ^ n.
Proof. induction n; simpl; lia. Qed.

(** ** Matrix products *)

Lemma nth_map_in {A B} (f : A → B) (l : list A) (i : nat) (da : A) (db : B) :
  i < length l → nth i (map f l) db = f (nth i l da).
Proof.
  intros Hi. rewrite (nth_indep _ db (f da)) by (by rewrite length_map).
  apply map_nth.
Qed.

Lemma nth_map_seq {B} (f : nat → B) (n i : nat) (d : B) :
  i < n → nth i (map f (seq 0 n)) d = f i.
Proof.
  intros Hi. rewrite (nth_map_in f _ i 0) by (by rewrite length_seq).
  by rewrite seq_nth.
Qed.

Lemma has_shape_transpose (r c : nat) (m : matrix) :
  has_shape r c m → 0 < r → has_shape c r (Np.transpose m).
Proof.
  intros Hm Hr. unfold Np.transpose.
  rewrite (has_shape_ncols r c m Hm Hr). split.
  - by rewrite length_map, length_seq.
  - apply Forall_forall. intros row Hrow.
    apply list_elem_of_fmap in Hrow as (i & -> & _).
    rewrite length_map. by destruct Hm.
Qed.

Lemma entry_transpose (r c : nat) (m : matrix) (i j : nat) :
  has_shape r c m → i < c → j < r →
  entry (Np.transpose m) i j = entry m j i.
Proof.
  intros Hm Hi Hj. unfold entry, Np.transpose.
  rewrite (has_shape_ncols r c m Hm) by lia.
  rewrite nth_map_seq by done.
  destruct Hm as [Hlen _].
  by rewrite (nth_map_in _ m j []) by lia.
Qed.

Lemma has_shape_sub (r c : nat) (a b : matrix) :
  has_shape r c a → has_shape r c b → has_shape r c (Np.sub a b).
Proof.
  intros [Hra Hca] [Hrb Hcb]. split.
  - unfold Np.sub. rewrite length_zip_with. lia.
  - apply Forall_forall. intros row Hrow.
    apply list_elem_of_lookup in Hrow as [i Hi].
    apply lookup_zip_with_Some in Hi as (ra & rb & -> & Ha & Hb).
    rewrite length_zip_with.
    rewrite Forall_forall in Hca, Hcb.
    rewrite (Hca ra), (Hcb rb) by (by eapply list_elem_of_lookup_2). lia.
Qed.


Lemma has_shape_kron (r c r' c' : nat) (a b : matrix) :
  has_shape r c a → has_shape r' c' b →
  has_shape (r * r') (c * c') (Np.kron a b).
Proof.
  intros [Hra Hca] [Hrb Hcb]. split.
  - pose proof (nrows_kron a b) as H. unfold Np.nrows in H. by rewrite H, Hra, Hrb.
  - apply Forall_forall. intros row Hrow. unfold Np.kron in Hrow.
    apply elem_of_concat in Hrow as (rows & Hrow & Hrows).
    apply list_elem_of_fmap in Hrows as (ra & -> & Hia).
    cbn beta in Hrow.
    apply list_elem_of_fmap in Hrow as (rb & -> & Hib).
    rewrite length_concat_scaled.
    rewrite Forall_forall in Hca, Hcb. by rewrite (Hca ra), (Hcb rb).
Qed.

Lemma has_shape_mm (r n c : nat) (a b : matrix) :
  has_shape r n a → has_shape n c b → 0 < n → has_shape r c (Np.mm a b).
Proof.
  intros [Hra _] Hb Hn. split.
  - unfold Np.mm. by rewrite length_map.
  - apply Forall_forall. intros row Hrow. unfold Np.mm in Hrow.
    apply list_elem_of_fmap in Hrow as (ra & -> & _).
    rewrite length_map.
    pose proof (nrows_transpose b) as H. unfold Np.nrows in H.
    rewrite H. by apply (has_shape_ncols n c).
Qed.

Lemma entry_mm (r n c : nat) (a b : matrix) (i j : nat) :
  has_shape r n a → has_shape n c b → 0 < n → i < r → j < c →
  entry (Np.mm a b) i j
  = csum n (λ k, Cx.mul (entry a i k) (entry b k j)).
Proof.
  intros Ha Hb Hn Hi Hj. unfold entry at 1, Np.mm.
  pose proof (has_shape_row r n a i Ha Hi) as Hrow.
  pose proof (has_shape_transpose n c b Hb Hn) as HbT.
  rewrite (nth_map_in _ a i []) by (destruct Ha; lia).
  rewrite (nth_map_in _ (Np.transpose b) j []) by (destruct HbT; lia).
  unfold Np.dot, csum.
  pose proof (has_shape_row c n _ j HbT Hj) as Hcol.
  rewrite (zip_with_as_map Cx.mul _ _ Cx.zero Cx.zero) by congruence.
  rewrite Hcol. f_equal. apply map_ext_in. intros k Hk.
  apply in_seq in Hk. f_equal.
  exact (entry_transpose n c b j k Hb Hj ltac:(lia)).
Qed.

Lemma Cmul_assoc (a b c : C) :
  Cx.mul (Cx.mul a b) c = Cx.mul a (Cx.mul b c).
Proof. unfold Cx.mul, Cx.re, Cx.im. simpl. f_equal; ring. Qed.

Lemma Cmul_add_r (a b c : C) :
  Cx.mul a (Cx.add b c) = Cx.add (Cx.mul a b) (Cx.mul a c).
Proof. unfold Cx.mul, Cx.add, Cx.re, Cx.im. simpl. f_equal; ring. Qed.

Lemma Cmul_add_l (a b c : C) :
  Cx.mul (Cx.add a b) c = Cx.add (Cx.mul a c) (Cx.mul b c).
Proof. unfold Cx.mul, Cx.add, Cx.re, Cx.im. simpl. f_equal; ring. Qed.

Lemma Cmul_0_r (a : C) : Cx.mul a Cx.zero = Cx.zero.
Proof. unfold Cx.mul, Cx.zero, Cx.of_R, Cx.re, Cx.im. simpl. f_equal; ring. Qed.

Lemma Cmul_0_l (a : C) : Cx.mul Cx.zero a = Cx.zero.
Proof. unfold Cx.mul, Cx.zero, Cx.of_R, Cx.re, Cx.im. simpl. f_equal; ring. Qed.

Lemma lsum_add (l : list nat) (f g : nat → C) :
  foldr Cx.add Cx.zero (map (λ k, Cx.add (f k) (g k)) l)
  = Cx.add (foldr Cx.add Cx.zero (map f l)) (foldr Cx.add Cx.zero (map g l)).
Proof.
  induction l as [|x l IH]; simpl.
  - by rewrite Cadd_0_r.
  - rewrite IH. unfold Cx.add, Cx.re, Cx.im. simpl. f_equal; ring.
Qed.

Lemma lsum_zero (l : list nat) :
  foldr Cx.add Cx.zero (map (λ _, Cx.zero) l) = Cx.zero.
Proof.
  induction l as [|x l IH]; simpl; [reflexivity|].
  rewrite IH. apply Cadd_0_r.
Qed.

Lemma lsum_swap (l1 l2 : list nat) (f : nat → nat → C) :
  foldr Cx.add Cx.zero
    (map (λ k, foldr Cx.add Cx.zero (map (f k) l2)) l1)
  = foldr Cx.add Cx.zero
      (map (λ l, foldr Cx.add Cx.zero (map (λ k, f k l) l1)) l2).
Proof.
  induction l1 as [|x l1 IH]; simpl.
  - by rewrite lsum_zero.
  - by rewrite IH, <- lsum_add.
Qed.

Lemma csum_ext (n : nat) (f g : nat → C) :
  (∀ k, k < n → f k = g k) → csum n f = csum n g.
Proof.
  intros H. unfold csum. f_equal. apply map_ext_in. intros k Hk.
  apply in_seq in Hk. apply H. lia.
Qed.

Lemma csum_mul_l (n : nat) (x : C) (f : nat → C) :
  Cx.mul x (csum n f) = csum n (λ k, Cx.mul x (f k)).
Proof.
  unfold csum. induction (seq 0 n) as [|k l IH]; simpl.
  - apply Cmul_0_r.
  - by rewrite Cmul_add_r, IH.
Qed.

Lemma csum_mul_r (n : nat) (x : C) (f : nat → C) :
  Cx.mul (csum n f) x = csum n (λ k, Cx.mul (f k) x).
Proof.
  unfold csum. induction (seq 0 n) as [|k l IH]; simpl.
  - apply Cmul_0_l.
  - by rewrite Cmul_add_l, IH.
Qed.

Lemma csum_swap (n m : nat) (f : nat → nat → C) :
  csum n (λ k, csum m (f k)) = csum m (λ l, csum n (λ k, f k l)).
Proof. apply lsum_swap. Qed.

(** The matrix product is associative. *)
Lemma mm_assoc (r n m c : nat) (a b d : matrix) :
  has_shape r n a → has_shape n m b → has_shape m c d →
  0 < n → 0 < m →
  Np.mm (Np.mm a b) d = Np.mm a (Np.mm b d).
Proof.
  intros Ha Hb Hd Hn Hm.
  pose proof (has_shape_mm r n m a b Ha Hb Hn) as Hab.
  pose proof (has_shape_mm n m c b d Hb Hd Hm) as Hbd.
  apply (matrix_ext r c).
  - by apply (has_shape_mm r m c).
  - by apply (has_shape_mm r n c).
  - intros i j Hi Hj.
    rewrite (entry_mm r m c) by done.
    rewrite (entry_mm r n c) by done.
    rewrite (csum_ext m _
      (λ l, csum n (λ k, Cx.mul (entry a i k)
                           (Cx.mul (entry b k l) (entry d l j))))).
    2:{ intros l Hl. rewrite (entry_mm r n m) by done.
        rewrite csum_mul_r. apply csum_ext. intros k _.
        apply Cmul_assoc. }
    rewrite <- (csum_swap n m
      (λ k l, Cx.mul (entry a i k) (Cx.mul (entry b k l) (entry d l j)))).
    apply csum_ext. intros k Hk.
    rewrite (entry_mm n m c) by done. by rewrite csum_mul_l.
Qed.

Lemma mapM_all_Ok {A B} (f : A → result B) (h : A → B) (xs : list A) :
  (∀ x, x ∈ xs → f x = Ok (h x)) → mapM f xs = Ok (map h xs).
Proof.
  induction xs as [|x xs IH]; intros H; [reflexivity|].
  simpl. rewrite H by left. rewrite bind_Ok, IH; [reflexivity|].
  intros y Hy. apply H. by right.
Qed.

Lemma foldl_max_elem (x0 : nat) (xs : list nat) :
  foldl Nat.max x0 xs = x0 ∨ foldl Nat.max x0 xs ∈ xs.
Proof.
  revert x0. induction xs as [|y xs IH]; intros x0; simpl; [by left|].
  destruct (IH (Nat.max x0 y)) as [Heq|Hin].
  - rewrite Heq. destruct (Nat.max_spec x0 y) as [[_ ->]|[_ ->]].
    + right. left.
    + by left.
  - right. by right.
Qed.

Lemma py_max_elem (xs : list nat) (m : nat) : Py.max xs = Ok m → m ∈ xs.
Proof.
  destruct xs as [|x0 xs]; [discriminate|]. intros [= <-].
  destruct (foldl_max_elem x0 xs) as [->|Hin]; [left | by right].
Qed.

(** ** [VariableLocationGate.get_unitary] *)

Lemma vlg_perms_shape (is_valid_location : list nat → bool) (g : Gate)
    (locs : list (list nat)) (self : VariableLocationGate.t) :
  VariableLocationGate.init is_valid_location g locs = Ok self →
  VariableLocationGate.perms self ≠ []
  ∧ length (VariableLocationGate.perms self) = length locs
  ∧ Forall (has_shape (2 ^ VariableLocationGate.size self)
                      (2 ^ VariableLocationGate.size self))
           (VariableLocationGate.perms self).
Proof.
  intros Hinit.
  destruct (vlg_init_Ok _ _ _ _ Hinit)
    as (_ & _ & Hne & maxes & top & rm & _ & _ & _ & _
        & _ & _ & Hsize & _ & _ & _ & Hperms).
  rewrite Hperms, Hsize. split; [by destruct locs|].
  split; [by rewrite length_map|].
  apply Forall_forall. intros p Hp.
  apply list_elem_of_fmap in Hp as (l & -> & _).
  apply has_shape_permutation.
Qed.

(** The steps of [get_unitary] on a constructed gate, shared by the
    results below. *)
Lemma vlg_get_unitary_steps
    (is_valid_location : list nat → bool)
    (closest_to : matrix → list nat → result UnitaryMatrix.t)
    (g : Gate) (locs : list (list nat)) (self : VariableLocationGate.t)
    (params : list R) :
  VariableLocationGate.init is_valid_location g locs = Ok self →
  length params = VariableLocationGate.num_params self →
  let a := take (gate_num_params g) params in
  let w := drop (gate_num_params g) params in
  let P := weighted_perm_sum (2 ^ VariableLocationGate.size self)
             (softmax w 10) (VariableLocationGate.perms self) in
  VariableLocationGate.split_params self params = (a, w)
  ∧ length a = gate_num_params g
  ∧ length w = length (VariableLocationGate.perms self)
  ∧ VariableLocationGate.get_unitary closest_to self params
    = (G ← gate_get_unitary g a;
       PG ← Np.matmul P (Np.kron (UnitaryMatrix.get_numpy G)
                                 (VariableLocationGate.I self));
       PGPT ← Np.matmul PG (Np.transpose P);
       closest_to PGPT (VariableLocationGate.radixes self))
  ∧ ∀ G, gate_get_unitary g a = Ok G →
         Np.shape (UnitaryMatrix.get_numpy G)
         = (2 ^ gate_size g, 2 ^ gate_size g) →
         VariableLocationGate.get_unitary closest_to self params
         = closest_to
             (Np.mm (Np.mm P (Np.kron (UnitaryMatrix.get_numpy G)
                                      (VariableLocationGate.I self)))
                    (Np.transpose P))
             (VariableLocationGate.radixes self).
Proof.
  intros Hinit Hlen a w P.
  destruct (vlg_init_Ok _ _ _ _ Hinit)
    as (_ & _ & Hne & maxes & top & rm & _ & _ & _ & _
        & Hgsize & Hgate & Hsize & _ & Hnum & HI & _).
  destruct (vlg_perms_shape _ _ _ _ Hinit) as (Hpne & Hplen & Hpshape).
  assert (Hsplit : VariableLocationGate.split_params self params = (a, w)).
  { unfold VariableLocationGate.split_params. by rewrite Hgate. }
  assert (Ha : length a = gate_num_params g).
  { unfold a. rewrite length_take. lia. }
  assert (Hw : length w = length (VariableLocationGate.perms self)).
  { unfold w. rewrite length_drop. lia. }
  assert (HP : VariableLocationGate.weighted_perms self (softmax w 10)
               = Ok P).
  { apply weighted_perms_is_sum; [done|done|].
    by rewrite softmax_length. }
  assert (Hrun : VariableLocationGate.get_unitary closest_to self params
    = (G ← gate_get_unitary g a;
       PG ← Np.matmul P (Np.kron (UnitaryMatrix.get_numpy G)
                                 (VariableLocationGate.I self));
       PGPT ← Np.matmul PG (Np.transpose P);
       closest_to PGPT (VariableLocationGate.radixes self))).
  { unfold VariableLocationGate.get_unitary, check_parameters.
    rewrite decide_True by done. rewrite bind_Ok, Hsplit, HP, bind_Ok.
    by rewrite Hgate. }
  split; [exact Hsplit|]. split; [exact Ha|]. split; [exact Hw|].
  split; [exact Hrun|].
  intros G HG Hshape. rewrite Hrun, HG, bind_Ok.
  injection Hshape as Hrows Hcols.
  unfold UnitaryMatrix.get_numpy in *.
  pose proof (pow2_pos (VariableLocationGate.size self)) as Hdpos.
  pose proof (pow2_pos (gate_size g)) as Hgpos.
  pose proof (pow2_pos (top + 1 - gate_size g)) as Hepos.
  assert (HPshape : has_shape (2 ^ VariableLocationGate.size self)
                              (2 ^ VariableLocationGate.size self) P)
    by apply has_shape_tabulate.
  assert (Hdim : 2 ^ gate_size g * 2 ^ (top + 1 - gate_size g)
                 = 2 ^ VariableLocationGate.size self).
  { rewrite <- Nat.pow_add_r, Hsize. f_equal. lia. }
  pose proof (has_shape_identity (2 ^ (top + 1 - gate_size g))) as HIshape.
  rewrite <- HI in HIshape.
  rewrite matmul_Ok, bind_Ok.
  2:{ rewrite (has_shape_ncols _ _ _ HPshape) by done.
      rewrite nrows_kron, Hrows, (has_shape_nrows _ _ _ HIshape). lia. }
  rewrite matmul_Ok, bind_Ok; [reflexivity|].
  rewrite ncols_mm by (rewrite (has_shape_nrows _ _ _ HPshape); done).
  rewrite nrows_transpose, (has_shape_ncols _ _ _ HPshape) by done.
  rewrite ncols_kron.
  - rewrite Hcols, (has_shape_ncols _ _ _ HIshape) by done. exact Hdim.
  - rewrite Hrows. exact Hgpos.
  - rewrite (has_shape_nrows _ _ _ HIshape). exact Hepos.
Qed.










(** ** A non-qubit [VariableLocationGate] *)

Lemma identity_3_is_unitary : UnitaryMatrix.is_unitary (Np.identity 3) = true.
Proof.
  unfold UnitaryMatrix.is_unitary, UnitaryMatrix.allclose.
  change (Np.nrows (Np.identity 3)) with 3.
  change (Np.identity 3)
    with [[Cx.one; Cx.zero; Cx.zero]; [Cx.zero; Cx.one; Cx.zero];
          [Cx.zero; Cx.zero; Cx.one]].
  cbn. rewrite !andb_true_r.
  repeat (apply andb_true_intro; split);
    try (apply bool_decide_eq_true; try reflexivity).
  all: apply close_of_eq;
    unfold Cx.add, Cx.mul, Cx.conj, Cx.zero, Cx.one, Cx.re, Cx.im;
    cbn [fst snd]; lra.
Qed.

Lemma qutrit_identity_unitary :
  gate_get_unitary qutrit_identity_gate []
  = Ok {| UnitaryMatrix.numpy := Np.identity 3;
          UnitaryMatrix.radixes := [3] |}.
Proof.
  cbn [gate_get_unitary qutrit_identity_gate]. unfold check_parameters.
  rewrite decide_True by reflexivity. rewrite bind_Ok.
  unfold UnitaryMatrix.init. rewrite identity_3_is_unitary. reflexivity.
Qed.

(** C3, at a gate with a radix other than 2. A [VariableLocationGate] over
    the one-qutrit identity with the single candidate [(0)] is constructed
    with radixes [(3)] and one parameter, and its subgate returns a
    unitary of dimension 3; but [get_unitary] on any one-element parameter
    vector raises [ValueError]: the candidate permutation matrix is
    [2 × 2] and the padded subgate matrix [3 × 3], so [P @ kron(G, I)]
    has mismatched inner dimensions. No unitary of dimension 3 is
    returned. *)
Theorem vlg_qutrit_get_unitary_raises
    (closest_to : matrix → list nat → result UnitaryMatrix.t) (w : R) :
  ∃ self G,
    VariableLocationGate.init (λ _, true) qutrit_identity_gate [[0]]
    = Ok self
    ∧ VariableLocationGate.radixes self = [3]
    ∧ VariableLocationGate.num_params self = 1
    ∧ gate_get_unitary qutrit_identity_gate [] = Ok G
    ∧ UnitaryMatrix.get_dim G = 3
    ∧ Np.shape (VariableLocationGate.I self) = (1, 1)
    ∧ Forall (λ p, Np.shape p = (2, 2)) (VariableLocationGate.perms self)
    ∧ VariableLocationGate.get_unitary closest_to self [w]
      = Raise ValueError.
Proof.
  eexists. eexists. split; [reflexivity|].
  split; [reflexivity|]. split; [reflexivity|].
  split; [apply qutrit_identity_unitary|].
  split; [reflexivity|]. split; [reflexivity|].
  split; [repeat constructor|].
  match goal with |- VariableLocationGate.get_unitary _ ?s ?p = _ =>
    destruct (vlg_get_unitary_steps (λ _, true) closest_to
                qutrit_identity_gate [[0]] s p eq_refl eq_refl)
      as (_ & _ & _ & Hrun & _)
  end.
  rewrite Hrun.
  change (take (gate_num_params qutrit_identity_gate) [w]) with (@nil R).
  rewrite qutrit_identity_unitary, bind_Ok.
  rewrite matmul_mismatch; [reflexivity|].
  rewrite nrows_kron. vm_compute. lia.
Qed.

(** ** [VariableLocationGate.get_unitary_and_grad] at equal weights *)

(** Splits an equation between explicit arrays into equations between
    real numbers and tries linear arithmetic on each. *)
Ltac cx_entries :=
  unfold Cx.add, Cx.sub, Cx.mul, Cx.neg, Cx.conj, Cx.of_R, Cx.zero, Cx.one,
    Cx.re, Cx.im;
  cbn [fst snd];
  repeat match goal with
         | |- _ :: _ = _ :: _ => f_equal
         | |- (_, _) = (_, _) => f_equal
         end;
  try lra.

Section Worked_input.
Local Open Scope R_scope.

Lemma u2_on_either_qubit_init :
  VariableLocationGate.init (λ _, true) U2Gate.as_gate [[0%nat]; [1%nat]]
  = Ok u2_on_either_qubit.
Proof. reflexivity. Qed.

Lemma softmax_equal_weights : softmax [0; 0] 10 = [1 / 2; 1 / 2].
Proof.
  unfold softmax. simpl. rewrite Rmult_0_r, exp_0. repeat f_equal; lra.
Qed.

Lemma perm_first_qubit :
  PermutationMatrix.from_qubit_location 2 [0%nat]
  = of_real [[1; 0; 0; 0]; [0; 1; 0; 0]; [0; 0; 1; 0]; [0; 0; 0; 1]].
Proof. reflexivity. Qed.

Lemma perm_second_qubit :
  PermutationMatrix.from_qubit_location 2 [1%nat]
  = of_real [[1; 0; 0; 0]; [0; 0; 1; 0]; [0; 1; 0; 0]; [0; 0; 0; 1]].
Proof. reflexivity. Qed.

Lemma worked_P :
  VariableLocationGate.weighted_perms u2_on_either_qubit [1 / 2; 1 / 2]
  = Ok Worked.P.
Proof.
  rewrite (weighted_perms_is_sum 4).
  - f_equal. cbn [VariableLocationGate.perms u2_on_either_qubit].
    rewrite perm_first_qubit, perm_second_qubit.
    unfold weighted_perm_sum, Worked.P, of_real. cbn. cx_entries.
  - discriminate.
  - repeat constructor; apply (has_shape_permutation 2).
  - reflexivity.
Qed.

Lemma worked_G :
  Np.kron (U2Gate.unitary_array 0 0) (Np.identity 2) = Worked.G.
Proof.
  rewrite U2_array_spec. unfold U2_matrix.
  rewrite Rplus_0_l, cos_0, sin_0.
  change (Np.identity 2) with [[Cx.one; Cx.zero]; [Cx.zero; Cx.one]].
  unfold Worked.G, of_real. cbn. cx_entries.
Qed.

Lemma worked_PG : Np.matmul Worked.P Worked.G = Ok Worked.PG.
Proof.
  rewrite matmul_Ok by reflexivity. f_equal.
  unfold Worked.P, Worked.G, Worked.PG, of_real. cbn. cx_entries.
Qed.

Lemma worked_GPT :
  Np.matmul Worked.G (Np.transpose Worked.P) = Ok Worked.GPT.
Proof.
  rewrite matmul_Ok by reflexivity. f_equal.
  unfold Worked.P, Worked.G, Worked.GPT, of_real. cbn. cx_entries.
Qed.

Lemma worked_PGPT : Np.matmul Worked.P Worked.GPT = Ok Worked.PGPT.
Proof.
  rewrite matmul_Ok by reflexivity. f_equal.
  unfold Worked.P, Worked.GPT, Worked.PGPT, of_real. cbn. cx_entries.
Qed.

Lemma is_ok_ex {A} (r : result A) : is_ok r = true → ∃ v, r = Ok v.
Proof. destruct r; [eauto | discriminate]. Qed.

Lemma worked_unitary_and_grad :
  ∃ dM,
    VariableLocationGate.get_unitary_and_grad u2_on_either_qubit
      [0; 0; 0; 0]
    = Ok (Worked.PGPT, dM).
Proof.
  unfold VariableLocationGate.get_unitary_and_grad, check_parameters.
  rewrite decide_True by reflexivity. rewrite bind_Ok.
  change (VariableLocationGate.split_params u2_on_either_qubit [0; 0; 0; 0])
    with ([0; 0], [0; 0]).
  cbv beta iota. rewrite softmax_equal_weights, worked_P, bind_Ok.
  change (gate_get_unitary
            (VariableLocationGate.gate u2_on_either_qubit) [0; 0])
    with (U2Gate.get_unitary [0; 0]).
  rewrite U2_get_unitary_Ok, bind_Ok.
  change (UnitaryMatrix.get_numpy _) with (U2Gate.unitary_array 0 0).
  change (VariableLocationGate.I u2_on_either_qubit) with (Np.identity 2).
  rewrite worked_G, worked_PG, bind_Ok, worked_GPT, bind_Ok, worked_PGPT,
    bind_Ok.
  change (gate_get_grad
            (VariableLocationGate.gate u2_on_either_qubit) [0; 0])
    with (Ok (U2Gate.grad_array 0 0)).
  rewrite bind_Ok.
  do 3 match goal with |- context [mapM ?f ?xs ≫= _] =>
    let v := fresh "v" in let Hv := fresh "Hv" in
    destruct (is_ok_ex (mapM f xs)) as [v Hv];
      [vm_compute; reflexivity|]; rewrite Hv, bind_Ok
  end.
  eexists. reflexivity.
Qed.

Lemma allclose_entry (a b : matrix) (atol : R) (i j : nat)
    (ra rb : list C) (x y : C) :
  UnitaryMatrix.allclose a b atol = true →
  a !! i = Some ra → b !! i = Some rb →
  ra !! j = Some x → rb !! j = Some y →
  Cx.abs (Cx.sub x y) <= atol.
Proof.
  unfold UnitaryMatrix.allclose. intros H Ha Hb Hx Hy.
  apply andb_true_iff in H as [_ H]. rewrite forallb_forall in H.
  specialize (H (ra, rb)). cbn [fst snd] in H.
  rewrite forallb_forall in H.
  assert (Hin : In (ra, rb) (zip a b)).
  { apply list_elem_of_In, list_elem_of_lookup. exists i.
    apply lookup_zip_with_Some. by exists ra, rb. }
  specialize (H Hin (x, y)). cbn [fst snd] in H.
  eapply bool_decide_eq_true_1, H.
  apply list_elem_of_In, list_elem_of_lookup. exists j.
  apply lookup_zip_with_Some. by exists x, y.
Qed.

Lemma unitary_tol_small : UnitaryMatrix.tol < 1 / 8.
Proof.
  unfold UnitaryMatrix.tol.
  apply (Rmult_lt_reg_r (10 ^ 8)); [apply pow_lt; lra|].
  unfold Rdiv at 1.
  rewrite Rmult_assoc, Rinv_l by (apply pow_nonzero; lra).
  simpl. lra.
Qed.

(** The first row of [PGPT] has squared norm 3/4, so [PGPT · PGPT†]
    misses the identity by 1/4 in its first entry. *)
Lemma worked_PGPT_not_unitary :
  UnitaryMatrix.is_unitary Worked.PGPT = false.
Proof.
  apply not_true_is_false. intros H.
  unfold UnitaryMatrix.is_unitary in H. apply andb_true_iff in H as [_ H].
  eapply (allclose_entry _ _ _ 0 0) in H; try reflexivity.
  revert H. unfold Worked.PGPT, of_real. cbn.
  unfold Cx.abs, Cx.add, Cx.sub, Cx.mul, Cx.neg, Cx.conj, Cx.of_R,
    Cx.zero, Cx.one, Cx.re, Cx.im; cbn [fst snd].
  pose proof half_sqrt2_sq as Hs. set (s := sqrt 2 / 2) in *.
  rewrite !decide_True by reflexivity. cbn [fst snd].
  match goal with |- sqrt ?e <= _ → _ =>
    replace e with ((3 / 2 * (s * s) - 1) * (3 / 2 * (s * s) - 1)) by field
  end.
  rewrite Hs.
  replace ((3 / 2 * (1 / 2) - 1) * (3 / 2 * (1 / 2) - 1))
    with (1 / 4 * (1 / 4)) by lra.
  rewrite sqrt_square by lra. pose proof unitary_tol_small. lra.
Qed.

End Worked_input.

(** C10, at equal location weights. For U2 with the candidates [(0)] and
    [(1)] and the parameters [[0, 0, 0, 0]], [get_unitary_and_grad]
    returns as its first component the raw product [P · (G ⊗ I) · Pᵀ],
    which is not unitary within tolerance; [get_unitary] returns what
    [closest_to] makes of that product, so whenever [closest_to] returns
    unitaries the two results differ. *)
Theorem vlg_unitary_and_grad_unprojected :
  ∃ self dM,
    VariableLocationGate.init (λ _, true) U2Gate.as_gate [[0]; [1]] = Ok self
    ∧ VariableLocationGate.get_unitary_and_grad self [0; 0; 0; 0]%R
      = Ok (Worked.PGPT, dM)
    ∧ UnitaryMatrix.is_unitary Worked.PGPT = false
    ∧ ∀ (closest_to : matrix → list nat → result UnitaryMatrix.t)
        (U : UnitaryMatrix.t),
        (∀ A rs V, closest_to A rs = Ok V →
                   UnitaryMatrix.is_unitary (UnitaryMatrix.get_numpy V)
                   = true) →
        VariableLocationGate.get_unitary closest_to self [0; 0; 0; 0]%R
        = Ok U →
        UnitaryMatrix.get_numpy U ≠ Worked.PGPT.
Proof.
  destruct worked_unitary_and_grad as [dM Hrun].
  exists u2_on_either_qubit, dM.
  split; [apply u2_on_either_qubit_init|]. split; [exact Hrun|].
  split; [apply worked_PGPT_not_unitary|].
  intros closest_to U Hcontract HU Heq.
  destruct (vlg_get_unitary_steps (λ _, true) closest_to U2Gate.as_gate
              [[0]; [1]] u2_on_either_qubit [0; 0; 0; 0]%R
              u2_on_either_qubit_init eq_refl)
    as (_ & _ & _ & Hformula & _).
  rewrite Hformula in HU.
  apply bind_Ok_inv in HU as (G & _ & HU).
  apply bind_Ok_inv in HU as (PG & _ & HU).
  apply bind_Ok_inv in HU as (PGPT & _ & HU).
  apply Hcontract in HU. rewrite Heq, worked_PGPT_not_unitary in HU.
  discriminate.
Qed.

(** * Part III: further properties of the code *)

(** ** [FrozenParameterGate]: construction, round trips, [optimize] *)

(** ** More on [FrozenParameterGate] *)

Lemma fixed_size_bound (fixed : gmap Z R) (n : nat) :
  (∀ k, is_Some (fixed !! k) → (0 ≤ k < Z.of_nat n)%Z) →
  base.size fixed ≤ n.
Proof.
  intros Hkeys. rewrite <- (fixed_idxs_length fixed n Hkeys).
  etrans; [apply length_filter|]. by rewrite length_seq.
Qed.

Lemma frozen_init_succeeds_iff_keys_in_range_aux
    (sub : Gate) (fixed : gmap Z R) :
  ((∀ k, is_Some (fixed !! k) → (0 ≤ k < Z.of_nat (gate_num_params sub))%Z)
   → ∃ self, FrozenParameterGate.init sub fixed = Ok self)
  ∧ ((∃ k, is_Some (fixed !! k)
           ∧ ¬ (0 ≤ k < Z.of_nat (gate_num_params sub))%Z)
     → FrozenParameterGate.init sub fixed = Raise ValueError).
Proof.
  split.
  - intros Hkeys. apply frozen_init_succeeds; [|exact Hkeys].
    by apply fixed_size_bound.
  - intros (k & Hk & Hout).
    destruct (FrozenParameterGate.init sub fixed) as [self|e] eqn:Hinit.
    + exfalso. apply Hout.
      by apply (frozen_init_Ok _ _ _ Hinit).
    + revert Hinit. unfold FrozenParameterGate.init.
      destruct (negb _); [by intros [= <-]|].
      destruct (negb _); [by intros [= <-] | discriminate].
Qed.

(** X1. The constructor of [FrozenParameterGate] succeeds exactly when
    every fixed index is a parameter index of the subgate, and raises
    [ValueError] otherwise; the separate test on the number of fixed
    entries never decides on its own, since distinct in-range keys are at
    most as many as the parameters. *)
Theorem frozen_init_succeeds_iff_keys_in_range
    (sub : Gate) (fixed : gmap Z R) :
  ((∀ k, is_Some (fixed !! k) → (0 ≤ k < Z.of_nat (gate_num_params sub))%Z)
   → ∃ self, FrozenParameterGate.init sub fixed = Ok self)
  ∧ ((∃ k, is_Some (fixed !! k)
           ∧ ¬ (0 ≤ k < Z.of_nat (gate_num_params sub))%Z)
     → FrozenParameterGate.init sub fixed = Raise ValueError).
Proof. exact (frozen_init_succeeds_iff_keys_in_range_aux sub fixed). Qed.

Lemma frozen_init_succeeds_iff_keys_in_range_witness :
  (∃ self, FrozenParameterGate.init U2Gate.as_gate {[ 1%Z := 0.5%R ]}
           = Ok self)
  ∧ FrozenParameterGate.init U2Gate.as_gate {[ 2%Z := 0.5%R ]}
    = Raise ValueError.
Proof.
  split.
  - apply (proj1 (frozen_init_succeeds_iff_keys_in_range
                    U2Gate.as_gate {[ 1%Z := 0.5%R ]})).
    intros k [v Hv]. apply lookup_singleton_Some in Hv as [<- _].
    vm_compute. split; discriminate || reflexivity.
  - apply (proj2 (frozen_init_succeeds_iff_keys_in_range
                    U2Gate.as_gate {[ 2%Z := 0.5%R ]})).
    exists 2%Z. split.
    + rewrite lookup_singleton_eq. by eexists.
    + vm_compute. intros [_ H]. discriminate H.
Defined.

Lemma frozen_full_params_unique (sub : Gate) (fixed : gmap Z R)
    (self : FrozenParameterGate.t) (free p : list R) :
  FrozenParameterGate.init sub fixed = Ok self →
  length p = gate_num_params sub →
  (∀ i v, fixed !! i = Some v → p !! Z.to_nat i = Some v) →
  Forall2 (λ i x, p !! i = Some x)
    (FrozenParameterGate.unfixed_param_idxs self) free →
  FrozenParameterGate.get_full_params self free = Ok p.
Proof.
  intros Hinit Hlen Hfix Hfree.
  destruct (frozen_init_Ok _ _ _ Hinit)
    as (_ & Hkeys & _ & _ & _ & Hunfixed).
  assert (Hfl : length free = gate_num_params sub - base.size fixed).
  { rewrite <- (Forall2_length _ _ _ Hfree), Hunfixed.
    by apply unfixed_idxs_length. }
  destruct (get_full_params_general _ _ _ _ Hinit Hfl)
    as (full & Hrun & Hflen & Hffix & Hffree).
  rewrite Hrun. f_equal. apply list_eq. intros i.
  destruct (decide (i < gate_num_params sub)) as [Hi|Hi].
  2:{ rewrite !lookup_ge_None_2 by lia. reflexivity. }
  destruct (fixed !! Z.of_nat i) as [v|] eqn:Hv.
  - specialize (Hfix _ _ Hv). specialize (Hffix _ _ Hv).
    rewrite Nat2Z.id in Hfix, Hffix. congruence.
  - assert (Hin : i ∈ FrozenParameterGate.unfixed_param_idxs self).
    { rewrite Hunfixed. by apply unfixed_idxs_elem. }
    apply list_elem_of_lookup in Hin as [j Hj].
    destruct (Forall2_lookup_l _ _ _ _ _ Hfree Hj) as (x & Hx & Hpx).
    destruct (Forall2_lookup_l _ _ _ _ _ Hffree Hj) as (x' & Hx' & Hfx).
    congruence.
Qed.

(** X2. Freezing and rebuilding is a round trip: when a full parameter
    vector of the subgate carries the fixed values at the fixed indices,
    [get_full_params] applied to its entries at the unfixed indices gives
    the vector back. *)
Theorem get_full_params_rebuilds_vector
    (sub : Gate) (fixed : gmap Z R) (self : FrozenParameterGate.t)
    (free p : list R) :
  FrozenParameterGate.init sub fixed = Ok self →
  length p = gate_num_params sub →
  (∀ i v, fixed !! i = Some v → p !! Z.to_nat i = Some v) →
  Forall2 (λ i x, p !! i = Some x)
    (FrozenParameterGate.unfixed_param_idxs self) free →
  FrozenParameterGate.get_full_params self free = Ok p
  ∧ FrozenParameterGate.get_unitary self free = gate_get_unitary sub p.
Proof.
  intros Hinit Hlen Hfix Hfree.
  pose proof (frozen_full_params_unique _ _ _ _ _ Hinit Hlen Hfix Hfree)
    as Hrun.
  split; [exact Hrun|].
  unfold FrozenParameterGate.get_unitary. rewrite Hrun, bind_Ok.
  by destruct (frozen_init_Ok _ _ _ Hinit) as (_ & _ & -> & _).
Qed.

Lemma get_full_params_rebuilds_vector_witness :
  ∃ self,
    FrozenParameterGate.init three_phase_gate {[ 1%Z := 0.5%R ]} = Ok self
    ∧ FrozenParameterGate.get_full_params self [0.25; 0.75]%R
      = Ok [0.25; 0.5; 0.75]%R.
Proof.
  destruct (frozen_init_succeeds three_phase_gate {[ 1%Z := 0.5%R ]})
    as [self Hinit].
  { vm_compute. lia. }
  { intros k [v Hv]. apply lookup_singleton_Some in Hv as [<- _].
    vm_compute. split; discriminate || reflexivity. }
  exists self. split; [exact Hinit|].
  refine (proj1 (get_full_params_rebuilds_vector three_phase_gate
                   {[ 1%Z := 0.5%R ]} self [0.25; 0.75]%R
                   [0.25; 0.5; 0.75]%R Hinit eq_refl _ _)).
  - intros i v Hv. apply lookup_singleton_Some in Hv as [<- <-].
    reflexivity.
  - destruct (frozen_init_Ok _ _ _ Hinit) as (_ & _ & _ & _ & _ & ->).
    replace (filter _ (seq 0 (gate_num_params three_phase_gate)))
      with [0; 2] by (vm_compute; reflexivity).
    repeat constructor.
Defined.

(** ** [FrozenParameterGate.optimize] *)

Lemma filter_fmap_S (P : nat → Prop) `{∀ i, Decision (P i)} (l : list nat) :
  filter P (S <$> l) = S <$> filter (λ i, P (S i)) l.
Proof.
  induction l as [|x l IH]; [reflexivity|]. csimpl.
  destruct (decide (P (S x))).
  - rewrite !filter_cons_True by done. csimpl. by rewrite IH.
  - rewrite !filter_cons_False by done. exact IH.
Qed.

Lemma enumerate_select (U : list nat) (h : nat → nat) (p : list R) :
  Forall2 (λ i x, p !! i = Some x)
    (filter (λ i, h i ∈ U) (seq 0 (length p)))
    (omap (λ ip : nat * R,
             if bool_decide (ip.1 ∈ U) then Some ip.2 else None)
          (imap (λ i x, (h i, x)) p)).
Proof.
  revert h. induction p as [|x p IH]; intros h; [constructor|].
  simpl length. rewrite <- cons_seq, <- fmap_S_seq.
  assert (Hrest : Forall2 (λ i y, (x :: p) !! i = Some y)
            (S <$> filter (λ i, h (S i) ∈ U) (seq 0 (length p)))
            (omap (λ ip : nat * R,
                     if bool_decide (ip.1 ∈ U) then Some ip.2 else None)
                  (imap (λ i x, (h (S i), x)) p))).
  { apply Forall2_fmap_l. exact (IH (λ i, h (S i))). }
  cbn [imap omap list_omap fst snd].
  destruct (decide (h 0 ∈ U)) as [Hin|Hnin].
  - rewrite filter_cons_True by done. rewrite filter_fmap_S.
    rewrite bool_decide_eq_true_2 by done. by constructor.
  - rewrite filter_cons_False by done. rewrite filter_fmap_S.
    rewrite bool_decide_eq_false_2 by done. exact Hrest.
Qed.

Lemma frozen_optimize_selects (sub : Gate) (fixed : gmap Z R)
    (self : FrozenParameterGate.t) (env : matrix) (p : list R) :
  FrozenParameterGate.init sub fixed = Ok self →
  gate_optimize sub env = Ok p →
  length p = gate_num_params sub →
  ∃ free,
    FrozenParameterGate.optimize self env = Ok free
    ∧ Forall2 (λ i x, p !! i = Some x)
        (FrozenParameterGate.unfixed_param_idxs self) free.
Proof.
  intros Hinit Hopt Hlen.
  destruct (frozen_init_Ok _ _ _ Hinit)
    as (_ & _ & Hgate & _ & _ & Hunfixed).
  eexists. split.
  { unfold FrozenParameterGate.optimize. rewrite Hgate, Hopt, bind_Ok.
    reflexivity. }
  pose proof (enumerate_select
                (FrozenParameterGate.unfixed_param_idxs self) (λ i, i) p)
    as Hsel.
  cbn beta in Hsel. rewrite Hlen in Hsel.
  replace (filter _ (seq 0 (gate_num_params sub)))
    with (FrozenParameterGate.unfixed_param_idxs self) in Hsel; [exact Hsel|].
  rewrite Hunfixed at 1. apply filter_iff_in. intros i Hi.
  rewrite Hunfixed. rewrite unfixed_idxs_elem.
  apply elem_of_seq in Hi. split; [intros ?; split; [lia|done] | by intros []].
Qed.

(** X3. [optimize] returns the subgate's optimum restricted to the
    unfixed indices, in ascending index order, so it has the wrapper's
    number of parameters; and when that optimum carries the fixed values
    at the fixed indices, [get_full_params] rebuilds it from the result. *)
Theorem frozen_optimize_projects
    (sub : Gate) (fixed : gmap Z R) (self : FrozenParameterGate.t)
    (env : matrix) (p : list R) :
  FrozenParameterGate.init sub fixed = Ok self →
  gate_optimize sub env = Ok p →
  length p = gate_num_params sub →
  ∃ free,
    FrozenParameterGate.optimize self env = Ok free
    ∧ length free = FrozenParameterGate.num_params self
    ∧ Forall2 (λ i x, p !! i = Some x)
        (FrozenParameterGate.unfixed_param_idxs self) free
    ∧ ((∀ i v, fixed !! i = Some v → p !! Z.to_nat i = Some v) →
       FrozenParameterGate.get_full_params self free = Ok p).
Proof.
  intros Hinit Hopt Hlen.
  destruct (frozen_optimize_selects _ _ _ _ _ Hinit Hopt Hlen)
    as (free & Hrun & Hsel).
  destruct (frozen_init_Ok _ _ _ Hinit)
    as (_ & Hkeys & _ & _ & Hnum & Hunfixed).
  exists free. split; [exact Hrun|]. split; [|split; [exact Hsel|]].
  - rewrite <- (Forall2_length _ _ _ Hsel), Hunfixed, Hnum.
    by apply unfixed_idxs_length.
  - intros Hfix. by eapply frozen_full_params_unique.
Qed.

(** ** [with_all_frozen_params] *)

Lemma enumerate_fold_lookup (l : list R) (d : gmap Z R) (off : nat) (k : Z) :
  foldl (λ d (ix : Z * R), <[ix.1 := ix.2]> d) d
        (imap (λ i x, (Z.of_nat (off + i), x)) l) !! k
  = if decide (Z.of_nat off ≤ k < Z.of_nat (off + length l))%Z
    then l !! (Z.to_nat k - off)
    else d !! k.
Proof.
  revert d off. induction l as [|x l IH]; intros d off.
  - simpl. rewrite decide_False by lia. reflexivity.
  - cbn [imap foldl fst snd].
    rewrite (imap_ext _ (λ i x, (Z.of_nat (S off + i), x)))
      by (intros i y _; simpl; f_equal; lia).
    rewrite IH. simpl length.
    destruct (decide (Z.of_nat (S off) ≤ k < Z.of_nat (S off + length l))%Z)
      as [Hin|Hout].
    + rewrite decide_True by lia.
      replace (Z.to_nat k - off) with (S (Z.to_nat k - S off)) by lia.
      reflexivity.
    + destruct (decide (k = Z.of_nat (off + 0))) as [->|Hne].
      * rewrite lookup_insert_eq, decide_True by lia.
        replace (Z.to_nat (Z.of_nat (off + 0)) - off) with 0 by lia.
        reflexivity.
      * rewrite lookup_insert_ne by done.
        rewrite decide_False by lia. reflexivity.
Qed.

Lemma enumerate_dict_lookup (params : list R) (k : Z) :
  FrozenParameterGate.enumerate_dict params !! k
  = if decide (0 ≤ k)%Z then params !! Z.to_nat k else None.
Proof.
  unfold FrozenParameterGate.enumerate_dict.
  pose proof (enumerate_fold_lookup params ∅ 0 k) as H.
  cbn [Nat.add] in H. rewrite H, lookup_empty.
  destruct (decide (0 ≤ k)%Z) as [Hk|Hk].
  - rewrite Nat.sub_0_r.
    destruct (decide (Z.of_nat 0 ≤ k < Z.of_nat (length params))%Z);
      [reflexivity|].
    symmetry. apply lookup_ge_None_2. lia.
  - rewrite decide_False by lia. reflexivity.
Qed.

Lemma filter_none {A} (P : A → Prop) `{∀ x, Decision (P x)} (l : list A) :
  (∀ x, x ∈ l → ¬ P x) → filter P l = [].
Proof.
  induction l as [|x l IH]; intros Hl; [reflexivity|].
  rewrite filter_cons_False by (apply Hl; left).
  apply IH. intros y Hy. apply Hl. by right.
Qed.

(** X4. [with_all_frozen_params] on a vector with one value per subgate
    parameter gives a gate without parameters whose full parameter vector
    is that vector and whose unitary is the subgate's unitary there; a
    longer vector is rejected with [ValueError]. *)
Theorem with_all_frozen_params_is_constant (sub : Gate) (params : list R) :
  (length params = gate_num_params sub →
   ∃ self,
     FrozenParameterGate.with_all_frozen_params sub params = Ok self
     ∧ FrozenParameterGate.num_params self = 0
     ∧ FrozenParameterGate.get_full_params self [] = Ok params
     ∧ FrozenParameterGate.get_unitary self []
       = gate_get_unitary sub params)
  ∧ (gate_num_params sub < length params →
     FrozenParameterGate.with_all_frozen_params sub params
     = Raise ValueError).
Proof.
  unfold FrozenParameterGate.with_all_frozen_params.
  set (d := FrozenParameterGate.enumerate_dict params).
  assert (Hd : ∀ k, is_Some (d !! k)
                    ↔ (0 ≤ k < Z.of_nat (length params))%Z).
  { intros k. unfold d. rewrite enumerate_dict_lookup.
    destruct (decide (0 ≤ k)%Z) as [Hk|Hk].
    - rewrite lookup_lt_is_Some. lia.
    - split; [by intros [? ?] | lia]. }
  split.
  - intros Hlen.
    destruct (proj1 (frozen_init_succeeds_iff_keys_in_range_aux sub d))
      as [self Hinit].
    { intros k Hk. apply Hd in Hk. lia. }
    exists self. split; [exact Hinit|].
    destruct (frozen_init_Ok _ _ _ Hinit)
      as (_ & Hkeys & _ & _ & Hnum & Hunfixed).
    assert (Hnone : FrozenParameterGate.unfixed_param_idxs self = []).
    { rewrite Hunfixed. apply filter_none.
      intros i Hi. apply elem_of_seq in Hi.
      intros Hnone. apply eq_None_not_Some in Hnone. apply Hnone, Hd. lia. }
    assert (Hrun : FrozenParameterGate.get_full_params self [] = Ok params).
    { apply (frozen_full_params_unique sub d); [done|done| |].
      - intros i v Hv. unfold d in Hv. rewrite enumerate_dict_lookup in Hv.
        by destruct (decide (0 ≤ i)%Z).
      - rewrite Hnone. constructor. }
    split.
    { rewrite Hnum.
      pose proof (unfixed_idxs_length d (gate_num_params sub) Hkeys) as Hl.
      rewrite <- Hunfixed, Hnone in Hl. simpl in Hl. lia. }
    split; [exact Hrun|].
    unfold FrozenParameterGate.get_unitary. rewrite Hrun, bind_Ok.
    by destruct (frozen_init_Ok _ _ _ Hinit) as (_ & _ & -> & _).
  - intros Hlong.
    apply (proj2 (frozen_init_succeeds_iff_keys_in_range_aux sub d)).
    exists (Z.of_nat (gate_num_params sub)). split; [apply Hd; lia | lia].
Qed.

Lemma with_all_frozen_params_is_constant_witness :
  (∃ self,
     FrozenParameterGate.with_all_frozen_params U2Gate.as_gate
       [0.25; 0.75]%R = Ok self
     ∧ FrozenParameterGate.get_full_params self [] = Ok [0.25; 0.75]%R)
  ∧ FrozenParameterGate.with_all_frozen_params U2Gate.as_gate
      [0.25; 0.5; 0.75]%R = Raise ValueError.
Proof.
  split.
  - destruct (proj1 (with_all_frozen_params_is_constant U2Gate.as_gate
                       [0.25; 0.75]%R) eq_refl)
      as (self & Hinit & _ & Hrun & _).
    exists self. split; [exact Hinit | exact Hrun].
  - apply (proj2 (with_all_frozen_params_is_constant U2Gate.as_gate
                    [0.25; 0.5; 0.75]%R)).
    vm_compute. lia.
Defined.

Lemma frozen_optimize_projects_witness :
  ∃ self free,
    FrozenParameterGate.init two_phase_gate {[ 0%Z := 0.5%R ]} = Ok self
    ∧ FrozenParameterGate.optimize self (Np.identity 2) = Ok free
    ∧ length free = FrozenParameterGate.num_params self.
Proof.
  destruct (frozen_init_succeeds two_phase_gate {[ 0%Z := 0.5%R ]})
    as [self Hinit].
  { vm_compute. lia. }
  { intros k [v Hv]. apply lookup_singleton_Some in Hv as [<- _].
    vm_compute. split; discriminate || reflexivity. }
  destruct (frozen_optimize_projects two_phase_gate {[ 0%Z := 0.5%R ]}
              self (Np.identity 2) _ Hinit eq_refl eq_refl)
    as (free & Hrun & Hlen & _).
  exists self, free. split; [exact Hinit|]. split; [exact Hrun | exact Hlen].
Defined.

(** ** The frozen gate as a gate *)

Lemma frozen_get_grad_rows (sub : Gate) (fixed : gmap Z R)
    (self : FrozenParameterGate.t) (free : list R) :
  FrozenParameterGate.init sub fixed = Ok self →
  returns_one_grad_per_param sub →
  length free = FrozenParameterGate.num_params self →
  ∃ out, FrozenParameterGate.get_grad self free = Ok out
         ∧ length out = FrozenParameterGate.num_params self.
Proof.
  intros Hinit Hsub Hfree.
  destruct (frozen_init_Ok _ _ _ Hinit)
    as (_ & Hkeys & Hgate & _ & Hnum & Hunfixed).
  rewrite Hnum in Hfree.
  destruct (get_full_params_general _ _ _ _ Hinit Hfree)
    as (full & Hrun & Hlen & _ & _).
  destruct (Hsub full Hlen) as (grads & Hgrads & Hglen).
  destruct (rows_in_range grads
              (FrozenParameterGate.unfixed_param_idxs self)) as [out Hout].
  { rewrite Hunfixed. apply Forall_forall. intros i Hi.
    apply unfixed_idxs_elem in Hi as [Hi _]. lia. }
  exists out. split.
  - unfold FrozenParameterGate.get_grad.
    rewrite Hrun, bind_Ok, Hgate, Hgrads, bind_Ok.
    apply mapM_Ok_Forall2. eapply Forall2_impl; [exact Hout|].
    intros i o Ho. unfold Py.index. by rewrite Ho.
  - rewrite <- (Forall2_length _ _ _ Hout), Hunfixed, Hnum.
    by apply unfixed_idxs_length.
Qed.

(** X5. A frozen-parameter gate is again a gate of the same size and
    radixes, and it keeps the gradient part of the gate contract: when the
    subgate returns one derivative matrix per parameter, so does the
    wrapper. Wrappers can therefore be frozen again. *)
Theorem frozen_gate_keeps_contract
    (sub : Gate) (fixed : gmap Z R) (self : FrozenParameterGate.t) :
  FrozenParameterGate.init sub fixed = Ok self →
  returns_one_grad_per_param sub →
  gate_size (FrozenParameterGate.as_gate self) = gate_size sub
  ∧ gate_radixes (FrozenParameterGate.as_gate self) = gate_radixes sub
  ∧ gate_num_params (FrozenParameterGate.as_gate self)
    = gate_num_params sub - base.size fixed
  ∧ returns_one_grad_per_param (FrozenParameterGate.as_gate self).
Proof.
  intros Hinit Hsub.
  pose proof Hinit as Hshape. unfold FrozenParameterGate.init in Hshape.
  destruct (negb _) in Hshape; [discriminate|].
  destruct (negb _) in Hshape; [discriminate|].
  injection Hshape as <-.
  split; [reflexivity|]. split; [reflexivity|]. split; [reflexivity|].
  intros p Hp. by eapply (frozen_get_grad_rows sub fixed).
Qed.

Lemma frozen_gate_keeps_contract_witness :
  ∃ self,
    FrozenParameterGate.init U2Gate.as_gate {[ 0%Z := 0.5%R ]} = Ok self
    ∧ returns_one_grad_per_param (FrozenParameterGate.as_gate self).
Proof.
  destruct (frozen_init_succeeds U2Gate.as_gate {[ 0%Z := 0.5%R ]})
    as [self Hinit].
  { vm_compute. lia. }
  { intros k [v Hv]. apply lookup_singleton_Some in Hv as [<- _].
    vm_compute. split; discriminate || reflexivity. }
  exists self. split; [exact Hinit|].
  exact (proj2 (proj2 (proj2 (frozen_gate_keeps_contract U2Gate.as_gate
           {[ 0%Z := 0.5%R ]} self Hinit U2_get_grad_rows)))).
Defined.

(** ** [VariableLocationGate]: the constructed register *)

(** ** More on the construction of [VariableLocationGate] *)

Section VLG_more.
Variable is_valid_location : list nat → bool.

Lemma vlg_referenced_radix (g : Gate) (locs : list (list nat))
    (self : VariableLocationGate.t) (l : list nat) (j q r : nat) :
  VariableLocationGate.init is_valid_location g locs = Ok self →
  l ∈ locs → gate_radixes g !! j = Some r → l !! j = Some q →
  VariableLocationGate.radixes self !! q = Some r.
Proof.
  intros Hinit Hl Hr Hq.
  destruct (vlg_init_Ok _ _ _ _ Hinit)
    as (_ & _ & _ & maxes & top & rm & Hmaxes & Htop & Hrun & Hrs & _).
  pose proof (assign_radix_loop (radix_assignments g locs) _
                (assignments_are_keys g locs maxes top Hmaxes Htop))
    as Hloop.
  rewrite Hrun in Hloop. destruct Hloop as (Hkeys & Hset & _ & _).
  rewrite initial_radix_map_keys in Hkeys.
  assert (Hget : Py.dict_get rm q = Ok (Some r)).
  { apply Hset. apply radix_assignments_elem. by exists l, j. }
  assert (Hqlt : q < top + 1).
  { eapply locations_below_top; [exact Hmaxes|exact Htop|exact Hl|].
    by eapply list_elem_of_lookup_2. }
  assert (Hdkeys : (VariableLocationGate.default_radixes rm).*1
                   = seq 0 (top + 1)).
  { rewrite default_radixes_keys. exact Hkeys. }
  pose proof (default_radixes_get rm q) as Hdef. rewrite Hget in Hdef.
  destruct (dict_get_position _ _ q Hdkeys Hqlt) as (v & Hpos & Hv).
  rewrite Hdef in Hv by (rewrite Hkeys; apply NoDup_seq).
  injection Hv as <-.
  assert (Hval : Py.dict_values (VariableLocationGate.default_radixes rm)
                   !! q = Some (Some r)).
  { unfold Py.dict_values. by rewrite list_lookup_fmap, Hpos. }
  destruct (Forall2_lookup_l _ _ _ _ _ Hrs Hval) as (r' & Hr' & Heq).
  by injection Heq as <-.
Qed.

(** X6. In a constructed [VariableLocationGate] the declared radixes fit
    every candidate: the register position that a candidate gives to the
    subgate's [j]-th qudit has the subgate's [j]-th radix. *)
Theorem vlg_radixes_fit_candidates (g : Gate) (locs : list (list nat))
    (self : VariableLocationGate.t) (l : list nat) (j q r : nat) :
  VariableLocationGate.init is_valid_location g locs = Ok self →
  l ∈ locs → gate_radixes g !! j = Some r → l !! j = Some q →
  q < VariableLocationGate.size self
  ∧ VariableLocationGate.radixes self !! q = Some r.
Proof.
  intros Hinit Hl Hr Hq. split; [|by eapply vlg_referenced_radix].
  destruct (vlg_init_Ok _ _ _ _ Hinit)
    as (_ & _ & _ & maxes & top & rm & Hmaxes & Htop & _ & _
        & _ & _ & -> & _).
  eapply locations_below_top; [exact Hmaxes|exact Htop|exact Hl|].
  by eapply list_elem_of_lookup_2.
Qed.

(** X7. The register of a constructed [VariableLocationGate] is exactly
    as large as its candidates need: every qudit a candidate mentions is
    below [size], the qudit [size - 1] is mentioned by some candidate, and
    the register holds at least the subgate's qudits; there is one
    permutation matrix per candidate, each of dimension [2 ^ size], and
    the pad identity has dimension [2 ^ (size - subgate size)]. *)
Theorem vlg_register_is_tight (g : Gate) (locs : list (list nat))
    (self : VariableLocationGate.t) :
  VariableLocationGate.init is_valid_location g locs = Ok self →
  (∀ l q, l ∈ locs → q ∈ l → q < VariableLocationGate.size self)
  ∧ (∃ l, l ∈ locs ∧ VariableLocationGate.size self - 1 ∈ l)
  ∧ 0 < VariableLocationGate.size self
  ∧ gate_size g ≤ VariableLocationGate.size self
  ∧ length (VariableLocationGate.perms self) = length locs
  ∧ Forall (has_shape (2 ^ VariableLocationGate.size self)
                      (2 ^ VariableLocationGate.size self))
           (VariableLocationGate.perms self)
  ∧ has_shape (2 ^ (VariableLocationGate.size self - gate_size g))
              (2 ^ (VariableLocationGate.size self - gate_size g))
              (VariableLocationGate.I self).
Proof.
  intros Hinit.
  destruct (vlg_perms_shape _ _ _ _ Hinit) as (_ & Hplen & Hpshape).
  destruct (vlg_init_Ok _ _ _ _ Hinit)
    as (_ & _ & _ & maxes & top & rm & Hmaxes & Htop & _ & _
        & Hgs & _ & Hsize & _ & _ & HI & _).
  split; [|split; [|split; [|split; [|split; [|split]]]]];
    try done; try lia.
  - intros l q Hl Hq. rewrite Hsize. by eapply locations_below_top.
  - pose proof (py_max_elem _ _ Htop) as Hin.
    apply list_elem_of_lookup in Hin as [i Hi].
    apply mapM_Ok_Forall2 in Hmaxes.
    destruct (Forall2_lookup_r _ _ _ _ _ Hmaxes Hi) as (l & Hl & Hmax).
    exists l. split; [by eapply list_elem_of_lookup_2|].
    rewrite Hsize. replace (top + 1 - 1) with top by lia.
    by apply py_max_elem.
  - rewrite HI, Hsize. apply has_shape_identity.
Qed.

End VLG_more.

Lemma vlg_radixes_fit_candidates_witness :
  ∃ self,
    VariableLocationGate.init (λ _, true) qubit_qutrit_gate [[2; 0]] = Ok self
    ∧ VariableLocationGate.radixes self = [3; 2; 2]
    ∧ VariableLocationGate.radixes self !! 0 = Some 3.
Proof.
  eexists. split; [reflexivity|]. split; [reflexivity|].
  match goal with |- VariableLocationGate.radixes ?s !! _ = _ =>
    refine (proj2 (vlg_radixes_fit_candidates (λ _, true) qubit_qutrit_gate
                     [[2; 0]] s [2; 0] 1 0 3 eq_refl _ eq_refl eq_refl))
  end.
  left.
Defined.

Lemma vlg_register_is_tight_witness :
  ∃ self,
    VariableLocationGate.init (λ _, true) U2Gate.as_gate [[0]; [1]] = Ok self
    ∧ VariableLocationGate.size self = 2
    ∧ length (VariableLocationGate.perms self) = 2.
Proof.
  eexists. split; [reflexivity|]. split; [reflexivity|].
  match goal with |- length (VariableLocationGate.perms ?s) = _ =>
    destruct (vlg_register_is_tight (λ _, true) U2Gate.as_gate [[0]; [1]]
                s eq_refl) as (_ & _ & _ & _ & Hlen & _)
  end.
  exact Hlen.
Defined.

Lemma mapM_total {A B} (f : A → result B) (xs : list A) :
  Forall (λ x, ∃ y, f x = Ok y) xs → ∃ ys, mapM f xs = Ok ys.
Proof.
  induction 1 as [|x xs [y Hy] _ [ys IH]].
  - by exists [].
  - exists (y :: ys). simpl. by rewrite Hy, bind_Ok, IH.
Qed.

(** Without conflicting assignments the radix loop runs to its end. *)
Lemma assign_radix_loop_total (assigns : list (nat * nat))
    (rm : list (nat * option nat)) :
  (∀ r q, (r, q) ∈ assigns → q ∈ rm.*1) →
  (∀ r1 r2 q, (r1, q) ∈ assigns → (r2, q) ∈ assigns → r1 = r2) →
  (∀ q r r', Py.dict_get rm q = Ok (Some r) → (r', q) ∈ assigns → r' = r) →
  ∃ rm', for_each VariableLocationGate.assign_radix assigns rm = Ok rm'.
Proof.
  revert rm. induction assigns as [|[r q] assigns IH];
    intros rm Hkeys Hcons Hcompat; [by exists rm|].
  simpl. unfold VariableLocationGate.assign_radix at 1.
  destruct (dict_get_present rm q) as [cur Hcur]; [apply (Hkeys r); left|].
  rewrite Hcur, bind_Ok.
  destruct cur as [r0|].
  - assert (r = r0) as -> by (eapply Hcompat; [exact Hcur | left]).
    rewrite Nat.eqb_refl. cbn [negb]. rewrite bind_Ok.
    apply IH.
    + intros r' q' Hin. apply (Hkeys r'). by right.
    + intros r1 r2 q' H1 H2. eapply Hcons; by right.
    + intros q' r' r'' Hget Hin. eapply Hcompat; [exact Hget | by right].
  - rewrite bind_Ok. apply IH.
    + intros r' q' Hin. rewrite dict_set_keys by (apply (Hkeys r); left).
      apply (Hkeys r'). by right.
    + intros r1 r2 q' H1 H2. eapply Hcons; by right.
    + intros q' r' r'' Hget Hin. destruct (decide (q' = q)) as [->|Hne].
      * rewrite dict_get_set_eq in Hget. injection Hget as <-.
        eapply Hcons; [by right | left].
      * rewrite dict_get_set_ne in Hget by done.
        eapply Hcompat; [exact Hget | by right].
Qed.

Lemma nodup_below_length (l : list nat) (b : nat) :
  NoDup l → (∀ x, x ∈ l → x < b) → length l ≤ b.
Proof.
  intros Hnd Hb. assert (Hsub : l ⊆+ seq 0 b).
  { apply NoDup_submseteq; [exact Hnd|].
    intros x Hx. apply elem_of_seq. specialize (Hb x Hx). lia. }
  apply submseteq_length in Hsub. by rewrite length_seq in Hsub.
Qed.

(** X8. The constructor of [VariableLocationGate] succeeds on every
    non-empty list of well-typed, duplicate-free candidates of the
    subgate's (positive) size that never give one register position two
    different radixes. *)
Theorem vlg_init_succeeds
    (is_valid_location : list nat → bool) (g : Gate)
    (locs : list (list nat)) :
  forallb is_valid_location locs = true →
  locs ≠ [] →
  0 < gate_size g →
  Forall (λ l, length l = gate_size g ∧ NoDup l) locs →
  (∀ l1 l2 j1 j2 q r1 r2,
     l1 ∈ locs → l2 ∈ locs →
     gate_radixes g !! j1 = Some r1 → l1 !! j1 = Some q →
     gate_radixes g !! j2 = Some r2 → l2 !! j2 = Some q →
     r1 = r2) →
  ∃ self,
    VariableLocationGate.init is_valid_location g locs = Ok self
    ∧ VariableLocationGate.num_params self
      = gate_num_params g + length locs.
Proof.
  intros Hvalid Hne Hgs Hlocs Hcons.
  assert (Hinit : ∃ self,
            VariableLocationGate.init is_valid_location g locs = Ok self).
  2:{ destruct Hinit as [self Hinit]. exists self. split; [exact Hinit|].
      by destruct (vlg_init_Ok _ _ _ _ Hinit)
        as (_ & _ & _ & ? & ? & ? & _ & _ & _ & _ & _ & _ & _ & _ & ? & _). }
  rewrite Forall_forall in Hlocs.
  unfold VariableLocationGate.init. rewrite Hvalid. cbn [negb].
  replace (forallb (λ l, length l =? gate_size g) locs) with true.
  2:{ symmetry. apply forallb_forall. intros l Hl.
      apply Nat.eqb_eq, Hlocs. by apply list_elem_of_In. }
  cbn [negb].
  destruct (Nat.ltb_spec (length locs) 1) as [Hlt|_].
  { destruct locs; [done | simpl in Hlt; lia]. }
  destruct (mapM_total Py.max locs) as [maxes Hmaxes].
  { apply Forall_forall. intros l Hl. destruct (Hlocs l Hl) as [Hlen _].
    destruct l; [simpl in Hlen; lia | by eexists]. }
  rewrite Hmaxes, bind_Ok.
  assert (Hmlen : length maxes = length locs).
  { apply mapM_Ok_Forall2 in Hmaxes. symmetry. by eapply Forall2_length. }
  destruct (Py.max maxes) as [top|e] eqn:Htop.
  2:{ destruct maxes; [|discriminate]. destruct locs; [done|discriminate]. }
  rewrite bind_Ok, radix_loop_flat.
  pose proof (assignments_are_keys g locs maxes top Hmaxes Htop) as Hkeys.
  destruct (assign_radix_loop_total (radix_assignments g locs)
              (map (λ i, (i, None)) (seq 0 (top + 1)))) as [rm Hrun].
  { exact Hkeys. }
  { intros r1 r2 q H1 H2.
    apply radix_assignments_elem in H1 as (l1 & j1 & ? & ? & ?).
    apply radix_assignments_elem in H2 as (l2 & j2 & ? & ? & ?).
    by eapply (Hcons l1 l2 j1 j2 q). }
  { intros q r r' Hget Hin. exfalso.
    assert (Hq : q ∈ (map (λ i, (i, @None nat)) (seq 0 (top + 1))).*1)
      by (by eapply Hkeys).
    rewrite initial_radix_map_keys in Hq. apply elem_of_seq in Hq.
    rewrite initial_radix_map_get in Hget by lia. discriminate. }
  rewrite Hrun, bind_Ok.
  pose proof (assign_radix_loop (radix_assignments g locs) _ Hkeys) as Hloop.
  rewrite Hrun in Hloop. destruct Hloop as (Hrmkeys & _).
  rewrite initial_radix_map_keys in Hrmkeys.
  destruct (mapM_total
              (λ radix : option nat,
                 match radix with
                 | Some r => Ok r
                 | None => Raise TypeError
                 end)
              (Py.dict_values (VariableLocationGate.default_radixes rm)))
    as [rs Hrs].
  { apply Forall_forall. intros v Hv. unfold Py.dict_values in Hv.
    apply list_elem_of_fmap in Hv as ([k v'] & -> & Hin).
    assert (Hnd : NoDup (VariableLocationGate.default_radixes rm).*1).
    { rewrite default_radixes_keys, Hrmkeys. apply NoDup_seq. }
    pose proof (dict_get_elem _ _ _ Hnd Hin) as Hget.
    rewrite default_radixes_get in Hget by (rewrite Hrmkeys; apply NoDup_seq).
    simpl. destruct v' as [r|]; [by eexists|].
    by destruct (Py.dict_get rm k) as [[?|]|]. }
  rewrite Hrs, bind_Ok.
  destruct (Z.ltb_spec (Z.of_nat (top + 1) - Z.of_nat (gate_size g)) 0)
    as [Hneg|_]; [|by eexists].
  exfalso. destruct locs as [|l locs]; [done|].
  destruct (Hlocs l) as [Hlen Hnd]; [left|].
  assert (length l ≤ top + 1); [|lia].
  apply nodup_below_length; [exact Hnd|].
  intros q Hq. eapply locations_below_top; [exact Hmaxes|exact Htop|left|done].
Qed.

Lemma vlg_init_succeeds_witness :
  ∃ self,
    VariableLocationGate.init (λ _, true) qubit_qutrit_gate
      [[0; 1]; [2; 1]] = Ok self
    ∧ VariableLocationGate.num_params self = 2.
Proof.
  apply (vlg_init_succeeds (λ _, true) qubit_qutrit_gate [[0; 1]; [2; 1]]).
  - reflexivity.
  - discriminate.
  - vm_compute. lia.
  - repeat (apply Forall_cons; split;
              [split; [reflexivity | by apply (bool_decide_unpack _)]|]).
    constructor.
  - intros l1 l2 j1 j2 q r1 r2 Hl1 Hl2 Hr1 Hq1 Hr2 Hq2.
    assert (Hj : ∀ l j q', l ∈ [[0; 1]; [2; 1]] → l !! j = Some q' →
                 (j = 0 ∧ q' ≠ 1) ∨ (j = 1 ∧ q' = 1)).
    { intros l j q' Hl Hq'.
      apply elem_of_cons in Hl as [->|Hl];
        [|apply list_elem_of_singleton in Hl as ->];
        destruct j as [|[|j]]; simpl in Hq'; try discriminate;
        injection Hq' as <-; auto. }
    destruct (Hj _ _ _ Hl1 Hq1) as [[-> ?]|[-> ?]];
      destruct (Hj _ _ _ Hl2 Hq2) as [[-> ?]|[-> ?]];
      simpl in Hr1, Hr2; congruence.
Defined.


(** ** [VariableLocationGate.get_unitary_and_grad] *)

(** The run of [get_unitary_and_grad] on a constructed gate whose subgate
    returns a unitary of qubit dimension, up to the gradient of the
    subgate. *)
Lemma vlg_unitary_and_grad_steps
    (is_valid_location : list nat → bool)
    (g : Gate) (locs : list (list nat)) (self : VariableLocationGate.t)
    (params : list R) (G : UnitaryMatrix.t) :
  VariableLocationGate.init is_valid_location g locs = Ok self →
  length params = VariableLocationGate.num_params self →
  let a := take (gate_num_params g) params in
  let w := drop (gate_num_params g) params in
  let D := 2 ^ VariableLocationGate.size self in
  let P := weighted_perm_sum D (softmax w 10)
             (VariableLocationGate.perms self) in
  let GI := Np.kron (UnitaryMatrix.get_numpy G)
              (VariableLocationGate.I self) in
  gate_get_unitary g a = Ok G →
  has_shape (2 ^ gate_size g) (2 ^ gate_size g)
            (UnitaryMatrix.get_numpy G) →
  0 < D
  ∧ has_shape D D P
  ∧ has_shape D D GI
  ∧ (∀ d, has_shape (2 ^ gate_size g) (2 ^ gate_size g) d →
          has_shape D D (Np.kron d (VariableLocationGate.I self)))
  ∧ VariableLocationGate.get_unitary_and_grad self params
    = (dG ← gate_get_grad g a;
       dG ← mapM (λ d, Pd ← Np.matmul P d; Np.matmul Pd (Np.transpose P))
                 (map (λ d, Np.kron d (VariableLocationGate.I self)) dG);
       left ← mapM (λ perm, Np.matmul perm (Np.mm GI (Np.transpose P)))
                   (VariableLocationGate.perms self);
       right ← mapM (λ perm, Np.matmul (Np.mm P GI) (Np.transpose perm))
                    (VariableLocationGate.perms self);
       Ok (Np.mm P (Np.mm GI (Np.transpose P)),
           dG ++ zip_with (λ x y, Np.scal (Cx.of_R (10 * x)) y)
                   (softmax w 10)
                   (zip_with
                      (λ x y, Np.sub (Np.add x y)
                                (Np.scal (Cx.of_R 2)
                                   (Np.mm P (Np.mm GI (Np.transpose P)))))
                      left right))).
Proof.
  intros Hinit Hlen a w D P GI HG HGshape.
  destruct (vlg_init_Ok _ _ _ _ Hinit)
    as (_ & _ & Hne & maxes & top & rm & _ & _ & _ & _
        & Hgsize & Hgate & Hsize & _ & Hnum & HI & _).
  destruct (vlg_perms_shape _ _ _ _ Hinit) as (Hpne & Hplen & Hpshape).
  pose proof (pow2_pos (VariableLocationGate.size self)) as Hdpos.
  fold D in Hdpos, Hpshape.
  assert (HPshape : has_shape D D P) by apply has_shape_tabulate.
  assert (Hdim : 2 ^ gate_size g * 2 ^ (top + 1 - gate_size g) = D).
  { unfold D. rewrite <- Nat.pow_add_r, Hsize. f_equal. lia. }
  pose proof (has_shape_identity (2 ^ (top + 1 - gate_size g))) as HIshape.
  rewrite <- HI in HIshape.
  assert (Hkron : ∀ d, has_shape (2 ^ gate_size g) (2 ^ gate_size g) d →
            has_shape D D (Np.kron d (VariableLocationGate.I self))).
  { intros d Hd. rewrite <- Hdim. by apply has_shape_kron. }
  pose proof (Hkron _ HGshape) as HGIshape. fold GI in HGIshape.
  pose proof (has_shape_transpose D D P HPshape Hdpos) as HPTshape.
  pose proof (has_shape_mm D D D GI _ HGIshape HPTshape Hdpos) as HGPT.
  split; [exact Hdpos|]. split; [exact HPshape|]. split; [exact HGIshape|].
  split; [exact Hkron|].
  unfold VariableLocationGate.get_unitary_and_grad, check_parameters.
  rewrite decide_True by done. rewrite bind_Ok.
  unfold VariableLocationGate.split_params. rewrite Hgate. fold a w.
  rewrite (weighted_perms_is_sum D).
  2:{ exact Hpne. }
  2:{ exact Hpshape. }
  2:{ rewrite softmax_length. unfold w. rewrite length_drop. lia. }
  fold P. rewrite bind_Ok, HG, bind_Ok. fold GI.
  rewrite (matmul_Ok P GI), bind_Ok.
  2:{ by rewrite (has_shape_ncols _ _ _ HPshape),
                 (has_shape_nrows _ _ _ HGIshape). }
  rewrite (matmul_Ok GI), bind_Ok.
  2:{ by rewrite (has_shape_ncols _ _ _ HGIshape),
                 (has_shape_nrows _ _ _ HPTshape). }
  rewrite (matmul_Ok P), bind_Ok.
  2:{ by rewrite (has_shape_ncols _ _ _ HPshape),
                 (has_shape_nrows _ _ _ HGPT). }
  reflexivity.
Qed.

(** With subgate gradients of qubit dimension every product of
    [get_unitary_and_grad] is defined, which gives its result in closed
    form. *)
Lemma vlg_unitary_and_grad_closed
    (is_valid_location : list nat → bool)
    (g : Gate) (locs : list (list nat)) (self : VariableLocationGate.t)
    (params : list R) (G : UnitaryMatrix.t) (dG : list matrix) :
  VariableLocationGate.init is_valid_location g locs = Ok self →
  length params = VariableLocationGate.num_params self →
  let a := take (gate_num_params g) params in
  let w := drop (gate_num_params g) params in
  let D := 2 ^ VariableLocationGate.size self in
  let P := weighted_perm_sum D (softmax w 10)
             (VariableLocationGate.perms self) in
  let GI := Np.kron (UnitaryMatrix.get_numpy G)
              (VariableLocationGate.I self) in
  let PGPT := Np.mm P (Np.mm GI (Np.transpose P)) in
  gate_get_unitary g a = Ok G →
  has_shape (2 ^ gate_size g) (2 ^ gate_size g)
            (UnitaryMatrix.get_numpy G) →
  gate_get_grad g a = Ok dG →
  Forall (has_shape (2 ^ gate_size g) (2 ^ gate_size g)) dG →
  VariableLocationGate.get_unitary_and_grad self params
  = Ok (PGPT,
        map (λ d, Np.mm (Np.mm P (Np.kron d (VariableLocationGate.I self)))
                        (Np.transpose P)) dG
        ++ zip_with (λ x y, Np.scal (Cx.of_R (10 * x)) y)
             (softmax w 10)
             (zip_with
                (λ x y, Np.sub (Np.add x y) (Np.scal (Cx.of_R 2) PGPT))
                (map (λ perm, Np.mm perm (Np.mm GI (Np.transpose P)))
                     (VariableLocationGate.perms self))
                (map (λ perm, Np.mm (Np.mm P GI) (Np.transpose perm))
                     (VariableLocationGate.perms self)))).
Proof.
  intros Hinit Hlen a w D P GI PGPT HG HGshape HdG HdGshape.
  destruct (vlg_unitary_and_grad_steps _ g locs self params G Hinit Hlen
              HG HGshape) as (Hdpos & HPshape & HGIshape & Hkron & Hrun).
  fold a w D P GI in Hdpos, HPshape, HGIshape, Hkron, Hrun.
  destruct (vlg_perms_shape _ _ _ _ Hinit) as (_ & _ & Hpshape).
  fold D in Hpshape. rewrite Forall_forall in Hpshape, HdGshape.
  pose proof (has_shape_transpose D D P HPshape Hdpos) as HPTshape.
  pose proof (has_shape_mm D D D GI _ HGIshape HPTshape Hdpos) as HGPT.
  pose proof (has_shape_mm D D D P GI HPshape HGIshape Hdpos) as HPG.
  rewrite Hrun, HdG, bind_Ok.
  rewrite (mapM_all_Ok
    (λ d, Pd ← Np.matmul P d; Np.matmul Pd (Np.transpose P))
    (λ d, Np.mm (Np.mm P d) (Np.transpose P))), bind_Ok.
  2:{ intros d Hd. apply list_elem_of_fmap in Hd as (d0 & -> & Hd0).
      pose proof (Hkron d0 (HdGshape d0 Hd0)) as Hd.
      rewrite (matmul_Ok P), bind_Ok.
      2:{ by rewrite (has_shape_ncols _ _ _ HPshape),
                     (has_shape_nrows _ _ _ Hd). }
      apply matmul_Ok.
      rewrite (has_shape_ncols D D), (has_shape_nrows _ _ _ HPTshape);
        [done | by apply (has_shape_mm D D D) | done]. }
  rewrite (mapM_all_Ok
    (λ perm, Np.matmul perm (Np.mm GI (Np.transpose P)))
    (λ perm, Np.mm perm (Np.mm GI (Np.transpose P)))), bind_Ok.
  2:{ intros p Hp. apply matmul_Ok.
      by rewrite (has_shape_ncols _ _ _ (Hpshape p Hp)),
                 (has_shape_nrows _ _ _ HGPT). }
  rewrite (mapM_all_Ok
    (λ perm, Np.matmul (Np.mm P GI) (Np.transpose perm))
    (λ perm, Np.mm (Np.mm P GI) (Np.transpose perm))), bind_Ok.
  2:{ intros p Hp. apply matmul_Ok.
      pose proof (has_shape_transpose D D p (Hpshape p Hp) Hdpos) as HpT.
      by rewrite (has_shape_ncols _ _ _ HPG),
                 (has_shape_nrows _ _ _ HpT). }
  by rewrite map_map.
Qed.

(** Count and shapes of what [get_unitary_and_grad] returns. *)
Lemma vlg_grad_shapes
    (is_valid_location : list nat → bool)
    (g : Gate) (locs : list (list nat)) (self : VariableLocationGate.t)
    (params : list R) (G : UnitaryMatrix.t) (dG : list matrix) :
  VariableLocationGate.init is_valid_location g locs = Ok self →
  length params = VariableLocationGate.num_params self →
  gate_get_unitary g (take (gate_num_params g) params) = Ok G →
  has_shape (2 ^ gate_size g) (2 ^ gate_size g)
            (UnitaryMatrix.get_numpy G) →
  gate_get_grad g (take (gate_num_params g) params) = Ok dG →
  Forall (has_shape (2 ^ gate_size g) (2 ^ gate_size g)) dG →
  ∃ U grads,
    VariableLocationGate.get_unitary_and_grad self params = Ok (U, grads)
    ∧ VariableLocationGate.get_grad self params = Ok grads
    ∧ has_shape (2 ^ VariableLocationGate.size self)
                (2 ^ VariableLocationGate.size self) U
    ∧ length grads = length dG + length locs
    ∧ Forall (has_shape (2 ^ VariableLocationGate.size self)
                        (2 ^ VariableLocationGate.size self)) grads.
Proof.
  intros Hinit Hlen HG HGshape HdG HdGshape.
  pose proof (vlg_unitary_and_grad_closed _ g locs self params G dG
                Hinit Hlen HG HGshape HdG HdGshape) as Hrun.
  destruct (vlg_unitary_and_grad_steps _ g locs self params G Hinit Hlen
              HG HGshape) as (Hdpos & HPshape & HGIshape & Hkron & _).
  destruct (vlg_perms_shape _ _ _ _ Hinit) as (_ & Hplen & Hpshape).
  destruct (vlg_init_Ok _ _ _ _ Hinit)
    as (_ & _ & _ & _ & _ & _ & _ & _ & _ & _ & _ & _ & _ & _ & Hnum & _).
  set (D := 2 ^ VariableLocationGate.size self) in *.
  set (w := drop (gate_num_params g) params) in *.
  set (P := weighted_perm_sum D (softmax w 10)
              (VariableLocationGate.perms self)) in *.
  set (GI := Np.kron (UnitaryMatrix.get_numpy G)
               (VariableLocationGate.I self)) in *.
  pose proof (has_shape_transpose D D P HPshape Hdpos) as HPTshape.
  pose proof (has_shape_mm D D D GI _ HGIshape HPTshape Hdpos) as HGPT.
  pose proof (has_shape_mm D D D P GI HPshape HGIshape Hdpos) as HPG.
  pose proof (has_shape_mm D D D P _ HPshape HGPT Hdpos) as HPGPT.
  eexists _, _. split; [exact Hrun|].
  split; [unfold VariableLocationGate.get_grad; by rewrite Hrun|].
  split; [exact HPGPT|]. split.
  - rewrite length_app, length_map, !length_zip_with, !length_map.
    rewrite softmax_length. unfold w. rewrite length_drop. lia.
  - rewrite Forall_forall in Hpshape, HdGshape.
    apply Forall_app. split; apply Forall_forall; intros m Hm.
    + apply list_elem_of_fmap in Hm as (d & -> & Hd).
      apply (has_shape_mm D D D); [|exact HPTshape|exact Hdpos].
      apply (has_shape_mm D D D); [exact HPshape| |exact Hdpos].
      by apply Hkron, HdGshape.
    + apply list_elem_of_lookup in Hm as [i Hi].
      apply lookup_zip_with_Some in Hi as (x & y & -> & _ & Hy).
      apply lookup_zip_with_Some in Hy as (lft & rgt & -> & Hl & Hr).
      apply list_lookup_fmap_Some in Hl as (p & -> & Hp).
      apply list_lookup_fmap_Some in Hr as (p' & -> & Hp').
      apply list_elem_of_lookup_2 in Hp, Hp'.
      apply has_shape_scal, has_shape_sub; [|by apply has_shape_scal].
      apply has_shape_add.
      * by apply (has_shape_mm D D D); [apply Hpshape| |].
      * apply (has_shape_mm D D D); [exact HPG| |exact Hdpos].
        apply has_shape_transpose; [by apply Hpshape|exact Hdpos].
Qed.

(** X9. On a constructed gate whose subgate returns a unitary and
    gradient entries of qubit dimension, [get_unitary_and_grad] succeeds:
    its matrix is square of the register's dimension, and its gradient
    holds one matrix of that shape per subgate gradient entry followed by
    one per candidate location; [get_grad] returns that same list. *)
Theorem vlg_grad_one_matrix_per_parameter
    (is_valid_location : list nat → bool)
    (g : Gate) (locs : list (list nat)) (self : VariableLocationGate.t)
    (params : list R) (G : UnitaryMatrix.t) (dG : list matrix) :
  VariableLocationGate.init is_valid_location g locs = Ok self →
  length params = VariableLocationGate.num_params self →
  gate_get_unitary g (take (gate_num_params g) params) = Ok G →
  has_shape (2 ^ gate_size g) (2 ^ gate_size g)
            (UnitaryMatrix.get_numpy G) →
  gate_get_grad g (take (gate_num_params g) params) = Ok dG →
  Forall (has_shape (2 ^ gate_size g) (2 ^ gate_size g)) dG →
  ∃ U grads,
    VariableLocationGate.get_unitary_and_grad self params = Ok (U, grads)
    ∧ VariableLocationGate.get_grad self params = Ok grads
    ∧ has_shape (2 ^ VariableLocationGate.size self)
                (2 ^ VariableLocationGate.size self) U
    ∧ length grads = length dG + length locs
    ∧ Forall (has_shape (2 ^ VariableLocationGate.size self)
                        (2 ^ VariableLocationGate.size self)) grads.
Proof.
  exact (vlg_grad_shapes is_valid_location g locs self params G dG).
Qed.

Lemma vlg_grad_one_matrix_per_parameter_witness :
  ∃ self U grads,
    VariableLocationGate.init (λ _, true) U2Gate.as_gate [[0]; [1]] = Ok self
    ∧ VariableLocationGate.get_unitary_and_grad self [0; 0; 1; 2]%R
      = Ok (U, grads)
    ∧ VariableLocationGate.get_grad self [0; 0; 1; 2]%R = Ok grads
    ∧ has_shape 4 4 U
    ∧ length grads = 4
    ∧ Forall (has_shape 4 4) grads.
Proof.
  destruct (vlg_grad_one_matrix_per_parameter (λ _, true) U2Gate.as_gate
              [[0]; [1]] u2_on_either_qubit [0; 0; 1; 2]%R _
              (U2Gate.grad_array 0 0)
              u2_on_either_qubit_init eq_refl (U2_get_unitary_Ok 0 0))
    as (U & grads & Hrun & Hgrad & HU & Hlen & Hshape).
  - split; [reflexivity|]. repeat constructor.
  - reflexivity.
  - repeat constructor.
  - exists u2_on_either_qubit, U, grads.
    split; [apply u2_on_either_qubit_init|]. split; [exact Hrun|].
    split; [exact Hgrad|]. split; [exact HU|]. split; [exact Hlen|].
    exact Hshape.
Defined.

(** X10. [get_unitary] is the projection of what [get_unitary_and_grad]
    returns as its unitary: on a constructed gate over a subgate of qubit
    dimension, whenever [get_unitary_and_grad] returns [(U, grads)],
    [get_unitary] returns [closest_to U radixes]; the two methods group
    the product [P · (G ⊗ I) · Pᵀ] differently, to the same matrix. *)
Theorem vlg_get_unitary_projects_unitary_and_grad
    (is_valid_location : list nat → bool)
    (closest_to : matrix → list nat → result UnitaryMatrix.t)
    (g : Gate) (locs : list (list nat)) (self : VariableLocationGate.t)
    (params : list R) (G : UnitaryMatrix.t) (U : matrix)
    (grads : list matrix) :
  VariableLocationGate.init is_valid_location g locs = Ok self →
  length params = VariableLocationGate.num_params self →
  gate_get_unitary g (take (gate_num_params g) params) = Ok G →
  has_shape (2 ^ gate_size g) (2 ^ gate_size g)
            (UnitaryMatrix.get_numpy G) →
  VariableLocationGate.get_unitary_and_grad self params = Ok (U, grads) →
  VariableLocationGate.get_unitary closest_to self params
  = closest_to U (VariableLocationGate.radixes self).
Proof.
  intros Hinit Hlen HG HGshape Hrun.
  destruct (vlg_unitary_and_grad_steps _ g locs self params G Hinit Hlen
              HG HGshape) as (Hdpos & HPshape & HGIshape & _ & Hsteps).
  destruct (vlg_get_unitary_steps _ closest_to g locs self params Hinit Hlen)
    as (_ & _ & _ & _ & Hunitary).
  rewrite (Hunitary G HG).
  2:{ rewrite (has_shape_shape _ _ _ HGshape).
      pose proof (pow2_pos (gate_size g)).
      by rewrite decide_False by lia. }
  rewrite Hsteps in Hrun.
  apply bind_Ok_inv in Hrun as (dG & _ & Hrun).
  apply bind_Ok_inv in Hrun as (dG' & _ & Hrun).
  apply bind_Ok_inv in Hrun as (lft & _ & Hrun).
  apply bind_Ok_inv in Hrun as (rgt & _ & Hrun).
  injection Hrun as <- _. f_equal.
  eapply mm_assoc; [exact HPshape | exact HGIshape | | exact Hdpos
                    | exact Hdpos].
  by apply has_shape_transpose.
Qed.

Lemma vlg_get_unitary_projects_unitary_and_grad_witness :
  ∃ self U grads,
    VariableLocationGate.init (λ _, true) U2Gate.as_gate [[0]; [1]] = Ok self
    ∧ VariableLocationGate.get_unitary_and_grad self [0; 0; 0; 0]%R
      = Ok (U, grads)
    ∧ VariableLocationGate.get_unitary UnitaryMatrix.init self [0; 0; 0; 0]%R
      = UnitaryMatrix.init U (VariableLocationGate.radixes self).
Proof.
  destruct worked_unitary_and_grad as [dM Hrun].
  exists u2_on_either_qubit, Worked.PGPT, dM.
  split; [apply u2_on_either_qubit_init|]. split; [exact Hrun|].
  apply (vlg_get_unitary_projects_unitary_and_grad (λ _, true)
           UnitaryMatrix.init U2Gate.as_gate [[0]; [1]] u2_on_either_qubit
           [0; 0; 0; 0]%R _ Worked.PGPT dM u2_on_either_qubit_init eq_refl
           (U2_get_unitary_Ok 0 0)); [|exact Hrun].
  split; [reflexivity|]. repeat constructor.
Defined.







(** X12. [U2Gate] meets what [VariableLocationGate] needs of its
    subgate: on every gate constructed over [U2Gate] and every parameter
    vector of the gate's length, [get_unitary_and_grad] succeeds and
    returns one gradient matrix per parameter, each of the register's
    dimension. *)
Theorem vlg_over_U2_grad_is_total
    (is_valid_location : list nat → bool)
    (locs : list (list nat)) (self : VariableLocationGate.t)
    (params : list R) :
  VariableLocationGate.init is_valid_location U2Gate.as_gate locs = Ok self →
  length params = VariableLocationGate.num_params self →
  ∃ U grads,
    VariableLocationGate.get_unitary_and_grad self params = Ok (U, grads)
    ∧ has_shape (2 ^ VariableLocationGate.size self)
                (2 ^ VariableLocationGate.size self) U
    ∧ length grads = length params
    ∧ Forall (has_shape (2 ^ VariableLocationGate.size self)
                        (2 ^ VariableLocationGate.size self)) grads.
Proof.
  intros Hinit Hlen.
  destruct (vlg_init_Ok _ _ _ _ Hinit)
    as (_ & _ & _ & _ & _ & _ & _ & _ & _ & _ & _ & _ & _ & _ & Hnum & _).
  assert (Ha : ∃ p0 p1,
            take (gate_num_params U2Gate.as_gate) params = [p0; p1]).
  { assert (Hl : length (take (gate_num_params U2Gate.as_gate) params) = 2).
    { rewrite length_take, Hlen, Hnum. simpl. lia. }
    destruct (take _ params) as [|p0 [|p1 [|]]]; try discriminate.
    by exists p0, p1. }
  destruct Ha as (p0 & p1 & Ha).
  destruct (vlg_grad_shapes is_valid_location U2Gate.as_gate locs self params
              {| UnitaryMatrix.numpy := U2Gate.unitary_array p0 p1;
                 UnitaryMatrix.radixes := [2%nat] |}
              (U2Gate.grad_array p0 p1) Hinit Hlen)
    as (U & grads & Hrun & _ & HU & Hcount & Hshape).
  - rewrite Ha. apply U2_get_unitary_Ok.
  - split; [reflexivity|]. repeat constructor.
  - by rewrite Ha.
  - repeat constructor.
  - exists U, grads. split; [exact Hrun|]. split; [exact HU|].
    split; [|exact Hshape].
    rewrite Hcount, Hlen, Hnum. reflexivity.
Qed.

Lemma vlg_over_U2_grad_is_total_witness :
  ∃ U grads,
    VariableLocationGate.get_unitary_and_grad u2_on_either_qubit
      [0; 0; 3; 4]%R = Ok (U, grads)
    ∧ length grads = 4.
Proof.
  destruct (vlg_over_U2_grad_is_total (λ _, true) [[0]; [1]]
              u2_on_either_qubit [0; 0; 3; 4]%R
              u2_on_either_qubit_init eq_refl)
    as (U & grads & Hrun & _ & Hcount & _).
  exists U, grads. split; [exact Hrun | exact Hcount].
Defined.

(** ** [U2Gate], [CZGate] and [SqrtTGate] as matrices *)

Section Gate_matrices.
Local Open Scope R_scope.

(** X13. The array [U2Gate.get_unitary] hands to [UnitaryMatrix] is
    exactly unitary at every pair of angles: [U · U† = I] and
    [U† · U = I]. *)
Theorem U2_array_exactly_unitary (p0 p1 : R) :
  Np.mm (U2Gate.unitary_array p0 p1)
        (UnitaryMatrix.dagger (U2Gate.unitary_array p0 p1))
  = Np.identity 2
  ∧ Np.mm (UnitaryMatrix.dagger (U2Gate.unitary_array p0 p1))
          (U2Gate.unitary_array p0 p1)
    = Np.identity 2.
Proof.
  unfold U2Gate.unitary_array. rewrite !Cexp_j.
  pose proof (cos_sin_sq p0) as H0. pose proof (cos_sin_sq p1) as H1.
  pose proof half_sqrt2_sq as Hs.
  set (c0 := cos p0) in *. set (s0 := sin p0) in *.
  set (c1 := cos p1) in *. set (s1 := sin p1) in *.
  set (s := sqrt 2 / 2) in *.
  assert (H0' : c0 * c0 = 1 - s0 * s0) by lra.
  assert (H1' : c1 * c1 = 1 - s1 * s1) by lra.
  rewrite identity_2. split; cbn; cx_entries.
  all: try (ring_simplify [H0' H1' Hs]; lra).
  all: ring [H0' H1' Hs].
Qed.

Lemma cos_shift (x : R) : cos (x + 2 * PI) = cos x.
Proof. rewrite cos_plus, cos_2PI, sin_2PI. lra. Qed.

Lemma sin_shift (x : R) : sin (x + 2 * PI) = sin x.
Proof. rewrite sin_plus, cos_2PI, sin_2PI. lra. Qed.

(** X14. Both parameters of [U2Gate] are angles: shifting either by
    [2π] changes neither the array of [get_unitary] nor that of
    [get_grad]. *)
Theorem U2_is_periodic (p0 p1 : R) :
  U2Gate.unitary_array (p0 + 2 * PI) p1 = U2Gate.unitary_array p0 p1
  ∧ U2Gate.unitary_array p0 (p1 + 2 * PI) = U2Gate.unitary_array p0 p1
  ∧ U2Gate.grad_array (p0 + 2 * PI) p1 = U2Gate.grad_array p0 p1
  ∧ U2Gate.grad_array p0 (p1 + 2 * PI) = U2Gate.grad_array p0 p1.
Proof.
  unfold U2Gate.unitary_array, U2Gate.grad_array.
  rewrite !Cexp_j, !cos_shift, !sin_shift. by repeat split.
Qed.

(** X15. The gradient of [U2Gate] in generator form: the derivative in
    the first angle is [diag(0, i) · U], the derivative in the second is
    [U · diag(0, i)]. *)
Theorem U2_grad_generator_form (p0 p1 : R) :
  let Z := [[Cx.zero; Cx.zero]; [Cx.zero; Cx.j]] in
  U2Gate.grad_array p0 p1
  = [Np.mm Z (U2Gate.unitary_array p0 p1);
     Np.mm (U2Gate.unitary_array p0 p1) Z].
Proof.
  unfold U2Gate.unitary_array, U2Gate.grad_array. rewrite !Cexp_j.
  cbn. unfold Cx.j. cx_entries; ring.
Qed.

Lemma allclose_refl (a : matrix) :
  UnitaryMatrix.allclose a a UnitaryMatrix.tol = true.
Proof.
  unfold UnitaryMatrix.allclose. rewrite bool_decide_eq_true_2 by done.
  simpl. apply forallb_forall. intros [r1 r2] Hr.
  apply list_elem_of_In, list_elem_of_lookup in Hr as [i Hi].
  apply lookup_zip_with_Some in Hi as (x & y & Heq & Hx & Hy).
  injection Heq as -> ->.
  assert (x = y) as -> by congruence.
  apply forallb_forall. intros [z1 z2] Hz. cbn [fst snd] in Hz.
  apply list_elem_of_In, list_elem_of_lookup in Hz as [k Hk].
  apply lookup_zip_with_Some in Hk as (u & v & Heq & Hu & Hv).
  injection Heq as -> ->.
  assert (u = v) as -> by congruence.
  apply bool_decide_eq_true. by apply close_of_eq.
Qed.

(** X16. The class body of [CZGate] builds its unitary without error,
    over two qubits; the matrix is real and symmetric, and it is its
    own inverse. *)
Theorem CZ_is_a_self_inverse_unitary :
  CZGate.utry
  = Ok {| UnitaryMatrix.numpy := CZGate.utry_array;
          UnitaryMatrix.radixes := [2%nat; 2%nat] |}
  ∧ UnitaryMatrix.dagger CZGate.utry_array = CZGate.utry_array
  ∧ Np.transpose CZGate.utry_array = CZGate.utry_array
  ∧ Np.mm CZGate.utry_array CZGate.utry_array = Np.identity 4.
Proof.
  assert (Hdag : UnitaryMatrix.dagger CZGate.utry_array = CZGate.utry_array).
  { cbn. cx_entries. }
  assert (Hsq : Np.mm CZGate.utry_array CZGate.utry_array = Np.identity 4).
  { change (Np.identity 4)
      with [[Cx.one; Cx.zero; Cx.zero; Cx.zero];
            [Cx.zero; Cx.one; Cx.zero; Cx.zero];
            [Cx.zero; Cx.zero; Cx.one; Cx.zero];
            [Cx.zero; Cx.zero; Cx.zero; Cx.one]].
    cbn. cx_entries. }
  split; [|split; [exact Hdag|split; [reflexivity|exact Hsq]]].
  unfold CZGate.utry, UnitaryMatrix.init, UnitaryMatrix.is_unitary.
  rewrite Hdag, Hsq.
  change (Np.nrows CZGate.utry_array) with 4%nat.
  rewrite allclose_refl. reflexivity.
Qed.

Lemma SqrtT_phase : SqrtTGate.phase = (cos (PI / 8), sin (PI / 8)).
Proof.
  unfold SqrtTGate.phase, Cx.exp, Cx.div, Cx.mul, Cx.j, Cx.of_R, Cx.re, Cx.im.
  cbn [fst snd].
  replace ((_ * 8 + _ * 0) / _) with 0 by (field; lra).
  replace ((_ * 8 - _ * 0) / _) with (PI / 8) by (field; lra).
  rewrite exp_0. f_equal; lra.
Qed.

(** X17. The class body of [SqrtTGate] builds its unitary without
    error, over one qubit, and the gate is a square root of the T
    gate: its square is [diag(1, e^{iπ/4})]. *)
Theorem SqrtT_squares_to_T :
  SqrtTGate._utry
  = Ok {| UnitaryMatrix.numpy := SqrtTGate.utry_array;
          UnitaryMatrix.radixes := [2%nat] |}
  ∧ Np.mm SqrtTGate.utry_array SqrtTGate.utry_array
    = [ [Cx.of_R 1; Cx.of_R 0];
        [Cx.of_R 0;
         Cx.exp (Cx.div (Cx.mul Cx.j (Cx.of_R PI)) (Cx.of_R 4))] ].
Proof.
  split.
  - unfold SqrtTGate._utry, UnitaryMatrix.init.
    replace (UnitaryMatrix.is_unitary SqrtTGate.utry_array) with true;
      [reflexivity|].
    symmetry. unfold UnitaryMatrix.is_unitary, SqrtTGate.utry_array.
    rewrite SqrtT_phase.
    replace (Np.mm _ _) with [[Cx.one; Cx.zero]; [Cx.zero; Cx.one]];
      [apply allclose_refl|].
    pose proof (cos_sin_sq (PI / 8)) as H.
    cbn. cx_entries.
  - unfold SqrtTGate.utry_array. rewrite SqrtT_phase.
    replace (Cx.exp _) with (cos (PI / 4), sin (PI / 4)).
    2:{ unfold Cx.exp, Cx.div, Cx.mul, Cx.j, Cx.of_R, Cx.re, Cx.im.
        cbn [fst snd].
        replace ((_ * 4 + _ * 0) / _) with 0 by (field; lra).
        replace ((_ * 4 - _ * 0) / _) with (PI / 4) by (field; lra).
        rewrite exp_0. f_equal; lra. }
    replace (PI / 4) with (2 * (PI / 8)) by lra.
    rewrite cos_2a, sin_2a.
    cbn. cx_entries; ring.
Qed.

End Gate_matrices.

(** ** [StateVector]: what a constructed state satisfies *)

Lemma product_replicate (k r : nat) : product (replicate k r) = r ^ k.
Proof.
  unfold product. induction k as [|k IH]; [reflexivity|].
  simpl. by rewrite IH.
Qed.

Lemma land_pred_pow2 (k : nat) : Nat.land (2 ^ k) (2 ^ k - 1) = 0.
Proof.
  replace (2 ^ k - 1) with (Nat.ones k)
    by (rewrite Nat.ones_equiv; lia).
  rewrite Nat.land_ones. apply Nat.Div0.mod_same.
Qed.

(** [d & (d - 1) == 0] holds of a positive [d] only when [d] is a power
    of two. *)
Lemma land_pred_zero (d : nat) :
  0 < d → Nat.land d (d - 1) = 0 → d = 2 ^ Nat.log2 d.
Proof.
  intros Hd Hland.
  destruct (Nat.log2_spec d Hd) as [Hlo Hhi].
  destruct (decide (d = 2 ^ Nat.log2 d)) as [|Hne]; [done|]. exfalso.
  assert (Hlog : Nat.log2 (d - 1) = Nat.log2 d).
  { apply Nat.log2_unique; [lia|]. split; lia. }
  assert (Hbit : Nat.testbit (Nat.land d (d - 1)) (Nat.log2 d) = true).
  { rewrite Nat.land_spec, Nat.bit_log2 by lia.
    rewrite <- Hlog. rewrite Nat.bit_log2; [reflexivity|].
    pose proof (Nat.pow_nonzero 2 (Nat.log2 d)). lia. }
  rewrite Hland in Hbit. by rewrite Nat.bits_0 in Hbit.
Qed.

Lemma pow3_not_pow2 (k l : nat) : 0 < k → 3 ^ k ≠ 2 ^ l.
Proof.
  intros Hk Heq. destruct l as [|l].
  - pose proof (Nat.pow_gt_lin_r 3 k). simpl in Heq. lia.
  - apply (f_equal Nat.odd) in Heq.
    rewrite !Nat.odd_pow in Heq by lia. discriminate.
Qed.

Lemma land_pred_pow3 (k : nat) :
  0 < k → Nat.land (3 ^ k) (3 ^ k - 1) ≠ 0.
Proof.
  intros Hk Hland. apply land_pred_zero in Hland.
  - by apply pow3_not_pow2 in Hland.
  - pose proof (Nat.pow_nonzero 3 k). lia.
Qed.

Lemma log3_Some (d k : nat) : StateVector.log3 d = Some k → 3 ^ k = d.
Proof.
  unfold StateVector.log3. intros H. apply find_some in H as [_ H].
  by apply Nat.eqb_eq.
Qed.

Lemma log3_pow (k : nat) : StateVector.log3 (3 ^ k) = Some k.
Proof.
  destruct (StateVector.log3 (3 ^ k)) as [j|] eqn:Hfind.
  - apply log3_Some in Hfind. f_equal.
    by apply (Nat.pow_inj_r 3); [lia|].
  - exfalso. unfold StateVector.log3 in Hfind.
    pose proof (find_none _ _ Hfind k) as Hk. cbn beta in Hk.
    rewrite Nat.eqb_refl in Hk.
    assert (false = true); [|discriminate]. symmetry. apply Hk.
    apply in_seq. pose proof (Nat.pow_gt_lin_r 3 k). lia.
Qed.

Section StateVector_more.
Local Open Scope R_scope.
Variable is_vector : list C → bool.
Variable is_valid_radixes : list nat → bool.

Lemma pure_state_norm (v : list C) :
  StateVector.is_pure_state is_vector (StateVector.OfArray v)
    StateVector.default_tol = true
  ↔ is_vector v = true
    ∧ Rabs (StateVector.sum_square_abs v - 1) <= StateVector.default_tol.
Proof.
  unfold StateVector.is_pure_state, StateVector.allclose.
  destruct (is_vector v); cbn [negb]; [|by intuition].
  rewrite Rmult_0_l, Rplus_0_r.
  destruct (bool_decide _) eqn:Hclose; cbn [negb].
  - apply bool_decide_eq_true in Hclose. by intuition.
  - apply bool_decide_eq_false in Hclose. split; [done|]. by intros [_ ?].
Qed.


(** The radix tuple the constructor settles on: the one supplied, else
    all twos for a power-of-two dimension, else all threes for a power of
    three. *)
Lemma StateVector_init_array (v : list C) (rs : list nat) :
  StateVector.init is_vector is_valid_radixes (StateVector.OfArray v) rs
  = if negb (StateVector.is_pure_state is_vector (StateVector.OfArray v)
               StateVector.default_tol)
    then Raise TypeError
    else
      rs' ← (if negb (bool_decide (rs = [])) then Ok rs
             else if Nat.eqb (Nat.land (length v) (length v - 1)) 0
             then Ok (replicate (Nat.log2 (length v)) 2%nat)
             else match StateVector.log3 (length v) with
                  | Some k => Ok (replicate k 3%nat)
                  | None => Raise TypeError
                  end);
      if negb (is_valid_radixes rs') then Raise TypeError
      else if negb (bool_decide (product rs' = length v))
      then Raise ValueError
      else Ok {| StateVector.vec := v; StateVector.dim := length v;
                 StateVector.radixes := rs';
                 StateVector.size := length rs' |}.
Proof. reflexivity. Qed.


Lemma StateVector_init_Ok_inv (v : list C) (rs : list nat)
    (s : StateVector.t) :
  StateVector.init is_vector is_valid_radixes (StateVector.OfArray v) rs
  = Ok s →
  StateVector.is_pure_state is_vector (StateVector.OfArray v)
    StateVector.default_tol = true
  ∧ is_valid_radixes (StateVector.radixes s) = true
  ∧ product (StateVector.radixes s) = length v
  ∧ (rs ≠ [] → StateVector.radixes s = rs)
  ∧ s = {| StateVector.vec := v; StateVector.dim := length v;
           StateVector.radixes := StateVector.radixes s;
           StateVector.size := length (StateVector.radixes s) |}.
Proof.
  rewrite StateVector_init_array.
  destruct (StateVector.is_pure_state _ _ _) eqn:Hpure; cbn [negb];
    [|discriminate].
  intros Hrun. apply bind_Ok_inv in Hrun as (rs' & Hrs' & Hrun).
  destruct (is_valid_radixes rs') eqn:Hvalid; cbn [negb] in Hrun;
    [|discriminate].
  destruct (bool_decide (product rs' = length v)) eqn:Hprod;
    cbn [negb] in Hrun; [|discriminate].
  apply bool_decide_eq_true in Hprod.
  injection Hrun as <-. cbn [StateVector.radixes].
  split; [reflexivity|]. split; [exact Hvalid|]. split; [exact Hprod|].
  split; [|reflexivity].
  intros Hne. rewrite bool_decide_eq_false_2 in Hrs' by done.
  cbn [negb] in Hrs'. by injection Hrs' as <-.
Qed.

Lemma probs_sum (v : list C) :
  foldr Rplus 0 (map (λ z, Cx.abs z ^ 2) v) = StateVector.sum_square_abs v.
Proof.
  unfold StateVector.sum_square_abs. induction v as [|z v IH];
    [reflexivity|].
  simpl. simpl in IH. rewrite IH. ring.
Qed.

Lemma nonneg_elem_le_sum (xs : list R) (x : R) :
  Forall (λ y, 0 <= y) xs → x ∈ xs → x <= foldr Rplus 0 xs.
Proof.
  induction 1 as [|y ys Hy Hys IH]; intros Hx;
    [by apply elem_of_nil in Hx|].
  assert (0 <= foldr Rplus 0 ys).
  { clear IH Hx. induction Hys as [|z zs Hz _ IHz]; simpl; lra. }
  simpl. apply elem_of_cons in Hx as [->|Hx]; [lra|].
  specialize (IH Hx). lra.
Qed.


(** X19. The probabilities of a constructed state: one per basis state,
    each between 0 and [1 + 1e-8], summing to 1 within [1e-8]. *)
Theorem StateVector_get_probs_distribution (v : list C) (rs : list nat)
    (s : StateVector.t) :
  StateVector.init is_vector is_valid_radixes (StateVector.OfArray v) rs
  = Ok s →
  length (StateVector.get_probs s) = StateVector.get_dim s
  ∧ Forall (λ p, 0 <= p <= 1 + StateVector.default_tol)
           (StateVector.get_probs s)
  ∧ Rabs (foldr Rplus 0 (StateVector.get_probs s) - 1)
    <= StateVector.default_tol.
Proof.
  intros Hinit.
  destruct (StateVector_init_Ok_inv v rs s Hinit)
    as (Hpure & _ & _ & _ & Hs).
  apply pure_state_norm in Hpure as [_ Hnorm].
  unfold StateVector.get_probs, StateVector.get_dim.
  rewrite Hs. cbn [StateVector.vec StateVector.dim].
  assert (Hnonneg : Forall (λ y, 0 <= y) (map (λ z, Cx.abs z ^ 2) v)).
  { apply Forall_forall. intros p Hp.
    apply list_elem_of_fmap in Hp as (z & -> & _). apply pow2_ge_0. }
  split; [by rewrite length_map|]. split; [|by rewrite probs_sum].
  apply Forall_forall. intros p Hp. split.
  - rewrite Forall_forall in Hnonneg. by apply Hnonneg.
  - pose proof (nonneg_elem_le_sum _ p Hnonneg Hp) as Hle.
    rewrite probs_sum in Hle.
    revert Hnorm. unfold Rabs. destruct (Rcase_abs _); lra.
Qed.

(** X20. Radix inference: without supplied radixes, a pure state of
    length [2^k] becomes a [k]-qubit state and one of length [3^k],
    [k ≥ 1], a [k]-qutrit state, provided [is_valid_radixes] accepts that
    tuple. *)
Theorem StateVector_infers_qubits_and_qutrits (v : list C) (k : nat) :
  is_vector v = true →
  Rabs (StateVector.sum_square_abs v - 1) <= StateVector.default_tol →
  (length v = (2 ^ k)%nat →
   is_valid_radixes (replicate k 2%nat) = true →
   StateVector.init is_vector is_valid_radixes (StateVector.OfArray v) []
   = Ok {| StateVector.vec := v; StateVector.dim := (2 ^ k)%nat;
           StateVector.radixes := replicate k 2%nat;
           StateVector.size := k |})
  ∧ (length v = (3 ^ k)%nat → (0 < k)%nat →
     is_valid_radixes (replicate k 3%nat) = true →
     StateVector.init is_vector is_valid_radixes (StateVector.OfArray v) []
     = Ok {| StateVector.vec := v; StateVector.dim := (3 ^ k)%nat;
             StateVector.radixes := replicate k 3%nat;
             StateVector.size := k |}).
Proof.
  intros Hvec Hnorm.
  assert (Hpure : StateVector.is_pure_state is_vector (StateVector.OfArray v)
                    StateVector.default_tol = true)
    by (by apply pure_state_norm).
  split.
  - intros Hlen Hvalid. rewrite StateVector_init_array, Hpure, Hlen.
    cbn [negb]. rewrite bool_decide_eq_true_2 by done. cbn [negb].
    rewrite land_pred_pow2, Nat.eqb_refl, Nat.log2_pow2 by lia.
    rewrite bind_Ok, Hvalid. cbn [negb].
    rewrite bool_decide_eq_true_2 by apply product_replicate.
    cbn [negb]. by rewrite length_replicate.
  - intros Hlen Hk Hvalid. rewrite StateVector_init_array, Hpure, Hlen.
    cbn [negb]. rewrite bool_decide_eq_true_2 by done. cbn [negb].
    destruct (Nat.eqb_spec (Nat.land (3 ^ k) (3 ^ k - 1)) 0)%nat as [H0|_];
      [by apply land_pred_pow3 in H0|].
    rewrite log3_pow, bind_Ok, Hvalid. cbn [negb].
    rewrite bool_decide_eq_true_2 by apply product_replicate.
    cbn [negb]. by rewrite length_replicate.
Qed.


(** X22. Round trip: a state built from an array is rebuilt, field for
    field, from its own [get_numpy] and [get_radixes]; the copy
    constructor returns an equal state whatever radixes are passed, and
    [is_pure_state] accepts every state. *)
Theorem StateVector_round_trip (v : list C) (rs rs' : list nat)
    (s : StateVector.t) (tol : R) :
  StateVector.init is_vector is_valid_radixes (StateVector.OfArray v) rs
  = Ok s →
  StateVector.init is_vector is_valid_radixes
    (StateVector.OfArray (StateVector.get_numpy s))
    (StateVector.get_radixes s) = Ok s
  ∧ StateVector.init is_vector is_valid_radixes (StateVector.OfState s) rs'
    = Ok s
  ∧ StateVector.is_pure_state is_vector (StateVector.OfState s) tol = true.
Proof.
  intros Hinit.
  destruct (StateVector_init_Ok_inv v rs s Hinit)
    as (Hpure & Hvalid & Hprod & _ & Hs).
  split; [|split; [by destruct s|reflexivity]].
  unfold StateVector.get_numpy, StateVector.get_radixes.
  destruct s as [sv sd srs ss].
  cbn [StateVector.vec StateVector.radixes] in *.
  injection Hs as -> -> ->.
  rewrite StateVector_init_array, Hpure. cbn [negb].
  destruct (decide (srs = [])) as [->|Hne].
  - unfold product in Hprod. simpl in Hprod.
    rewrite bool_decide_eq_true_2 by done. cbn [negb].
    rewrite <- Hprod. simpl. rewrite Hvalid. cbn [negb].
    reflexivity.
  - rewrite bool_decide_eq_false_2 by done. cbn [negb].
    rewrite bind_Ok, Hvalid. cbn [negb].
    by rewrite bool_decide_eq_true_2 by done.
Qed.

End StateVector_more.

Section StateVector_example.
Local Open Scope R_scope.

Lemma ket0_norm :
  Rabs (StateVector.sum_square_abs [(1, 0); (0, 0)] - 1)
  <= StateVector.default_tol.
Proof.
  unfold StateVector.sum_square_abs, Cx.abs, Cx.re, Cx.im. simpl.
  replace (1 * 1 + 0 * 0) with 1 by lra.
  replace (0 * 0 + 0 * 0) with 0 by lra.
  rewrite sqrt_1, sqrt_0.
  replace (1 * 1 + (0 * 0 + 0) - 1) with 0 by lra.
  rewrite Rabs_R0. unfold StateVector.default_tol.
  apply Rlt_le, Rdiv_lt_0_compat; [lra|]. apply pow_lt. lra.
Qed.

Lemma ket0_init :
  StateVector.init (λ _, true) (λ _, true)
    (StateVector.OfArray [(1, 0); (0, 0)]) []
  = Ok {| StateVector.vec := [(1, 0); (0, 0)]; StateVector.dim := 2;
          StateVector.radixes := [2%nat]; StateVector.size := 1 |}.
Proof.
  rewrite StateVector_init_array.
  rewrite (proj2 (pure_state_norm (λ _, true) [(1, 0); (0, 0)]))
    by (split; [reflexivity | apply ket0_norm]).
  reflexivity.
Qed.


Lemma StateVector_get_probs_distribution_witness :
  length (StateVector.get_probs
            {| StateVector.vec := [(1, 0); (0, 0)]; StateVector.dim := 2;
               StateVector.radixes := [2%nat]; StateVector.size := 1 |})
  = 2%nat.
Proof.
  exact (proj1 (StateVector_get_probs_distribution (λ _, true) (λ _, true)
                  [(1, 0); (0, 0)] [] _ ket0_init)).
Defined.

Lemma StateVector_infers_qubits_and_qutrits_witness :
  StateVector.init (λ _, true) (λ _, true)
    (StateVector.OfArray [(1, 0); (0, 0)]) []
  = Ok {| StateVector.vec := [(1, 0); (0, 0)]; StateVector.dim := 2;
          StateVector.radixes := [2%nat]; StateVector.size := 1 |}.
Proof.
  exact (proj1 (StateVector_infers_qubits_and_qutrits (λ _, true) (λ _, true)
                  [(1, 0); (0, 0)] 1 eq_refl ket0_norm) eq_refl eq_refl).
Defined.

Lemma StateVector_round_trip_witness :
  StateVector.init (λ _, true) (λ _, true)
    (StateVector.OfArray [(1, 0); (0, 0)]) [2%nat]
  = Ok {| StateVector.vec := [(1, 0); (0, 0)]; StateVector.dim := 2;
          StateVector.radixes := [2%nat]; StateVector.size := 1 |}.
Proof.
  exact (proj1 (StateVector_round_trip (λ _, true) (λ _, true)
                  [(1, 0); (0, 0)] [] [] _ 0 ket0_init)).
Defined.

End StateVector_example.

(** ** [Singleton]: arbitrary stores *)

Lemma singleton_new_cases (cls : Singleton.class) (st : Singleton.store) :
  Singleton.__new__ cls st
  = (match Singleton.get_instance st cls with
     | Some o => Ok o
     | None => Raise TypeError
     end, st).
Proof.
  unfold Singleton.__new__.
  destruct (Singleton.get_instance st cls); [reflexivity|].
  by rewrite singleton_log_message_raises.
Qed.

(** X23. [Singleton.__new__] never binds [_instance] and never
    allocates: on every store, every call and every sequence of calls
    leaves the store as it was, returning the object already cached for
    the class along its inheritance chain, or raising [TypeError] when
    there is none. *)
Theorem singleton_new_never_binds :
  (∀ cls st, (Singleton.__new__ cls st).2 = st)
  ∧ (∀ cls st o,
       (Singleton.__new__ cls st).1 = Ok o ↔
       Singleton.get_instance st cls = Some o)
  ∧ (∀ clss st,
       Singleton.instantiate_all clss st
       = (map (λ cls, match Singleton.get_instance st cls with
                      | Some o => Ok o
                      | None => Raise TypeError
                      end) clss, st)).
Proof.
  split; [|split].
  - intros cls st. by rewrite singleton_new_cases.
  - intros cls st o. rewrite singleton_new_cases. cbn [fst].
    destruct (Singleton.get_instance st cls); split; congruence.
  - intros clss st. induction clss as [|cls clss IH]; [reflexivity|].
    cbn [Singleton.instantiate_all map].
    by rewrite singleton_new_cases, IH.
Qed.
